(** * BioSim: island ecosystem simulation (biosim_project/biosim)

    Shallow embedding of [animals.py], [fitness_workers.py], [landscape.py]
    and [island_nature.py].  Python floats are modelled by the real numbers
    (exact arithmetic), Python exceptions by the [Err] branch of [result],
    and the process-wide pseudo random generator by an oracle that is read
    through a counter threaded along every call. *)

From Stdlib Require Import Ascii String.
From Stdlib Require Import Reals Lra Lia ZArith Bool List Permutation.
Import ListNotations.

Local Open Scope R_scope.

(** ** Comparisons on reals as booleans *)

Definition Rltb (x y : R) : bool := if Rlt_dec x y then true else false.
Definition Rleb (x y : R) : bool := if Rle_dec x y then true else false.
Definition Reqb (x y : R) : bool := if Req_dec_T x y then true else false.

(** ** Exceptions and the random source *)

Inductive Error : Type :=
| ValueError
| ZeroDivisionError
| IndexError
| TypeError.

Inductive result (A : Type) : Type :=
| Ok (a : A)
| Err (e : Error).
Arguments Ok {A} a.
Arguments Err {A} e.

(** [uniform k] is the value of the k-th call of [random.random()],
    [normal k] the standard normal deviate behind the k-th call when it is
    [random.gauss], and [shuffle k] the rearrangement [random.shuffle]
    performs when it is the k-th call. *)
Record Oracle : Type := mkOracle {
  uniform : nat -> R;
  normal : nat -> R;
  shuffle : nat -> list (Z * Z) -> list (Z * Z)
}.

Definition valid_oracle (o : Oracle) : Prop :=
  (forall k, 0 <= uniform o k < 1) /\
  (forall k l, Permutation (shuffle o k l) l).

(** Computations that draw random numbers and may raise. *)
Definition M (A : Type) : Type := nat -> result (A * nat).

Definition ret {A} (a : A) : M A := fun k => Ok (a, k).
Definition raise {A} (e : Error) : M A := fun _ => Err e.
Definition bind {A B} (m : M A) (f : A -> M B) : M B :=
  fun k => match m k with
           | Ok (a, k') => f a k'
           | Err e => Err e
           end.
Definition lift {A} (r : result A) : M A :=
  fun k => match r with Ok a => Ok (a, k) | Err e => Err e end.

Notation "x <- c1 ;; c2" := (bind c1 (fun x => c2))
  (at level 61, c1 at next level, right associativity).
Notation "' pat <- c1 ;; c2" := (bind c1 (fun x => match x with pat => c2 end))
  (at level 61, pat pattern, c1 at next level, right associativity).

(** ** Species parameters *)

Inductive Species : Type := Herbivore | Carnivore.

Record Params : Type := mkParams {
  eta : R; omega : R; a_half : R; w_half : R; phi_age : R; phi_weight : R;
  gamma : R; w_birth : R; sigma_birth : R; zeta : R; xi : R; beta : R;
  mu : R; lambda : R; F : R; DeltaPhiMax : R
}.

(** [Jungle.params] and [Savannah.params]. *)
Record LandParams : Type := mkLandParams {
  jungle_fmax : R; savannah_fmax : R; savannah_alpha : R
}.

Record Config : Type := mkConfig {
  herb_params : Params;
  carn_params : Params;
  land_params : LandParams
}.

(** The class attributes as they stand in the source. *)
Definition default_herb_params : Params :=
  mkParams (5/100) (4/10) 40 10 (2/10) (1/10) (2/10) 8 (15/10) (35/10)
           (12/10) (9/10) (25/100) 1 10 10.
Definition default_carn_params : Params :=
  mkParams (125/1000) (9/10) 60 4 (4/10) (4/10) (8/10) 6 1 (35/10)
           (11/10) (75/100) (4/10) 1 50 10.
Definition default_config : Config :=
  mkConfig default_herb_params default_carn_params (mkLandParams 800 300 (3/10)).

(** ** fitness_workers.py *)

Definition _q_factor (phi x x_half : R) : R :=
  1 / (1 + exp (phi * (x - x_half))).

Definition _fitness (phi_age age a_half phi_weight weight w_half : R) : R :=
  _q_factor phi_age age a_half * _q_factor (- phi_weight) weight w_half.

(** ** animals.py *)

Record Animal : Type := mkAnimal {
  species : Species;
  weight : R;
  age : Z
}.

(** [Animal.__init__]; ages are integers here, so the test
    [age - round(age) != 0] of the source cannot fire. *)
Definition new_animal (sp : Species) (w : R) (a : Z) : result Animal :=
  if Rleb w 0 then Err ValueError
  else if (a <? 0)%Z then Err ValueError
  else Ok (mkAnimal sp w a).

(** The weight and age setters; both clear the cached fitness, so the
    [fitness] property below is always that of the current weight and age. *)
Definition set_weight (a : Animal) (new_weight : R) : Animal :=
  mkAnimal (species a) new_weight (age a).
Definition set_age (a : Animal) (new_age : Z) : Animal :=
  mkAnimal (species a) (weight a) new_age.

Section Model.

Variable cfg : Config.
Variable o : Oracle.

Definition params (a : Animal) : Params :=
  match species a with
  | Herbivore => herb_params cfg
  | Carnivore => carn_params cfg
  end.

Definition random : M R := fun k => Ok (uniform o k, S k).
Definition gauss (m s : R) : M R := fun k => Ok (m + normal o k * s, S k).

Definition weight_of_animal (a : Animal) : R := weight a.

Definition aging (a : Animal) : Animal := set_age a (age a + 1)%Z.

Definition weight_change (a : Animal) : Animal :=
  set_weight a (weight a - eta (params a) * weight a).

Definition fitness (a : Animal) : R :=
  _fitness (phi_age (params a)) (IZR (age a)) (a_half (params a))
           (phi_weight (params a)) (weight a) (w_half (params a)).

Definition probability_birth (a : Animal) (num_animals : Z) : R :=
  if Rltb (weight a)
          (zeta (params a) * (w_birth (params a) + sigma_birth (params a)))
  then 0
  else
    let prob := gamma (params a) * fitness a * (IZR num_animals - 1) in
    if Rltb 1 prob then 1 else prob.

(** [Animal.birth]: the mother after the attempt and the newborn, if any. *)
Definition birth (a : Animal) (num_animals : Z) : M (Animal * option Animal) :=
  let prob_birth := probability_birth a num_animals in
  r <- random ;;
  if Rltb r prob_birth then
    w_newborn <- gauss (w_birth (params a)) (sigma_birth (params a)) ;;
    if Rltb 0 w_newborn && Rltb w_newborn (weight a) then
      let w_mother_after := weight a - xi (params a) * w_newborn in
      if Rltb 0 w_mother_after then
        new <- lift (new_animal (species a) w_newborn 0) ;;
        ret (set_weight a w_mother_after, Some new)
      else ret (a, None)
    else ret (a, None)
  else ret (a, None).

Definition death (a : Animal) : M bool :=
  r <- random ;;
  ret (Rltb r (omega (params a) * (1 - fitness a))).

Definition prob_migration (a : Animal) : R := mu (params a) * fitness a.

(** [Herbivore.eating]: the herbivore after the meal and the amount eaten. *)
Definition Herbivore_eating (a : Animal) (available_food : R) : result (Animal * R) :=
  if Rltb available_food 0 then Err ValueError
  else if Rleb (F (herb_params cfg)) available_food then
    Ok (set_weight a (weight a + beta (herb_params cfg) * F (herb_params cfg)),
        F (herb_params cfg))
  else
    Ok (set_weight a (weight a + beta (herb_params cfg) * available_food),
        available_food).

Definition prob_kill (c : Animal) (herb_fit : R) : R :=
  (fitness c - herb_fit) / DeltaPhiMax (params c).

(** [Carnivore.carn_kills_herb]; the value [None] the source returns when
    the draw fails is falsy and read as [false]. *)
Definition carn_kills_herb (c herbivore : Animal) : M bool :=
  if Rltb 0 (fitness c - fitness herbivore)
     && Rltb (fitness c - fitness herbivore) (DeltaPhiMax (params c))
  then
    r <- random ;;
    if Rltb r (prob_kill c (fitness herbivore)) then ret true else ret false
  else ret true.

(** [Carnivore.eating].  The list holds distinct objects, so
    [herbivores.index(herb)] is the position the loop has reached and the
    slice taken on the early exit is the part of the list not yet visited.
    The loop state is the carnivore, [eaten_food] and the survivors so far. *)
Fixpoint Carnivore_eating_loop (c : Animal) (eaten_food : R)
    (surviving_herbivores herbivores : list Animal) : M (Animal * list Animal) :=
  match herbivores with
  | [] => ret (c, surviving_herbivores)
  | herb :: rest =>
    if Rleb (fitness c) (fitness herb)
       || Reqb eaten_food (F (carn_params cfg))
    then ret (c, surviving_herbivores ++ herb :: rest)
    else
      killed <- carn_kills_herb c herb ;;
      if killed then
        if Rltb (F (carn_params cfg)) (eaten_food + weight_of_animal herb) then
          Carnivore_eating_loop
            (set_weight c (weight c + (F (carn_params cfg) - eaten_food)
                                      * beta (carn_params cfg)))
            (F (carn_params cfg)) surviving_herbivores rest
        else
          Carnivore_eating_loop
            (set_weight c (weight c + weight_of_animal herb
                                      * beta (carn_params cfg)))
            (eaten_food + weight_of_animal herb) surviving_herbivores rest
      else Carnivore_eating_loop c eaten_food (surviving_herbivores ++ [herb]) rest
  end.

Definition Carnivore_eating (c : Animal) (herbivores : list Animal)
  : M (Animal * list Animal) :=
  Carnivore_eating_loop c 0 [] herbivores.


(** ** landscape.py *)

Inductive Kind : Type := Jungle | Savannah | Desert | Mountain | Ocean.

Record Cell : Type := mkCell {
  kind : Kind;
  loc : Z * Z;
  herb : list Animal;
  carn : list Animal;
  herb_immigrants : list Animal;
  carn_immigrants : list Animal;
  available_food : R
}.

Definition set_herb (l : list Animal) (c : Cell) : Cell :=
  mkCell (kind c) (loc c) l (carn c) (herb_immigrants c) (carn_immigrants c)
         (available_food c).
Definition set_carn (l : list Animal) (c : Cell) : Cell :=
  mkCell (kind c) (loc c) (herb c) l (herb_immigrants c) (carn_immigrants c)
         (available_food c).
Definition set_herb_immigrants (l : list Animal) (c : Cell) : Cell :=
  mkCell (kind c) (loc c) (herb c) (carn c) l (carn_immigrants c)
         (available_food c).
Definition set_carn_immigrants (l : list Animal) (c : Cell) : Cell :=
  mkCell (kind c) (loc c) (herb c) (carn c) (herb_immigrants c) l
         (available_food c).
Definition set_available_food (f : R) (c : Cell) : Cell :=
  mkCell (kind c) (loc c) (herb c) (carn c) (herb_immigrants c)
         (carn_immigrants c) f.

(** The constructors of [Jungle], [Savannah], [Desert], [Mountain], [Ocean]. *)
Definition new_cell (k : Kind) (location : Z * Z) : Cell :=
  mkCell k location [] [] [] []
         match k with
         | Jungle => jungle_fmax (land_params cfg)
         | Savannah => savannah_fmax (land_params cfg)
         | _ => 0
         end.

Definition animals_can_live_here (c : Cell) : bool :=
  match kind c with
  | Mountain | Ocean => false
  | _ => true
  end.

Definition food_growth (c : Cell) : Cell :=
  match kind c with
  | Jungle => set_available_food (jungle_fmax (land_params cfg)) c
  | Savannah =>
    set_available_food
      (available_food c + savannah_alpha (land_params cfg)
                          * (savannah_fmax (land_params cfg) - available_food c)) c
  | _ => c
  end.

(** [list.sort(key=fitness, reverse=descending)] is stable in both
    directions: an element only moves past the ones that come strictly
    before it in the requested order. *)
Fixpoint sort_insert (descending : bool) (x : Animal) (l : list Animal)
  : list Animal :=
  match l with
  | [] => [x]
  | y :: l' =>
    if (if descending then Rltb (fitness x) (fitness y)
        else Rltb (fitness y) (fitness x))
    then y :: sort_insert descending x l'
    else x :: y :: l'
  end.

Definition sort_fitness (descending : bool) (l : list Animal) : list Animal :=
  fold_right (sort_insert descending) [] l.

Definition fitness_sorting (herb_descending carn_descending : bool) (c : Cell)
  : Cell :=
  set_carn (sort_fitness carn_descending (carn c))
           (set_herb (sort_fitness herb_descending (herb c)) c).

Definition total_num_animals (c : Cell) (sp : Species) : nat :=
  match sp with
  | Herbivore => (length (herb c) + length (herb_immigrants c))%nat
  | Carnivore => (length (carn c) + length (carn_immigrants c))%nat
  end.

(** Python's [sum]: a left fold that starts from 0. *)
Definition Rsum (l : list R) : R := fold_left Rplus l 0.

Definition get_available_fodder (c : Cell) (sp : Species) : R :=
  match sp with
  | Herbivore => available_food c
  | Carnivore => Rsum (map weight_of_animal (herb c))
  end.

Fixpoint list_set {A} (l : list A) (k : nat) (x : A) : list A :=
  match l, k with
  | [], _ => []
  | _ :: l', O => x :: l'
  | y :: l', S k' => y :: list_set l' k' x
  end.

(** The [while] loop of [Landscape.herb_eating]; [n] is [num_herb - k]. *)
Fixpoint herb_eating_loop (n k : nat) (hs : list Animal) (food : R)
  : result (list Animal * R) :=
  match n with
  | O => Ok (hs, food)
  | S n' =>
    if Rltb 0 food then
      match nth_error hs k with
      | None => Err IndexError
      | Some h =>
        match Herbivore_eating h food with
        | Ok (h', eaten) => herb_eating_loop n' (S k) (list_set hs k h') (food - eaten)
        | Err e => Err e
        end
      end
    else Ok (hs, food)
  end.

Definition herb_eating (c : Cell) : result Cell :=
  let c1 := fitness_sorting true true c in
  let num_herb := total_num_animals c1 Herbivore in
  match herb_eating_loop num_herb 0 (herb c1) (available_food c1) with
  | Ok (hs, food) => Ok (set_available_food food (set_herb hs c1))
  | Err e => Err e
  end.

(** The [for] loop of [Landscape.carn_eating] over the sorted carnivores. *)
Fixpoint carn_eating_loop (carns herbs : list Animal)
  : M (list Animal * list Animal) :=
  match carns with
  | [] => ret ([], herbs)
  | c :: rest =>
    match herbs with
    | [] => ret (c :: rest, [])
    | h :: _ =>
      if Rltb (fitness c) (fitness h) then ret (c :: rest, herbs)
      else
        ' (c', herbs') <- Carnivore_eating c herbs ;;
        ' (rest', herbs'') <- carn_eating_loop rest herbs' ;;
        ret (c' :: rest', herbs'')
    end
  end.

Definition carn_eating (c : Cell) : M Cell :=
  let c1 := fitness_sorting false true c in
  ' (cs, hs) <- carn_eating_loop (carn c1) (herb c1) ;;
  ret (set_herb hs (set_carn cs c1)).

(** [Landscape.newborns]: the mothers after their attempts and the newborns. *)
Fixpoint newborns_loop (num : Z) (animals : list Animal)
  : M (list Animal * list Animal) :=
  match animals with
  | [] => ret ([], [])
  | a :: rest =>
    ' (a', new) <- birth a num ;;
    ' (rest', news) <- newborns_loop num rest ;;
    ret (a' :: rest', match new with Some b => b :: news | None => news end)
  end.

Definition newborns (animals_procreating : list Animal)
  : M (list Animal * list Animal) :=
  newborns_loop (Z.of_nat (length animals_procreating)) animals_procreating.

Definition animal_birth (c : Cell) : M Cell :=
  ' (hs, hnew) <- newborns (herb c) ;;
  ' (cs, cnew) <- newborns (carn c) ;;
  ret (set_carn (cs ++ cnew) (set_herb (hs ++ hnew) c)).

Definition neighbour_locations (c : Cell) : list (Z * Z) :=
  let n1 := (fst (loc c) - 1, snd (loc c))%Z in
  let n2 := (fst (loc c), snd (loc c) + 1)%Z in
  let n3 := (fst (loc c) + 1, snd (loc c))%Z in
  let n4 := (fst (loc c), snd (loc c) - 1)%Z in
  [n1; n2; n3; n4].

Fixpoint relative_abundance_of_fodder (neighbours : list Cell) (animal : Animal)
    (sp : Species) : result (list R) :=
  match neighbours with
  | [] => Ok []
  | cell :: rest =>
    let d := (INR (total_num_animals cell sp) + 1) * F (params animal) in
    if Reqb d 0 then Err ZeroDivisionError
    else
      match relative_abundance_of_fodder rest animal sp with
      | Ok l => Ok (get_available_fodder cell sp / d :: l)
      | Err e => Err e
      end
  end.

Fixpoint propensity (neighbours : list Cell) (animal : Animal) (ek : list R)
  : list R :=
  match neighbours, ek with
  | cell :: ns, ekj :: es =>
    (if negb (animals_can_live_here cell) then 0
     else exp (lambda (params animal) * ekj)) :: propensity ns animal es
  | _, _ => []
  end.

Definition prob_move (neighbours : list Cell) (animal : Animal) (sp : Species)
  : result (list R) :=
  match relative_abundance_of_fodder neighbours animal sp with
  | Err e => Err e
  | Ok ek =>
    let exp_ek := propensity neighbours animal ek in
    if Reqb (Rsum exp_ek) 0 then Ok [0; 0; 0; 0]
    else Ok (map (fun exp_ekj => exp_ekj / Rsum exp_ek) exp_ek)
  end.

(** [round(x, ndigits)]: the nearest multiple of [10^-ndigits], ties to the
    even one. *)
Definition round_half_even (y : R) : Z :=
  let f := (up y - 1)%Z in
  let d := y - IZR f in
  if Rltb d (1/2) then f
  else if Rltb (1/2) d then (f + 1)%Z
  else if Z.even f then f else (f + 1)%Z.

Definition py_round (x : R) (ndigits : nat) : R :=
  IZR (round_half_even (x * 10 ^ ndigits)) / 10 ^ ndigits.

(** The [while] loop of [animal_moves_to]; it leaves through [break] when
    [pos] reaches 3, so [n = 3 - pos] iterations are all it can make. *)
Fixpoint moves_loop (n : nat) (prob_move : list R) (rnd : R) (pos : nat)
    (prob_acum : R) : result nat :=
  match n with
  | O => Ok pos
  | S n' =>
    if Rleb prob_acum rnd then
      match nth_error prob_move (S pos) with
      | None => Err IndexError
      | Some p =>
        if Nat.eqb (S pos) 3 then Ok (S pos)
        else moves_loop n' prob_move rnd (S pos) (prob_acum + p)
      end
    else Ok pos
  end.

Definition animal_moves_to (prob_move : list R) : M nat :=
  if negb (Reqb (py_round (Rsum prob_move) 15) 1) then raise ValueError
  else
    rnd <- random ;;
    match nth_error prob_move 0 with
    | None => raise IndexError
    | Some p0 => lift (moves_loop 3 prob_move rnd 0 p0)
    end.

Definition add_herb_immigrant (a : Animal) (c : Cell) : Cell :=
  set_herb_immigrants (herb_immigrants c ++ [a]) c.
Definition add_carn_immigrant (a : Animal) (c : Cell) : Cell :=
  set_carn_immigrants (carn_immigrants c ++ [a]) c.

Definition add_immigrants_to_pop (c : Cell) : Cell :=
  let c1 := set_herb_immigrants [] (set_herb (herb c ++ herb_immigrants c) c) in
  set_carn_immigrants [] (set_carn (carn c1 ++ carn_immigrants c1) c1).

Definition animal_aging (c : Cell) : Cell :=
  set_carn (map aging (carn c)) (set_herb (map aging (herb c)) c).

Definition animal_weight_change (c : Cell) : Cell :=
  set_carn (map weight_change (carn c)) (set_herb (map weight_change (herb c)) c).

Fixpoint survivors (animals : list Animal) : M (list Animal) :=
  match animals with
  | [] => ret []
  | a :: rest =>
    dead <- death a ;;
    rest' <- survivors rest ;;
    ret (if dead then rest' else a :: rest')
  end.

Definition animal_death (c : Cell) : M Cell :=
  hs <- survivors (herb c) ;;
  cs <- survivors (carn c) ;;
  ret (set_carn cs (set_herb hs c)).

(** One entry of a population list: the dictionary with the keys
    ['species'], ['age'] and ['weight']. *)
Record PopAnimal : Type := mkPopAnimal {
  p_species : string;
  p_age : Z;
  p_weight : R
}.

(** [Landscape.add_population].  The cell is mutated entry by entry, so the
    cell reached when an exception leaves the loop is returned with it. *)
Fixpoint add_population_loop (pop : list PopAnimal) (c : Cell)
  : Cell * option Error :=
  match pop with
  | [] => (c, None)
  | animal :: rest =>
    if (String.eqb (p_species animal) "Herbivore"
        || String.eqb (p_species animal) "herbivore")%bool then
      match new_animal Herbivore (p_weight animal) (p_age animal) with
      | Ok a => add_population_loop rest (set_herb (herb c ++ [a]) c)
      | Err e => (c, Some e)
      end
    else if (String.eqb (p_species animal) "Carnivore"
             || String.eqb (p_species animal) "carnivore")%bool then
      match new_animal Carnivore (p_weight animal) (p_age animal) with
      | Ok a => add_population_loop rest (set_carn (carn c ++ [a]) c)
      | Err e => (c, Some e)
      end
    else (c, Some ValueError)
  end.

(** [add_population] with the overriding methods of [Mountain] and [Ocean];
    [None] is Python's [None]. *)
Definition add_population (pop : option (list PopAnimal)) (c : Cell)
  : Cell * option Error :=
  match kind c with
  | Mountain | Ocean =>
    match pop with
    | Some _ => (c, Some ValueError)
    | None => (c, None)
    end
  | _ =>
    match pop with
    | Some l => add_population_loop l c
    | None => (c, Some TypeError)
    end
  end.

(** ** island_nature.py *)

(** Python indexing: negative indices count from the end. *)
Definition py_index (len : nat) (i : Z) : option nat :=
  if (0 <=? i)%Z then
    if (i <? Z.of_nat len)%Z then Some (Z.to_nat i) else None
  else if (- Z.of_nat len <=? i)%Z then Some (Z.to_nat (Z.of_nat len + i))
  else None.

Definition py_get {A} (l : list A) (i : Z) : result A :=
  match py_index (length l) i with
  | Some k =>
    match nth_error l k with
    | Some x => Ok x
    | None => Err IndexError
    end
  | None => Err IndexError
  end.

Fixpoint list_alter {A} (f : A -> A) (k : nat) (l : list A) : list A :=
  match l, k with
  | [], _ => []
  | x :: l', O => f x :: l'
  | x :: l', S k' => x :: list_alter f k' l'
  end.

Definition Map : Type := list (list Cell).

Record Island : Type := mkIsland {
  geogr : list (list ascii);
  island_map : Map
}.

(** [island_map[l[0]][l[1]]] *)
Definition get_cell (m : Map) (l : Z * Z) : result Cell :=
  match py_get m (fst l) with
  | Ok row => py_get row (snd l)
  | Err e => Err e
  end.

(** The cell objects are shared between [island_map], the shuffled list and
    the neighbour lists; a reference to a cell is its place in the map, and
    mutating the object behind a reference rewrites the map at that place. *)
Definition alter_cell (f : Cell -> Cell) (l : Z * Z) (m : Map) : Map :=
  match py_index (length m) (fst l) with
  | Some i =>
    list_alter (fun row =>
                  match py_index (length row) (snd l) with
                  | Some j => list_alter f j row
                  | None => row
                  end) i m
  | None => m
  end.

Definition kind_of_letter (letter : ascii) : result Kind :=
  if Ascii.eqb letter "J" then Ok Jungle
  else if Ascii.eqb letter "S" then Ok Savannah
  else if Ascii.eqb letter "D" then Ok Desert
  else if Ascii.eqb letter "M" then Ok Mountain
  else if Ascii.eqb letter "O" then Ok Ocean
  else Err ValueError.

Fixpoint build_row (row_num col_num : Z) (letters : list ascii)
  : result (list Cell) :=
  match letters with
  | [] => Ok []
  | letter :: rest =>
    match kind_of_letter letter with
    | Err e => Err e
    | Ok k =>
      match build_row row_num (col_num + 1) rest with
      | Err e => Err e
      | Ok row => Ok (new_cell k (row_num, col_num) :: row)
      end
    end
  end.

Fixpoint build_map (row_num : Z) (rows : list (list ascii)) : result Map :=
  match rows with
  | [] => Ok []
  | r :: rest =>
    match build_row row_num 0 r with
    | Err e => Err e
    | Ok row =>
      match build_map (row_num + 1) rest with
      | Err e => Err e
      | Ok m => Ok (row :: m)
      end
    end
  end.

Definition all_ocean (letters : list ascii) : bool :=
  forallb (fun letter => Ascii.eqb letter "O") letters.

(** The check of the rows [geogr[1:-1]]: first and last letter are ['O']. *)
Fixpoint check_edges (rows : list (list ascii)) : result unit :=
  match rows with
  | [] => Ok tt
  | row_letter :: rest =>
    match py_get row_letter 0, py_get row_letter (-1) with
    | Ok a, Ok b =>
      if (negb (Ascii.eqb a "O") || negb (Ascii.eqb b "O"))%bool
      then Err ValueError
      else check_edges rest
    | Err e, _ => Err e
    | _, Err e => Err e
    end
  end.

(** [Island.__init__] on the rows [geogr.split()] yields.  Every row has the
    width of the first one when the map is built, so the double loop over
    [range(len(geogr))] and [range(len(geogr[0]))] visits the letters of each
    row in turn. *)
Definition new_island (rows : list (list ascii)) : result Island :=
  match rows with
  | [] => Err ValueError
  | first :: _ =>
    let isl_width := fold_right Nat.max 0%nat (map (@length ascii) rows) in
    if negb (forallb (fun row_str => Nat.eqb (length row_str) isl_width) rows)
    then Err ValueError
    else if negb (all_ocean first) then Err ValueError
    else if negb (all_ocean (last rows first)) then Err ValueError
    else
      match check_edges (removelast (tl rows)) with
      | Err e => Err e
      | Ok _ =>
        match build_map 0 rows with
        | Err e => Err e
        | Ok m => Ok (mkIsland rows m)
        end
      end
  end.

(** One record of a population batch: ['loc'] and ['pop']. *)
Record PopRecord : Type := mkPopRecord {
  p_loc : Z * Z;
  p_pop : option (list PopAnimal)
}.

(** [Island.place_animals]; the island reached when an exception leaves the
    loop is returned with it. *)
Fixpoint place_animals (population : list PopRecord) (isl : Island)
  : Island * option Error :=
  match population with
  | [] => (isl, None)
  | pop :: rest =>
    let row := (fst (p_loc pop) - 1)%Z in
    let col := (snd (p_loc pop) - 1)%Z in
    if (Z.of_nat (length (island_map isl)) - 1 <? row)%Z then (isl, Some ValueError)
    else
      match nth_error (island_map isl) 0 with
      | None => (isl, Some IndexError)
      | Some row0 =>
        if (Z.of_nat (length row0) - 1 <? col)%Z then (isl, Some ValueError)
        else
          match get_cell (island_map isl) (row, col) with
          | Err e => (isl, Some e)
          | Ok cell =>
            if animals_can_live_here cell then
              let (cell', err) := add_population (p_pop pop) cell in
              let isl' := mkIsland (geogr isl)
                            (alter_cell (fun _ => cell') (row, col) (island_map isl)) in
              match err with
              | Some e => (isl', Some e)
              | None => place_animals rest isl'
              end
            else (isl, Some ValueError)
          end
      end
  end.

Fixpoint mapM {A B} (f : A -> M B) (l : list A) : M (list B) :=
  match l with
  | [] => ret []
  | x :: l' => y <- f x ;; ys <- mapM f l' ;; ret (y :: ys)
  end.

Fixpoint foldM {A S} (f : A -> S -> M S) (l : list A) (s : S) : M S :=
  match l with
  | [] => ret s
  | x :: l' => s' <- f x s ;; foldM f l' s'
  end.

Definition with_map (isl : Island) (m : Map) : Island := mkIsland (geogr isl) m.

Definition food_growth_in_all_cells (isl : Island) : Island :=
  with_map isl (map (map food_growth) (island_map isl)).

Definition all_herb_eating (isl : Island) : M Island :=
  m <- mapM (mapM (fun cell => lift (herb_eating cell))) (island_map isl) ;;
  ret (with_map isl m).

Definition all_carn_eating (isl : Island) : M Island :=
  m <- mapM (mapM carn_eating) (island_map isl) ;;
  ret (with_map isl m).

Definition animals_give_birth (isl : Island) : M Island :=
  m <- mapM (mapM animal_birth) (island_map isl) ;;
  ret (with_map isl m).

(** [range(a, b)] *)
Definition zrange (a b : Z) : list Z :=
  map (fun i => (a + Z.of_nat i)%Z) (seq 0 (Z.to_nat (b - a))).

Definition interior_locations (isl : Island) : list (Z * Z) :=
  flat_map (fun row =>
              map (fun col => (row, col))
                  (zrange 1 (Z.of_nat (length (nth 0 (geogr isl) [])) - 1)))
           (zrange 1 (Z.of_nat (length (geogr isl)) - 1)).

Fixpoint get_neighbours (m : Map) (loc_neighbours : list (Z * Z))
  : result (list Cell) :=
  match loc_neighbours with
  | [] => Ok []
  | neighbour :: rest =>
    match get_cell m neighbour with
    | Err e => Err e
    | Ok cell =>
      match get_neighbours m rest with
      | Err e => Err e
      | Ok cells => Ok (cell :: cells)
      end
    end
  end.

(** [Island.randomize_cell_structure]: the shuffled references, after the
    look-up of each of them in [island_map]. *)
Definition randomize_cell_structure (isl : Island) : M (list (Z * Z)) :=
  locations <- (fun k => Ok (shuffle o k (interior_locations isl), S k)) ;;
  _ <- lift (get_neighbours (island_map isl) locations) ;;
  ret locations.

Definition residents (sp : Species) (c : Cell) : list Animal :=
  match sp with Herbivore => herb c | Carnivore => carn c end.
Definition set_residents (sp : Species) (l : list Animal) (c : Cell) : Cell :=
  match sp with Herbivore => set_herb l c | Carnivore => set_carn l c end.
Definition immigrants (sp : Species) (c : Cell) : list Animal :=
  match sp with Herbivore => herb_immigrants c | Carnivore => carn_immigrants c end.
Definition add_immigrant (sp : Species) (a : Animal) (c : Cell) : Cell :=
  match sp with
  | Herbivore => add_herb_immigrant a c
  | Carnivore => add_carn_immigrant a c
  end.

(** The [for] loop shared by [Landscape.herb_migration] ([sp = Herbivore])
    and [Landscape.carn_migration] ([sp = Carnivore]); [nlocs] are the
    references to the four neighbours, read in the map as it stands when
    the animal decides. *)
Fixpoint migration_loop (sp : Species) (nlocs : list (Z * Z))
    (animals remaining : list Animal) (m : Map) : M (list Animal * Map) :=
  match animals with
  | [] => ret (remaining, m)
  | a :: rest =>
    r <- random ;;
    if Rltb r (prob_migration a) then
      neighbours <- lift (get_neighbours m nlocs) ;;
      pm <- lift (prob_move neighbours a sp) ;;
      if Reqb (Rsum pm) 0 then
        migration_loop sp nlocs rest (remaining ++ [a]) m
      else
        pos <- animal_moves_to pm ;;
        match nth_error nlocs pos with
        | None => raise IndexError
        | Some nl =>
          migration_loop sp nlocs rest remaining
                         (alter_cell (add_immigrant sp a) nl m)
        end
    else migration_loop sp nlocs rest (remaining ++ [a]) m
  end.

(** One round of the first loop of [animals_migrate] for the cell at [l]:
    [get_neighbours] followed by [herb_migration] or [carn_migration]. *)
Definition cell_migration (sp : Species) (l : Z * Z) (m : Map) : M Map :=
  cell <- lift (get_cell m l) ;;
  _ <- lift (get_neighbours m (neighbour_locations cell)) ;;
  ' (remaining, m') <-
    migration_loop sp (neighbour_locations cell) (residents sp cell) [] m ;;
  ret (alter_cell (set_residents sp remaining) l m').

Definition herb_migration : Z * Z -> Map -> M Map := cell_migration Herbivore.
Definition carn_migration : Z * Z -> Map -> M Map := cell_migration Carnivore.

Definition commit_immigrants (rnd_island : list (Z * Z)) (m : Map) : Map :=
  fold_left (fun m' l => alter_cell add_immigrants_to_pop l m') rnd_island m.

Definition animals_migrate (isl : Island) : M Island :=
  rnd_island <- randomize_cell_structure isl ;;
  m1 <- foldM herb_migration rnd_island (island_map isl) ;;
  let m2 := commit_immigrants rnd_island m1 in
  m3 <- foldM carn_migration rnd_island m2 ;;
  ret (with_map isl (commit_immigrants rnd_island m3)).

Definition all_animals_aging (isl : Island) : Island :=
  with_map isl (map (map animal_aging) (island_map isl)).

Definition all_animals_lose_weight (isl : Island) : Island :=
  with_map isl (map (map animal_weight_change) (island_map isl)).

Definition animals_die (isl : Island) : M Island :=
  m <- mapM (mapM animal_death) (island_map isl) ;;
  ret (with_map isl m).

Definition annual_cycle (isl : Island) : M Island :=
  let isl1 := food_growth_in_all_cells isl in
  isl2 <- all_herb_eating isl1 ;;
  isl3 <- all_carn_eating isl2 ;;
  isl4 <- animals_give_birth isl3 ;;
  isl5 <- animals_migrate isl4 ;;
  let isl6 := all_animals_aging isl5 in
  let isl7 := all_animals_lose_weight isl6 in
  animals_die isl7.

Fixpoint annual_cycles (num_years : nat) (isl : Island) : M Island :=
  match num_years with
  | O => ret isl
  | S n => isl' <- annual_cycle isl ;; annual_cycles n isl'
  end.

Definition count_cells (sp : Species) (m : Map) : nat :=
  fold_right (fun row acc =>
                (fold_right (fun cell acc' => (total_num_animals cell sp + acc')%nat)
                            0%nat row + acc)%nat) 0%nat m.

Definition number_of_animals (isl : Island) : nat * nat :=
  (count_cells Herbivore (island_map isl), count_cells Carnivore (island_map isl)).

End Model.

(** ** Predicates and sample data of the statements *)

(** [x] stands before [y] in the requested order, ties included. *)
Definition fitness_before (cfg : Config) (descending : bool) (x y : Animal) : Prop :=
  if descending then fitness cfg y <= fitness cfg x
  else fitness cfg x <= fitness cfg y.

Fixpoint fitness_sorted (cfg : Config) (descending : bool) (l : list Animal) : Prop :=
  match l with
  | [] => True
  | x :: l' => Forall (fitness_before cfg descending x) l' /\
               fitness_sorted cfg descending l'
  end.

(** The cell in row [i], column [j] of the map. *)
Definition cell_at (m : Map) (i j : nat) : option Cell :=
  match nth_error m i with
  | Some row => nth_error row j
  | None => None
  end.

(** The place in the map a Python index pair refers to. *)
Definition resolve (m : Map) (l : Z * Z) : option (nat * nat) :=
  match py_index (length m) (fst l) with
  | None => None
  | Some i =>
    match nth_error m i with
    | None => None
    | Some row =>
      match py_index (length row) (snd l) with
      | None => None
      | Some j => Some (i, j)
      end
    end
  end.

Definition alter_at (f : Cell -> Cell) (i j : nat) (m : Map) : Map :=
  list_alter (list_alter f j) i m.

(** Two maps of the same shape whose cells are related place by place. *)
Definition rel2 (R : Cell -> Cell -> Prop) (m m' : Map) : Prop :=
  Forall2 (Forall2 R) m m'.

Definition all_cells (P : Cell -> Prop) (m : Map) : Prop :=
  Forall (Forall P) m.

Definition other (sp : Species) : Species :=
  match sp with Herbivore => Carnivore | Carnivore => Herbivore end.

Definition empty_cell (c : Cell) : Prop :=
  herb c = [] /\ carn c = [] /\ herb_immigrants c = [] /\ carn_immigrants c = [].

(** A cell in which no animal can live holds none, resident or staged. *)
Definition cell_ok (c : Cell) : Prop :=
  animals_can_live_here c = false -> empty_cell c.

Definition no_staged (c : Cell) : Prop :=
  herb_immigrants c = [] /\ carn_immigrants c = [].

Definition same_frame (c c' : Cell) : Prop :=
  kind c' = kind c /\ loc c' = loc c.

(** What every phase but migration does to a cell: landscape and place
    stay, the staging lists stay, and no animal appears where none was. *)
Definition inert (c c' : Cell) : Prop :=
  same_frame c c' /\
  herb_immigrants c' = herb_immigrants c /\
  carn_immigrants c' = carn_immigrants c /\
  (herb c = [] -> herb c' = []) /\
  (carn c = [] -> carn c' = []).

(** What staging immigrants of species [sp] does to a cell while the loop
    of a migrating cell runs. *)
Definition stage_rel (sp : Species) (c c' : Cell) : Prop :=
  same_frame c c' /\
  available_food c' = available_food c /\
  herb c' = herb c /\ carn c' = carn c /\
  immigrants (other sp) c' = immigrants (other sp) c /\
  exists extra,
    immigrants sp c' = immigrants sp c ++ extra /\
    (extra <> [] -> animals_can_live_here c = true).

(** What the migration of species [sp], up to any point of its first loop,
    does to a cell. *)
Definition mig_rel (sp : Species) (c c' : Cell) : Prop :=
  same_frame c c' /\
  available_food c' = available_food c /\
  residents (other sp) c' = residents (other sp) c /\
  immigrants (other sp) c' = immigrants (other sp) c /\
  (residents sp c = [] -> residents sp c' = []) /\
  exists extra,
    immigrants sp c' = immigrants sp c ++ extra /\
    (extra <> [] -> animals_can_live_here c = true).

Definition sumn {A} (g : A -> nat) (l : list A) : nat :=
  fold_right (fun x acc => (g x + acc)%nat) 0%nat l.

(** What the commit step does to a cell. *)
Definition commit_rel (c c' : Cell) : Prop :=
  c' = c \/ c' = add_immigrants_to_pop c.

(** What any phase of the annual cycle may do to a cell, as far as the
    landscape and the emptiness of uninhabitable cells go. *)
Definition step_rel (c c' : Cell) : Prop :=
  same_frame c c' /\ (cell_ok c -> cell_ok c').

(** Every cell of the map is visited by the migration loops or is one in
    which no animal can live. *)
Definition covered (isl : Island) : Prop :=
  forall i j c,
    cell_at (island_map isl) i j = Some c ->
    In (Z.of_nat i, Z.of_nat j) (interior_locations isl) \/
    animals_can_live_here c = false.

(** What placing populations may do to a cell. *)
Definition place_rel (c c' : Cell) : Prop :=
  same_frame c c' /\
  herb_immigrants c' = herb_immigrants c /\
  carn_immigrants c' = carn_immigrants c /\
  (animals_can_live_here c = false -> c' = c).

Definition known_species (s : string) : bool :=
  (String.eqb s "Herbivore" || String.eqb s "herbivore"
   || String.eqb s "Carnivore" || String.eqb s "carnivore")%bool.

(** The states of a simulation: the island the constructor builds, with
    populations placed (whether the call returned or raised) and annual
    cycles run on it. *)
Inductive reachable (cfg : Config) : Island -> Prop :=
| reach_new (rows : list (list ascii)) (isl : Island) :
    new_island cfg rows = Ok isl -> reachable cfg isl
| reach_place (population : list PopRecord) (isl : Island) :
    reachable cfg isl -> reachable cfg (fst (place_animals population isl))
| reach_cycle (o : Oracle) (isl isl' : Island) (k k' : nat) :
    reachable cfg isl -> valid_oracle o ->
    annual_cycle cfg o isl k = Ok (isl', k') -> reachable cfg isl'.

(** The animals resident in the cells of a map, staged immigrants left out. *)
Definition count_residents (sp : Species) (m : Map) : nat :=
  sumn (sumn (fun c => length (residents sp c))) m.

(** The reference [l] is to a cell of the map whose four neighbours are
    cells of the map too. *)
Definition loc_ok (m : Map) (l : Z * Z) : Prop :=
  exists c, get_cell m l = Ok c /\
            exists cells, get_neighbours m (neighbour_locations c) = Ok cells.

Definition wf_island (isl : Island) : Prop :=
  forall l, In l (interior_locations isl) -> loc_ok (island_map isl) l.

(** What a phase other than migration does to the numbers in a cell when
    nothing is born and nothing dies of age or hunger. *)
Definition cons_rel (c c' : Cell) : Prop :=
  herb_immigrants c' = herb_immigrants c /\
  carn_immigrants c' = carn_immigrants c /\
  length (carn c') = length (carn c) /\
  (length (herb c') <= length (herb c))%nat /\
  (carn c = [] -> length (herb c') = length (herb c)).

(** A random source whose draws are all 0 and whose shuffle keeps the order. *)
Definition zero_oracle : Oracle :=
  mkOracle (fun _ => 0) (fun _ => 0) (fun _ l => l).

(** A map of two Jungle cells side by side, and a batch that places one
    herbivore in each of them. *)
Definition sample_rows : list (list ascii) :=
  map list_ascii_of_string ["OOOO"; "OJJO"; "OOOO"]%string.

Definition sample_pop : list PopRecord :=
  [mkPopRecord (2, 2)%Z (Some [mkPopAnimal "Herbivore" 5 20]);
   mkPopRecord (2, 3)%Z (Some [mkPopAnimal "Herbivore" 5 20])].

(** A map with one Jungle cell, and a batch that places a light herbivore
    and a carnivore in it. *)
Definition single_rows : list (list ascii) :=
  map list_ascii_of_string ["OOO"; "OJO"; "OOO"]%string.

Definition prey_pop : list PopRecord :=
  [mkPopRecord (2, 2)%Z (Some [mkPopAnimal "Herbivore" 40 1;
                               mkPopAnimal "Carnivore" 60 20])].

(** The parameters of the repository's test of a constant population:
    [gamma] and [omega] set to 0 for both species. *)
Definition no_birth_death (p : Params) : Params :=
  mkParams (eta p) 0 (a_half p) (w_half p) (phi_age p) (phi_weight p) 0
           (w_birth p) (sigma_birth p) (zeta p) (xi p) (beta p) (mu p)
           (lambda p) (F p) (DeltaPhiMax p).

Definition no_birth_death_config : Config :=
  mkConfig (no_birth_death default_herb_params)
           (no_birth_death default_carn_params)
           (mkLandParams 800 300 (3/10)).

(** ** Further predicates of the statements *)

(** [l1] is [l2] with some elements left out, the order kept. *)
Inductive subseq {A : Type} : list A -> list A -> Prop :=
| subseq_nil : subseq [] []
| subseq_keep (x : A) (l1 l2 : list A) : subseq l1 l2 -> subseq (x :: l1) (x :: l2)
| subseq_drop (x : A) (l1 l2 : list A) : subseq l1 l2 -> subseq l1 (x :: l2).

(** The entries of a population batch that [add_population] reads as
    animals of the species [sp]. *)
Definition tagged (sp : Species) (a : PopAnimal) : bool :=
  match sp with
  | Herbivore => (String.eqb (p_species a) "Herbivore"
                  || String.eqb (p_species a) "herbivore")%bool
  | Carnivore => (String.eqb (p_species a) "Carnivore"
                  || String.eqb (p_species a) "carnivore")%bool
  end.

Definition batch_count (sp : Species) (population : list PopRecord) : nat :=
  sumn (fun r => match p_pop r with
                 | Some l => length (filter (tagged sp) l)
                 | None => 0%nat
                 end) population.

(** ** The parameter dictionaries and [set_parameters] *)

(** A dictionary from names to numbers, in insertion order; a dictionary
    holds a key once. *)
Definition Dict : Type := list (string * R).

Fixpoint dict_get (d : Dict) (key : string) : option R :=
  match d with
  | [] => None
  | (k, v) :: d' => if String.eqb k key then Some v else dict_get d' key
  end.

Definition dict_mem (d : Dict) (key : string) : bool :=
  match dict_get d key with Some _ => true | None => false end.

Fixpoint dict_set (d : Dict) (key : string) (v : R) : Dict :=
  match d with
  | [] => [(key, v)]
  | (k, x) :: d' =>
    if String.eqb k key then (k, v) :: d' else (k, x) :: dict_set d' key v
  end.

(** [d.update(new)] *)
Definition dict_update (d new : Dict) : Dict :=
  fold_left (fun acc kv => dict_set acc (fst kv) (snd kv)) new d.

Definition Herbivore_params : Dict :=
  [("eta", 5 / 100); ("omega", 4 / 10); ("a_half", 40); ("w_half", 10);
   ("phi_age", 2 / 10); ("phi_weight", 1 / 10); ("gamma", 2 / 10);
   ("w_birth", 8); ("sigma_birth", 15 / 10); ("zeta", 35 / 10);
   ("xi", 12 / 10); ("beta", 9 / 10); ("mu", 25 / 100); ("lambda", 1);
   ("F", 10)]%string.

Definition Carnivore_params : Dict :=
  [("eta", 125 / 1000); ("omega", 9 / 10); ("a_half", 60); ("w_half", 4);
   ("phi_age", 4 / 10); ("phi_weight", 4 / 10); ("gamma", 8 / 10);
   ("w_birth", 6); ("sigma_birth", 1); ("zeta", 35 / 10);
   ("xi", 11 / 10); ("beta", 75 / 100); ("mu", 4 / 10); ("lambda", 1);
   ("F", 50); ("DeltaPhiMax", 10)]%string.

Definition Jungle_params : Dict := [("fmax", 800)]%string.
Definition Savannah_params : Dict := [("fmax", 300); ("alpha", 3 / 10)]%string.

(** The keys of [lower] (every bound is 0) and of [upper] (every bound is
    1) in [Animal.set_parameters]. *)
Definition lower : list string :=
  ["eta"; "omega"; "a_half"; "w_half"; "phi_age"; "phi_weight"; "gamma";
   "w_birth"; "sigma_birth"; "zeta"; "beta"; "mu"; "F"; "xi"]%string.

Definition upper : list string :=
  ["eta"; "omega"; "gamma"; "beta"; "mu"]%string.

Definition key_in (key : string) (keys : list string) : bool :=
  existsb (String.eqb key) keys.

(** The [for] loop of [Animal.set_parameters] over the entries of
    [new_params]. *)
Fixpoint check_animal_params (cls_params : Dict) (items : Dict) : result unit :=
  match items with
  | [] => Ok tt
  | (i, v) :: rest =>
    if negb (dict_mem cls_params i) then Err ValueError
    else if (key_in i lower && Rltb v 0)%bool then Err ValueError
    else if (key_in i upper && Rltb 1 v)%bool then Err ValueError
    else check_animal_params cls_params rest
  end.

(** [Animal.set_parameters] on the class dictionary [cls_params]: the
    dictionary after the update, or the exception, raised before anything
    is updated. *)
Definition Animal_set_parameters (cls_params new_params : Dict) : result Dict :=
  let checked :=
    match check_animal_params cls_params new_params with
    | Ok _ => Ok (dict_update cls_params new_params)
    | Err e => Err e
    end in
  match dict_get new_params "DeltaPhiMax" with
  | Some v => if Rleb v 0 then Err ValueError else checked
  | None => checked
  end.

(** The two [for] loops of [Landscape.set_parameters]. *)
Fixpoint check_known (cls_params : Dict) (items : Dict) : result unit :=
  match items with
  | [] => Ok tt
  | (i, _) :: rest =>
    if negb (dict_mem cls_params i) then Err ValueError
    else check_known cls_params rest
  end.

Fixpoint check_nonneg (items : Dict) : result unit :=
  match items with
  | [] => Ok tt
  | (_, v) :: rest => if Rltb v 0 then Err ValueError else check_nonneg rest
  end.

Definition Landscape_set_parameters (cls_params new_params : Dict)
  : result Dict :=
  match check_known cls_params new_params with
  | Err e => Err e
  | Ok _ =>
    match check_nonneg new_params with
    | Err e => Err e
    | Ok _ =>
      let updated := Ok (dict_update cls_params new_params) in
      match dict_get new_params "alpha" with
      | Some v => if Rltb 1 v then Err ValueError else updated
      | None => updated
      end
    end
  end.

(** The entry [(key, v)] passes the checks of [Animal.set_parameters]. *)
Definition animal_param_ok (cls_params : Dict) (kv : string * R) : Prop :=
  dict_mem cls_params (fst kv) = true /\
  (key_in (fst kv) lower = true -> 0 <= snd kv) /\
  (key_in (fst kv) upper = true -> snd kv <= 1) /\
  (fst kv = "DeltaPhiMax"%string -> 0 < snd kv).

Definition land_param_ok (cls_params : Dict) (kv : string * R) : Prop :=
  dict_mem cls_params (fst kv) = true /\ 0 <= snd kv /\
  (fst kv = "alpha"%string -> snd kv <= 1).

(** The dictionary [d'] is [d] updated with [new]. *)
Definition updated_with (d new d' : Dict) : Prop :=
  map fst d' = map fst d /\
  forall key,
    dict_get d' key
    = match dict_get new key with
      | Some v => Some v
      | None => dict_get d key
      end.

(** The reference [l] is to the cell whose location is [l], and the four
    cells [get_neighbours] reads for it lie above, right of, below and left
    of it. *)
Definition adjacent_ok (m : Map) (l : Z * Z) : Prop :=
  exists c n1 n2 n3 n4,
    get_cell m l = Ok c /\ loc c = l /\
    get_neighbours m (neighbour_locations c) = Ok [n1; n2; n3; n4] /\
    loc n1 = (fst l - 1, snd l)%Z /\ loc n2 = (fst l, snd l + 1)%Z /\
    loc n3 = (fst l + 1, snd l)%Z /\ loc n4 = (fst l, snd l - 1)%Z.

(** The cell [c'] holds as many animals of each species as [c], staged
    immigrants included. *)
Definition same_totals (c c' : Cell) : Prop :=
  forall sp, total_num_animals c' sp = total_num_animals c sp.

(** A random source whose uniform draws are all [1 - 2^-53], the largest
    binary64 number below 1, and whose shuffle keeps the order. *)
Definition edge_oracle : Oracle :=
  mkOracle (fun _ => 1 - / 2 ^ 53) (fun _ => 0) (fun _ l => l).

(** * Properties *)

(** ** Boolean comparisons *)

Lemma Rltb_true (x y : R) : Rltb x y = true <-> x < y.
Proof. unfold Rltb; destruct (Rlt_dec x y); split; intros; (assumption || reflexivity || discriminate || contradiction). Qed.

Lemma Rltb_false (x y : R) : Rltb x y = false <-> y <= x.
Proof. unfold Rltb; destruct (Rlt_dec x y); split; intros; try reflexivity; try discriminate; lra. Qed.

Lemma Rleb_true (x y : R) : Rleb x y = true <-> x <= y.
Proof. unfold Rleb; destruct (Rle_dec x y); split; intros; (assumption || reflexivity || discriminate || contradiction). Qed.

Lemma Rleb_false (x y : R) : Rleb x y = false <-> y < x.
Proof. unfold Rleb; destruct (Rle_dec x y); split; intros; try reflexivity; try discriminate; lra. Qed.

Lemma Reqb_true (x y : R) : Reqb x y = true <-> x = y.
Proof. unfold Reqb; destruct (Req_dec_T x y); split; intros; (assumption || reflexivity || discriminate || contradiction). Qed.

Lemma Reqb_false (x y : R) : Reqb x y = false <-> x <> y.
Proof. unfold Reqb; destruct (Req_dec_T x y); split; intros; (assumption || reflexivity || discriminate || contradiction). Qed.

(** Rewrites one boolean comparison whose outcome follows by linear
    arithmetic from the context. *)
Ltac rcmp_true H := first
  [ rewrite (proj2 (Rltb_true _ _)) by H
  | rewrite (proj2 (Rleb_true _ _)) by H
  | rewrite (proj2 (Reqb_true _ _)) by H ].
Ltac rcmp_false H := first
  [ rewrite (proj2 (Rltb_false _ _)) by H
  | rewrite (proj2 (Rleb_false _ _)) by H
  | rewrite (proj2 (Reqb_false _ _)) by H ].

(** Decides every comparison of the goal whose outcome follows from the
    context by linear arithmetic. *)
Ltac rdecide :=
  repeat match goal with
  | |- context [Rltb ?a ?b] =>
    first [ rewrite (proj2 (Rltb_true a b)) by lra
          | rewrite (proj2 (Rltb_false a b)) by lra ]
  | |- context [Rleb ?a ?b] =>
    first [ rewrite (proj2 (Rleb_true a b)) by lra
          | rewrite (proj2 (Rleb_false a b)) by lra ]
  | |- context [Reqb ?a ?b] =>
    first [ rewrite (proj2 (Reqb_true a b)) by lra
          | rewrite (proj2 (Reqb_false a b)) by lra ]
  end.

(** ** Fitness *)

Lemma q_factor_bounds (phi x x_half : R) : 0 < _q_factor phi x x_half < 1.
Proof.
  unfold _q_factor.
  pose proof (exp_pos (phi * (x - x_half))) as He.
  split.
  - apply Rdiv_lt_0_compat; lra.
  - apply Rmult_lt_reg_r with (1 + exp (phi * (x - x_half))); [lra|].
    unfold Rdiv. rewrite Rmult_assoc, Rinv_l by lra. lra.
Qed.

Lemma q_factor_half (phi x : R) : _q_factor phi x x = 1 / 2.
Proof.
  unfold _q_factor. replace (phi * (x - x)) with 0 by ring.
  rewrite exp_0. lra.
Qed.

Lemma q_factor_above_half (phi x x_half : R) :
  phi * (x - x_half) < 0 -> 1 / 2 < _q_factor phi x x_half.
Proof.
  intros H. unfold _q_factor.
  pose proof (exp_pos (phi * (x - x_half))) as He.
  pose proof (exp_increasing _ _ H) as Hi. rewrite exp_0 in Hi.
  apply Rmult_lt_reg_r with (1 + exp (phi * (x - x_half))); [lra|].
  unfold Rdiv at 2. rewrite Rmult_assoc, Rinv_l by lra. lra.
Qed.

Lemma fitness_bounds (cfg : Config) (a : Animal) : 0 < fitness cfg a < 1.
Proof.
  unfold fitness, _fitness.
  pose proof (q_factor_bounds (phi_age (params cfg a)) (IZR (age a)) (a_half (params cfg a))).
  pose proof (q_factor_bounds (- phi_weight (params cfg a)) (weight a) (w_half (params cfg a))).
  nra.
Qed.

(** ** Birth and weight loss *)

(** C7: [probability_birth] is 0 below the weight threshold
    [zeta * (w_birth + sigma_birth)], otherwise
    [gamma * fitness * (num_animals - 1)] capped at 1; for a single animal
    it is 0 whatever its weight and fitness. *)
Theorem probability_birth_spec (cfg : Config) (a : Animal) (n : Z) :
  let p := params cfg a in
  let threshold := zeta p * (w_birth p + sigma_birth p) in
  (weight a < threshold -> probability_birth cfg a n = 0) /\
  (threshold <= weight a ->
   probability_birth cfg a n = Rmin 1 (gamma p * fitness cfg a * (IZR n - 1))) /\
  probability_birth cfg a 1 = 0.
Proof.
  cbv zeta. unfold probability_birth. repeat split.
  - intros H. now rewrite (proj2 (Rltb_true _ _) H).
  - intros H. rewrite (proj2 (Rltb_false _ _) H).
    unfold Rmin.
    destruct (Rle_dec 1 (gamma (params cfg a) * fitness cfg a * (IZR n - 1))) as [Hle|Hgt].
    + destruct (Rle_lt_or_eq_dec _ _ Hle) as [Hlt|Heq].
      * now rewrite (proj2 (Rltb_true _ _) Hlt).
      * rewrite <- Heq. rewrite (proj2 (Rltb_false 1 1)) by lra. reflexivity.
    + rewrite (proj2 (Rltb_false _ _)) by lra. reflexivity.
  - destruct (Rltb (weight a) _); [reflexivity|].
    replace (IZR 1 - 1) with 0 by lra. rewrite Rmult_0_r.
    rewrite (proj2 (Rltb_false 1 0)) by lra. reflexivity.
Qed.

(** C8: the yearly weight loss of an animal of weight [w > 0] stores
    [w - eta * w] and cannot raise; the result is positive for
    [0 <= eta < 1] and exactly 0 for [eta = 1], although the constructor
    refuses a weight of 0. *)
Theorem weight_change_spec (cfg : Config) (a : Animal) :
  0 < weight a ->
  let p := params cfg a in
  weight (weight_change cfg a) = weight a - eta p * weight a /\
  (0 <= eta p < 1 -> 0 < weight (weight_change cfg a)) /\
  (eta p = 1 -> weight (weight_change cfg a) = 0 /\
                new_animal (species a) (weight (weight_change cfg a)) (age a)
                = Err ValueError).
Proof.
  intros Hw p. unfold weight_change. simpl. fold p. repeat split.
  - intros [H0 H1]. nra.
  - rewrite H. lra.
  - unfold new_animal. rewrite H.
    rewrite (proj2 (Rleb_true _ _)) by lra. reflexivity.
Qed.

Lemma weight_change_spec_witness :
  exists a : Animal,
    0 < weight a /\
    weight (weight_change default_config a)
    = weight a - eta (params default_config a) * weight a.
Proof.
  exists (mkAnimal Herbivore 54 0). split.
  - simpl. lra.
  - apply (weight_change_spec default_config (mkAnimal Herbivore 54 0)).
    simpl. lra.
Defined.

(** ** Killing *)

Lemma carn_kills_herb_else (cfg : Config) (o : Oracle) (c h : Animal) (k : nat) :
  fitness cfg c - fitness cfg h <= 0 \/
  DeltaPhiMax (params cfg c) <= fitness cfg c - fitness cfg h ->
  carn_kills_herb cfg o c h k = Ok (true, k).
Proof.
  intros H. unfold carn_kills_herb.
  destruct H as [H|H].
  - rewrite (proj2 (Rltb_false _ _) H). reflexivity.
  - rewrite (proj2 (Rltb_false _ _) H). rewrite andb_false_r. reflexivity.
Qed.

Lemma Carnivore_eating_loop_spared (cfg : Config) (o : Oracle) (c h : Animal)
    (eaten : R) (surv rest : list Animal) (k : nat) :
  fitness cfg c <= fitness cfg h ->
  Carnivore_eating_loop cfg o c eaten surv (h :: rest) k
  = Ok ((c, surv ++ h :: rest), k).
Proof.
  intros H. simpl. rewrite (proj2 (Rleb_true _ _) H). reflexivity.
Qed.

(** C3 (as the code has it): with [gap] the carnivore's fitness minus the
    herbivore's, [carn_kills_herb] kills iff the draw is below
    [gap / DeltaPhiMax] when [0 < gap < DeltaPhiMax], and returns True in
    every other case, also for [gap <= 0]; that a carnivore which is not
    fitter makes no kill is the work of the guard in [Carnivore.eating], which
    leaves the loop before the attempt. *)
Theorem carn_kills_herb_spec (cfg : Config) (o : Oracle) (c h : Animal) (k : nat) :
  let gap := fitness cfg c - fitness cfg h in
  let dpm := DeltaPhiMax (params cfg c) in
  (0 < gap < dpm ->
   carn_kills_herb cfg o c h k = Ok (Rltb (uniform o k) (gap / dpm), S k)) /\
  (dpm <= gap -> carn_kills_herb cfg o c h k = Ok (true, k)) /\
  (gap <= 0 -> carn_kills_herb cfg o c h k = Ok (true, k)) /\
  (gap <= 0 ->
   forall eaten surv rest,
     Carnivore_eating_loop cfg o c eaten surv (h :: rest) k
     = Ok ((c, surv ++ h :: rest), k)).
Proof.
  cbv zeta. repeat split.
  - intros [H0 H1]. unfold carn_kills_herb.
    rewrite (proj2 (Rltb_true _ _) H0), (proj2 (Rltb_true _ _) H1). simpl.
    unfold bind, random, prob_kill.
    destruct (Rltb (uniform o k) _); reflexivity.
  - intros H. apply carn_kills_herb_else. now right.
  - intros H. apply carn_kills_herb_else. now left.
  - intros H eaten surv rest. apply Carnivore_eating_loop_spared. lra.
Qed.

(** C3, the claim as stated fails: a carnivore strictly less fit than the
    herbivore still gets True from [carn_kills_herb], whatever is drawn. *)
Lemma carn_kills_herb_not_fitter :
  let c := mkAnimal Carnivore 4 60 in
  let h := mkAnimal Herbivore 20 40 in
  fitness default_config c - fitness default_config h < 0 /\
  forall (o : Oracle) (k : nat),
    carn_kills_herb default_config o c h k = Ok (true, k).
Proof.
  cbv zeta.
  assert (Hc : fitness default_config (mkAnimal Carnivore 4 60) = 1 / 4).
  { unfold fitness, _fitness. simpl. rewrite !q_factor_half. lra. }
  assert (Hh : 1 / 4 < fitness default_config (mkAnimal Herbivore 20 40)).
  { unfold fitness, _fitness. simpl. rewrite q_factor_half.
    pose proof (q_factor_above_half (- (1 / 10)) 20 10 ltac:(lra)). lra. }
  split; [lra|].
  intros o k. apply carn_kills_herb_else. left. lra.
Qed.

(** ** Sums *)

Lemma fold_left_Rplus (l : list R) (a : R) :
  fold_left Rplus l a = a + fold_right Rplus 0 l.
Proof.
  revert a. induction l as [|x l IH]; intros a; simpl.
  - lra.
  - rewrite IH. lra.
Qed.

Lemma Rsum_cons (x : R) (l : list R) : Rsum (x :: l) = x + Rsum l.
Proof. unfold Rsum. simpl. rewrite !fold_left_Rplus. lra. Qed.

Lemma Rsum_nil : Rsum [] = 0.
Proof. reflexivity. Qed.

Lemma Rsum_map_div (s : R) (l : list R) :
  Rsum (map (fun x => x / s) l) = Rsum l / s.
Proof.
  induction l as [|x l IH]; simpl.
  - rewrite Rsum_nil. unfold Rdiv. ring.
  - rewrite !Rsum_cons, IH. unfold Rdiv. ring.
Qed.

Lemma Rsum_nonneg (l : list R) : Forall (fun x => 0 <= x) l -> 0 <= Rsum l.
Proof.
  induction 1 as [|x l Hx Hl IH].
  - rewrite Rsum_nil. lra.
  - rewrite Rsum_cons. lra.
Qed.

Lemma Rsum_zero (l : list R) :
  Forall (fun x => 0 <= x) l -> Rsum l = 0 -> Forall (fun x => x = 0) l.
Proof.
  induction 1 as [|x l Hx Hl IH]; intros Hs.
  - constructor.
  - rewrite Rsum_cons in Hs. pose proof (Rsum_nonneg l Hl).
    constructor; [lra|]. apply IH. lra.
Qed.

(** ** Destination probabilities *)

Lemma relative_abundance_ok (cfg : Config) (neighbours : list Cell)
    (a : Animal) (sp : Species) :
  F (params cfg a) <> 0 ->
  exists ek, relative_abundance_of_fodder cfg neighbours a sp = Ok ek /\
             length ek = length neighbours.
Proof.
  intros HF. induction neighbours as [|cell rest [ek [IH Hl]]]; simpl.
  - exists []. split; reflexivity.
  - assert (Hd : (INR (total_num_animals cell sp) + 1) * F (params cfg a) <> 0).
    { pose proof (pos_INR (total_num_animals cell sp)).
      apply Rmult_integral_contrapositive_currified; lra. }
    rewrite (proj2 (Reqb_false _ _) Hd), IH.
    eexists. split; [reflexivity|]. simpl. now rewrite Hl.
Qed.

Lemma relative_abundance_zero_F (cfg : Config) (cell : Cell)
    (rest : list Cell) (a : Animal) (sp : Species) :
  F (params cfg a) = 0 ->
  relative_abundance_of_fodder cfg (cell :: rest) a sp = Err ZeroDivisionError.
Proof.
  intros HF. simpl. rewrite HF, Rmult_0_r.
  rewrite (proj2 (Reqb_true 0 0) eq_refl). reflexivity.
Qed.

Lemma propensity_nonneg (cfg : Config) (neighbours : list Cell) (a : Animal)
    (ek : list R) :
  Forall (fun x => 0 <= x) (propensity cfg neighbours a ek).
Proof.
  revert ek. induction neighbours as [|cell ns IH]; intros [|ekj es]; simpl;
    try constructor.
  - destruct (animals_can_live_here cell); simpl.
    + left. apply exp_pos.
    + lra.
  - apply IH.
Qed.

Lemma propensity_length (cfg : Config) (neighbours : list Cell) (a : Animal)
    (ek : list R) :
  length ek = length neighbours ->
  length (propensity cfg neighbours a ek) = length neighbours.
Proof.
  revert ek. induction neighbours as [|cell ns IH]; intros [|ekj es] H;
    simpl in *; try discriminate; try reflexivity.
  f_equal. apply IH. congruence.
Qed.

(** The propensity of a neighbour is 0 exactly when no animal can live there. *)
Lemma propensity_nth (cfg : Config) (neighbours : list Cell) (a : Animal)
    (ek : list R) (i : nat) (cell : Cell) (x : R) :
  nth_error neighbours i = Some cell ->
  nth_error (propensity cfg neighbours a ek) i = Some x ->
  (animals_can_live_here cell = false -> x = 0) /\
  (animals_can_live_here cell = true -> 0 < x).
Proof.
  revert ek i. induction neighbours as [|c ns IH]; intros [|ekj es] [|i] Hc Hx;
    simpl in *; try discriminate.
  - injection Hc as ->. injection Hx as <-.
    destruct (animals_can_live_here cell); simpl; split; intros; try discriminate;
      try reflexivity. apply exp_pos.
  - eapply IH; eassumption.
Qed.

Lemma propensity_sum_pos (cfg : Config) (neighbours : list Cell) (a : Animal)
    (ek : list R) :
  length ek = length neighbours ->
  existsb animals_can_live_here neighbours = true ->
  0 < Rsum (propensity cfg neighbours a ek).
Proof.
  revert ek. induction neighbours as [|cell ns IH]; intros [|ekj es] Hl Hex;
    simpl in *; try discriminate.
  rewrite Rsum_cons.
  pose proof (Rsum_nonneg _ (propensity_nonneg cfg ns a es)) as Hn.
  destruct (animals_can_live_here cell); simpl in *.
  - pose proof (exp_pos (lambda (params cfg a) * ekj)). lra.
  - assert (0 < Rsum (propensity cfg ns a es)) by (apply IH; congruence). lra.
Qed.

Lemma propensity_sum_zero (cfg : Config) (neighbours : list Cell) (a : Animal)
    (ek : list R) :
  existsb animals_can_live_here neighbours = false ->
  Rsum (propensity cfg neighbours a ek) = 0.
Proof.
  revert ek. induction neighbours as [|cell ns IH]; intros [|ekj es] Hex;
    simpl in *; try apply Rsum_nil.
  apply orb_false_iff in Hex as [Hc Hns]. rewrite Hc. simpl.
  rewrite Rsum_cons, IH by assumption. lra.
Qed.

(** C5 (as the code has it): when the species parameter [F] is not 0,
    [prob_move] returns a list that sums to 1 with each entry the
    neighbour's propensity over the sum of the propensities as soon as one
    neighbour is habitable, and [0, 0, 0, 0] when none is. *)
Theorem prob_move_spec (cfg : Config) (neighbours : list Cell) (a : Animal)
    (sp : Species) :
  F (params cfg a) <> 0 ->
  exists ek,
    relative_abundance_of_fodder cfg neighbours a sp = Ok ek /\
    (existsb animals_can_live_here neighbours = true ->
     exists pm,
       prob_move cfg neighbours a sp = Ok pm /\
       Rsum pm = 1 /\
       pm = map (fun x => x / Rsum (propensity cfg neighbours a ek))
                (propensity cfg neighbours a ek)) /\
    (existsb animals_can_live_here neighbours = false ->
     prob_move cfg neighbours a sp = Ok [0; 0; 0; 0]).
Proof.
  intros HF.
  destruct (relative_abundance_ok cfg neighbours a sp HF) as [ek [Hek Hl]].
  exists ek. split; [assumption|]. unfold prob_move. rewrite Hek. split.
  - intros Hex.
    pose proof (propensity_sum_pos cfg neighbours a ek Hl Hex) as Hpos.
    rewrite (proj2 (Reqb_false _ _)) by lra.
    eexists. split; [reflexivity|]. split; [|reflexivity].
    rewrite Rsum_map_div. unfold Rdiv. apply Rinv_r. lra.
  - intros Hex.
    rewrite (proj2 (Reqb_true _ _) (propensity_sum_zero cfg neighbours a ek Hex)).
    reflexivity.
Qed.

Lemma prob_move_spec_witness :
  exists ek,
    relative_abundance_of_fodder default_config
      [new_cell default_config Ocean (0, 1)%Z; new_cell default_config Jungle (1, 2)%Z;
       new_cell default_config Ocean (2, 1)%Z; new_cell default_config Mountain (1, 0)%Z]
      (mkAnimal Herbivore 20 5) Herbivore = Ok ek.
Proof.
  destruct (prob_move_spec default_config
              [new_cell default_config Ocean (0, 1)%Z; new_cell default_config Jungle (1, 2)%Z;
               new_cell default_config Ocean (2, 1)%Z; new_cell default_config Mountain (1, 0)%Z]
              (mkAnimal Herbivore 20 5) Herbivore) as [ek [Hek _]].
  - simpl. lra.
  - exists ek. exact Hek.
Defined.

(** C5, the claim as stated fails: the tests set [F] to 0 (a value
    [set_parameters] accepts), and then [prob_move] raises
    [ZeroDivisionError] although a neighbour is habitable. *)
Lemma prob_move_zero_appetite :
  let p := default_carn_params in
  let cfg := mkConfig default_herb_params
               (mkParams (eta p) (omega p) (a_half p) (w_half p) (phi_age p)
                         (phi_weight p) (gamma p) (w_birth p) (sigma_birth p)
                         (zeta p) (xi p) (beta p) (mu p) (lambda p) 0
                         (DeltaPhiMax p))
               (mkLandParams 800 300 (3/10)) in
  let neighbours := [new_cell cfg Ocean (0, 1)%Z; new_cell cfg Jungle (1, 2)%Z;
                     new_cell cfg Ocean (2, 1)%Z; new_cell cfg Mountain (1, 0)%Z] in
  existsb animals_can_live_here neighbours = true /\
  prob_move cfg neighbours (mkAnimal Carnivore 20 5) Carnivore
  = Err ZeroDivisionError.
Proof.
  cbv zeta. split; [reflexivity|].
  unfold prob_move. rewrite relative_abundance_zero_F; reflexivity.
Qed.

(** ** The monad *)

Lemma bind_Ok {A B} (m : M A) (f : A -> M B) (k k' : nat) (a : A) :
  m k = Ok (a, k') -> bind m f k = f a k'.
Proof. intros H. unfold bind. now rewrite H. Qed.

Lemma bind_inv {A B} (m : M A) (f : A -> M B) (k k'' : nat) (b : B) :
  bind m f k = Ok (b, k'') ->
  exists a k', m k = Ok (a, k') /\ f a k' = Ok (b, k'').
Proof.
  unfold bind. destruct (m k) as [[a k']|e]; [|discriminate].
  intros H. now exists a, k'.
Qed.

Lemma lift_inv {A} (r : result A) (k k' : nat) (a : A) :
  lift r k = Ok (a, k') -> r = Ok a /\ k' = k.
Proof.
  unfold lift. destruct r; [|discriminate]. intros H. injection H as -> ->. auto.
Qed.

Lemma ret_inv {A} (a b : A) (k k' : nat) :
  ret a k = Ok (b, k') -> b = a /\ k' = k.
Proof. unfold ret. intros H. injection H as -> ->. auto. Qed.

(** Peels the binds of a hypothesis [c k = Ok (r, k')]. *)
Ltac minv H :=
  repeat match type of H with
  | bind _ _ _ = Ok _ =>
    let a := fresh "a" in let k := fresh "k" in
    let H1 := fresh "Hm" in
    apply bind_inv in H; destruct H as [a [k [H1 H]]]
  | lift _ _ = Ok _ =>
    let E := fresh "E" in
    apply lift_inv in H; destruct H as [H E]; try subst
  | ret _ _ = Ok _ =>
    let E := fresh "E" in
    apply ret_inv in H; destruct H as [H E]; try subst
  end.

(** Runs the first bind of the goal with the equation [H] of its head. *)
Ltac mstep H := rewrite (bind_Ok _ _ _ _ _ H).

(** ** Sorting by fitness *)

Lemma sort_insert_perm (cfg : Config) (d : bool) (x : Animal) (l : list Animal) :
  Permutation (sort_insert cfg d x l) (x :: l).
Proof.
  induction l as [|y l IH]; simpl; [reflexivity|].
  destruct (if d then _ else _).
  - rewrite IH. apply perm_swap.
  - reflexivity.
Qed.

Lemma sort_fitness_perm (cfg : Config) (d : bool) (l : list Animal) :
  Permutation (sort_fitness cfg d l) l.
Proof.
  induction l as [|x l IH]; simpl; [reflexivity|].
  fold (sort_fitness cfg d l). rewrite sort_insert_perm. now constructor.
Qed.

Lemma sort_fitness_length (cfg : Config) (d : bool) (l : list Animal) :
  length (sort_fitness cfg d l) = length l.
Proof. apply Permutation_length, sort_fitness_perm. Qed.

Lemma sort_insert_sorted (cfg : Config) (d : bool) (x : Animal) (l : list Animal) :
  fitness_sorted cfg d l -> fitness_sorted cfg d (sort_insert cfg d x l).
Proof.
  induction l as [|y l IH]; simpl; intros Hs.
  - split; [constructor | exact I].
  - destruct Hs as [Hy Hl].
    destruct (if d then Rltb (fitness cfg x) (fitness cfg y)
              else Rltb (fitness cfg y) (fitness cfg x)) eqn:E.
    + simpl. split; [|auto].
      apply (Permutation_Forall (Permutation_sym (sort_insert_perm cfg d x l))).
      constructor; [|assumption].
      unfold fitness_before. destruct d; apply Rltb_true in E; lra.
    + simpl. split; [|split; assumption].
      assert (Hxy : fitness_before cfg d x y).
      { unfold fitness_before. destruct d; apply Rltb_false in E; lra. }
      constructor; [assumption|].
      eapply Forall_impl; [|exact Hy].
      intros z Hz. unfold fitness_before in *. destruct d; lra.
Qed.

Lemma sort_fitness_sorted (cfg : Config) (d : bool) (l : list Animal) :
  fitness_sorted cfg d (sort_fitness cfg d l).
Proof.
  induction l as [|x l IH]; simpl; [exact I|].
  apply sort_insert_sorted. exact IH.
Qed.

Lemma fitness_sorted_app (cfg : Config) (d : bool) (pre : list Animal)
    (c : Animal) (rest : list Animal) :
  fitness_sorted cfg d (pre ++ c :: rest) ->
  Forall (fitness_before cfg d c) rest.
Proof.
  induction pre as [|x pre IH]; simpl; intros [H1 H2]; auto.
Qed.

(** ** Carnivore feeding *)

Lemma carn_eating_loop_stalled (cfg : Config) (o : Oracle) (carns : list Animal)
    (h : Animal) (hs : list Animal) (k : nat) :
  Forall (fun c => fitness cfg c <= fitness cfg h) carns ->
  carn_eating_loop cfg o carns (h :: hs) k = Ok ((carns, h :: hs), k).
Proof.
  induction 1 as [|c rest Hc Hrest IH]; simpl; [reflexivity|].
  destruct (Rltb (fitness cfg c) (fitness cfg h)); [reflexivity|].
  unfold Carnivore_eating.
  erewrite bind_Ok by (apply Carnivore_eating_loop_spared; exact Hc).
  simpl. erewrite bind_Ok by exact IH. reflexivity.
Qed.

(** C4: in the loop of [carn_eating] over the carnivores in descending
    fitness order, once the weakest remaining herbivore [h] is at least as
    fit as the carnivore [c] the loop has reached, the rest of the phase
    changes nothing: the remaining carnivores keep their weights, the
    herbivores all survive and no random number is drawn. *)
Theorem carn_eating_early_exit (cfg : Config) (o : Oracle) (cell : Cell)
    (pre : list Animal) (c : Animal) (rest : list Animal)
    (h : Animal) (hs : list Animal) (k : nat) :
  sort_fitness cfg true (carn cell) = pre ++ c :: rest ->
  fitness cfg c <= fitness cfg h ->
  carn_eating_loop cfg o (c :: rest) (h :: hs) k
  = Ok ((c :: rest, h :: hs), k).
Proof.
  intros Hsort Hfit. apply carn_eating_loop_stalled.
  pose proof (sort_fitness_sorted cfg true (carn cell)) as Hs.
  rewrite Hsort in Hs. apply fitness_sorted_app in Hs.
  constructor; [assumption|].
  eapply Forall_impl; [|exact Hs].
  intros c' Hc'. unfold fitness_before in Hc'. lra.
Qed.

Lemma carn_eating_early_exit_witness :
  let c1 := mkAnimal Carnivore 4 60 in
  let c2 := mkAnimal Carnivore 4 60 in
  let h := mkAnimal Herbivore 10 40 in
  carn_eating_loop default_config zero_oracle [c1; c2] [h] 0%nat
  = Ok (([c1; c2], [h]), 0%nat).
Proof.
  cbv zeta.
  apply (carn_eating_early_exit default_config zero_oracle
           (mkCell Desert (1, 1)%Z [] [mkAnimal Carnivore 4 60; mkAnimal Carnivore 4 60]
                   [] [] 0) []).
  - simpl. rewrite (proj2 (Rltb_false _ _)) by lra. reflexivity.
  - unfold fitness, _fitness. simpl. rewrite !q_factor_half. lra.
Defined.

(** ** Lists and maps of cells *)

Lemma py_index_lt (len : nat) (i : Z) (n : nat) :
  py_index len i = Some n -> (n < len)%nat.
Proof.
  unfold py_index.
  destruct (0 <=? i)%Z eqn:E0.
  - destruct (i <? Z.of_nat len)%Z eqn:E1; [|discriminate].
    intros H. injection H as <-. lia.
  - destruct (- Z.of_nat len <=? i)%Z eqn:E1; [|discriminate].
    intros H. injection H as <-. lia.
Qed.

Lemma py_index_nonneg (len : nat) (n : nat) :
  (n < len)%nat -> py_index len (Z.of_nat n) = Some n.
Proof.
  intros H. unfold py_index.
  replace (0 <=? Z.of_nat n)%Z with true by (symmetry; apply Z.leb_le; lia).
  replace (Z.of_nat n <? Z.of_nat len)%Z with true by (symmetry; apply Z.ltb_lt; lia).
  now rewrite Nat2Z.id.
Qed.

Lemma list_alter_length {A} (f : A -> A) (k : nat) (l : list A) :
  length (list_alter f k l) = length l.
Proof.
  revert k. induction l as [|x l IH]; intros [|k]; simpl; auto.
Qed.

Lemma nth_error_list_alter {A} (f : A -> A) (k k' : nat) (l : list A) :
  nth_error (list_alter f k l) k'
  = if Nat.eqb k k' then option_map f (nth_error l k) else nth_error l k'.
Proof.
  revert k k'. induction l as [|x l IH]; intros [|k] [|k']; simpl; auto.
  - destruct (Nat.eqb k k'); reflexivity.
Qed.

Lemma list_alter_id {A} (f : A -> A) (k : nat) (l : list A) :
  (forall x, nth_error l k = Some x -> f x = x) -> list_alter f k l = l.
Proof.
  revert k. induction l as [|x l IH]; intros [|k] H; simpl; auto.
  - f_equal. now apply H.
  - f_equal. apply IH. exact H.
Qed.

Lemma Forall2_refl {A} (R : A -> A -> Prop) (l : list A) :
  (forall x, R x x) -> Forall2 R l l.
Proof. intros H. induction l; constructor; auto. Qed.

Lemma list_alter_Forall2 {A} (R : A -> A -> Prop) (f : A -> A) (k : nat)
    (l : list A) :
  (forall x, R x x) ->
  (forall x, nth_error l k = Some x -> R x (f x)) ->
  Forall2 R l (list_alter f k l).
Proof.
  intros Hrefl. revert k. induction l as [|x l IH]; intros [|k] H; simpl.
  - constructor.
  - constructor.
  - constructor; [now apply H | now apply Forall2_refl].
  - constructor; [apply Hrefl | apply IH; exact H].
Qed.

Lemma Forall2_impl {A B} (R R' : A -> B -> Prop) (l : list A) (l' : list B) :
  (forall x y, R x y -> R' x y) -> Forall2 R l l' -> Forall2 R' l l'.
Proof. intros H. induction 1; constructor; auto. Qed.

Lemma Forall2_trans {A} (R1 R2 R3 : A -> A -> Prop) (l1 l2 l3 : list A) :
  (forall x y z, R1 x y -> R2 y z -> R3 x z) ->
  Forall2 R1 l1 l2 -> Forall2 R2 l2 l3 -> Forall2 R3 l1 l3.
Proof.
  intros H H12. revert l3. induction H12; intros l3 H23; inversion H23; subst;
    constructor; eauto.
Qed.

Lemma Forall2_Forall {A} (R : A -> A -> Prop) (P Q : A -> Prop) (l l' : list A) :
  (forall x y, R x y -> P x -> Q y) ->
  Forall2 R l l' -> Forall P l -> Forall Q l'.
Proof.
  intros H. induction 1; intros HP; inversion HP; subst; constructor; eauto.
Qed.

Lemma Forall2_nth_error {A} (R : A -> A -> Prop) (l l' : list A) (k : nat) (y : A) :
  Forall2 R l l' -> nth_error l' k = Some y ->
  exists x, nth_error l k = Some x /\ R x y.
Proof.
  intros H. revert k. induction H; intros [|k] Hk; simpl in *; try discriminate.
  - injection Hk as <-. eauto.
  - eauto.
Qed.

Lemma Forall2_nth_error_l {A} (R : A -> A -> Prop) (l l' : list A) (k : nat) (x : A) :
  Forall2 R l l' -> nth_error l k = Some x ->
  exists y, nth_error l' k = Some y /\ R x y.
Proof.
  intros H. revert k. induction H; intros [|k] Hk; simpl in *; try discriminate.
  - injection Hk as <-. eauto.
  - eauto.
Qed.

Lemma rel2_refl (R : Cell -> Cell -> Prop) (m : Map) :
  (forall c, R c c) -> rel2 R m m.
Proof. intros H. apply Forall2_refl. intros row. now apply Forall2_refl. Qed.

Lemma rel2_impl (R R' : Cell -> Cell -> Prop) (m m' : Map) :
  (forall c c', R c c' -> R' c c') -> rel2 R m m' -> rel2 R' m m'.
Proof.
  intros H. apply Forall2_impl. intros r r'. now apply Forall2_impl.
Qed.

Lemma rel2_trans (R1 R2 R3 : Cell -> Cell -> Prop) (m1 m2 m3 : Map) :
  (forall x y z, R1 x y -> R2 y z -> R3 x z) ->
  rel2 R1 m1 m2 -> rel2 R2 m2 m3 -> rel2 R3 m1 m3.
Proof.
  intros H. apply Forall2_trans. intros r1 r2 r3. now apply Forall2_trans.
Qed.

Lemma rel2_all_cells (R : Cell -> Cell -> Prop) (P Q : Cell -> Prop) (m m' : Map) :
  (forall c c', R c c' -> P c -> Q c') ->
  rel2 R m m' -> all_cells P m -> all_cells Q m'.
Proof.
  intros H. apply Forall2_Forall. intros r r'. now apply Forall2_Forall.
Qed.

Lemma rel2_cell_at (R : Cell -> Cell -> Prop) (m m' : Map) (i j : nat) (c' : Cell) :
  rel2 R m m' -> cell_at m' i j = Some c' ->
  exists c, cell_at m i j = Some c /\ R c c'.
Proof.
  intros H Hc. unfold cell_at in *.
  destruct (nth_error m' i) as [row'|] eqn:Er; [|discriminate].
  destruct (Forall2_nth_error _ _ _ _ _ H Er) as [row [Hrow Hrr]].
  rewrite Hrow. eapply Forall2_nth_error; eassumption.
Qed.

Lemma rel2_cell_at_l (R : Cell -> Cell -> Prop) (m m' : Map) (i j : nat) (c : Cell) :
  rel2 R m m' -> cell_at m i j = Some c ->
  exists c', cell_at m' i j = Some c' /\ R c c'.
Proof.
  intros H Hc. unfold cell_at in *.
  destruct (nth_error m i) as [row|] eqn:Er; [|discriminate].
  destruct (Forall2_nth_error_l _ _ _ _ _ H Er) as [row' [Hrow Hrr]].
  rewrite Hrow. eapply Forall2_nth_error_l; eassumption.
Qed.

Lemma all_cells_cell_at (P : Cell -> Prop) (m : Map) :
  all_cells P m <-> (forall i j c, cell_at m i j = Some c -> P c).
Proof.
  unfold all_cells, cell_at. split.
  - intros H i j c Hc.
    destruct (nth_error m i) as [row|] eqn:Er; [|discriminate].
    apply nth_error_In in Er, Hc.
    rewrite Forall_forall in H. specialize (H _ Er).
    rewrite Forall_forall in H. now apply H.
  - intros H. apply Forall_forall. intros row Hrow.
    apply Forall_forall. intros c Hc.
    apply In_nth_error in Hrow as [i Hi]. apply In_nth_error in Hc as [j Hj].
    apply (H i j). now rewrite Hi.
Qed.

Lemma rel2_map (f : Cell -> Cell) (m : Map) :
  rel2 (fun c c' => c' = f c) m (map (map f) m).
Proof.
  induction m as [|row m IH]; constructor; [|exact IH].
  induction row; constructor; auto.
Qed.

Lemma mapM_Forall2 {A B} (f : A -> M B) (l : list A) (l' : list B) (k k' : nat) :
  mapM f l k = Ok (l', k') ->
  Forall2 (fun x y => exists k1 k2, f x k1 = Ok (y, k2)) l l'.
Proof.
  revert l' k k'. induction l as [|x l IH]; intros l' k k' H; simpl in H.
  - minv H. constructor.
  - minv H. constructor; eauto.
Qed.

Lemma rel2_mapM (f : Cell -> M Cell) (m m' : Map) (k k' : nat) :
  mapM (mapM f) m k = Ok (m', k') ->
  rel2 (fun c c' => exists k1 k2, f c k1 = Ok (c', k2)) m m'.
Proof.
  intros H. apply mapM_Forall2 in H.
  eapply Forall2_impl; [|exact H].
  intros row row' [k1 [k2 Hr]]. eapply mapM_Forall2; eassumption.
Qed.

Lemma Forall2_length' {A B} (R : A -> B -> Prop) (l : list A) (l' : list B) :
  Forall2 R l l' -> length l = length l'.
Proof. induction 1; simpl; auto. Qed.

Lemma py_get_inv {A} (l : list A) (i : Z) (x : A) :
  py_get l i = Ok x <->
  exists n, py_index (length l) i = Some n /\ nth_error l n = Some x.
Proof.
  unfold py_get. split.
  - destruct (py_index (length l) i) as [n|]; [|discriminate].
    destruct (nth_error l n) as [y|] eqn:E; [|discriminate].
    intros H. injection H as ->. eauto.
  - intros [n [-> ->]]. reflexivity.
Qed.

Lemma get_cell_resolve (m : Map) (l : Z * Z) (c : Cell) :
  get_cell m l = Ok c <->
  exists i j, resolve m l = Some (i, j) /\ cell_at m i j = Some c.
Proof.
  unfold get_cell, resolve, cell_at. split.
  - destruct (py_get m (fst l)) as [row|] eqn:Er; [|discriminate].
    apply py_get_inv in Er as [i [Hi Hrow]].
    intros Hc. apply py_get_inv in Hc as [j [Hj Hcell]].
    exists i, j. now rewrite Hi, Hrow, Hj.
  - intros [i [j [Hres Hc]]].
    destruct (py_index (length m) (fst l)) as [i'|] eqn:Ei; [|discriminate].
    destruct (nth_error m i') as [row|] eqn:Er; [|discriminate].
    destruct (py_index (length row) (snd l)) as [j'|] eqn:Ej; [|discriminate].
    injection Hres as -> ->. rewrite Er in Hc.
    rewrite (proj2 (py_get_inv m (fst l) row)) by eauto.
    apply py_get_inv. eauto.
Qed.

Lemma resolve_cell_at (m : Map) (l : Z * Z) (i j : nat) :
  resolve m l = Some (i, j) -> exists c, cell_at m i j = Some c.
Proof.
  unfold resolve, cell_at.
  destruct (py_index (length m) (fst l)) as [i'|] eqn:Ei; [|discriminate].
  destruct (nth_error m i') as [row|] eqn:Er; [|discriminate].
  destruct (py_index (length row) (snd l)) as [j'|] eqn:Ej; [|discriminate].
  intros H. injection H as <- <-. rewrite Er.
  apply py_index_lt in Ej.
  destruct (nth_error row j') eqn:E; eauto.
  apply nth_error_None in E. lia.
Qed.

Lemma resolve_nonneg (m : Map) (i j : nat) (c : Cell) :
  cell_at m i j = Some c -> resolve m (Z.of_nat i, Z.of_nat j) = Some (i, j).
Proof.
  unfold resolve, cell_at. simpl.
  destruct (nth_error m i) as [row|] eqn:Er; [|discriminate].
  intros Hc.
  rewrite py_index_nonneg by (apply nth_error_Some; congruence).
  rewrite Er.
  rewrite py_index_nonneg by (apply nth_error_Some; congruence).
  reflexivity.
Qed.

Lemma get_cell_nonneg (m : Map) (i j : nat) (c : Cell) :
  cell_at m i j = Some c -> get_cell m (Z.of_nat i, Z.of_nat j) = Ok c.
Proof.
  intros H. apply get_cell_resolve. exists i, j. split; [|exact H].
  eapply resolve_nonneg; eassumption.
Qed.

Lemma alter_cell_resolved (f : Cell -> Cell) (m : Map) (l : Z * Z) (i j : nat) :
  resolve m l = Some (i, j) -> alter_cell f l m = alter_at f i j m.
Proof.
  unfold resolve, alter_cell, alter_at.
  destruct (py_index (length m) (fst l)) as [i'|] eqn:Ei; [|discriminate].
  destruct (nth_error m i') as [row|] eqn:Er; [|discriminate].
  destruct (py_index (length row) (snd l)) as [j'|] eqn:Ej; [|discriminate].
  intros H. injection H as <- <-.
  clear Ei. revert i' Er. induction m as [|r m IH]; intros [|i'] Er; simpl in *;
    try discriminate.
  - injection Er as ->. now rewrite Ej.
  - f_equal. now apply IH.
Qed.

Lemma alter_cell_unresolved (f : Cell -> Cell) (m : Map) (l : Z * Z) :
  resolve m l = None -> alter_cell f l m = m.
Proof.
  unfold resolve, alter_cell.
  destruct (py_index (length m) (fst l)) as [i|] eqn:Ei; [|reflexivity].
  intros H. apply list_alter_id. intros row Hrow. rewrite Hrow in H.
  destruct (py_index (length row) (snd l)); [discriminate|reflexivity].
Qed.

Lemma cell_at_alter_at (f : Cell -> Cell) (m : Map) (i j i' j' : nat) :
  cell_at (alter_at f i j m) i' j'
  = if (Nat.eqb i i' && Nat.eqb j j')%bool then option_map f (cell_at m i j)
    else cell_at m i' j'.
Proof.
  unfold cell_at, alter_at. rewrite nth_error_list_alter.
  destruct (Nat.eqb i i') eqn:Ei; simpl; [|reflexivity].
  apply Nat.eqb_eq in Ei. subst i'.
  destruct (nth_error m i) as [row|]; simpl.
  - apply nth_error_list_alter.
  - now destruct (Nat.eqb j j').
Qed.

Lemma rel2_alter_cell (f : Cell -> Cell) (m : Map) (l : Z * Z) :
  rel2 (fun c c' => c' = c \/ (c' = f c /\ get_cell m l = Ok c))
       m (alter_cell f l m).
Proof.
  destruct (resolve m l) as [[i j]|] eqn:Er.
  - rewrite (alter_cell_resolved f m l i j Er). unfold alter_at.
    apply list_alter_Forall2.
    + intros row. apply Forall2_refl. auto.
    + intros row Hrow. apply list_alter_Forall2; [auto|].
      intros c Hc. right. split; [reflexivity|].
      apply get_cell_resolve. exists i, j. split; [assumption|].
      unfold cell_at. now rewrite Hrow.
  - rewrite alter_cell_unresolved by assumption. apply rel2_refl. auto.
Qed.

Lemma rel2_resolve (R : Cell -> Cell -> Prop) (m m' : Map) (l : Z * Z) :
  rel2 R m m' -> resolve m' l = resolve m l.
Proof.
  intros H. unfold resolve.
  rewrite <- (Forall2_length' _ _ _ H).
  destruct (py_index (length m) (fst l)) as [i|]; [|reflexivity].
  destruct (nth_error m i) as [row|] eqn:Er.
  - destruct (Forall2_nth_error_l _ _ _ _ _ H Er) as [row' [-> Hrr]].
    now rewrite <- (Forall2_length' _ _ _ Hrr).
  - destruct (nth_error m' i) as [row'|] eqn:Er'; [|reflexivity].
    destruct (Forall2_nth_error _ _ _ _ _ H Er') as [row [Hrow _]]. congruence.
Qed.

Lemma rel2_get_cell (R : Cell -> Cell -> Prop) (m m' : Map) (l : Z * Z) (c' : Cell) :
  rel2 R m m' -> get_cell m' l = Ok c' ->
  exists c, get_cell m l = Ok c /\ R c c'.
Proof.
  intros H Hc. apply get_cell_resolve in Hc as [i [j [Hres Hc]]].
  rewrite (rel2_resolve R m m' l H) in Hres.
  destruct (rel2_cell_at R m m' i j c' H Hc) as [c [Hcm HR]].
  exists c. split; [|assumption]. apply get_cell_resolve. eauto.
Qed.

Lemma rel2_get_cell_l (R : Cell -> Cell -> Prop) (m m' : Map) (l : Z * Z) (c : Cell) :
  rel2 R m m' -> get_cell m l = Ok c ->
  exists c', get_cell m' l = Ok c' /\ R c c'.
Proof.
  intros H Hc. apply get_cell_resolve in Hc as [i [j [Hres Hc]]].
  rewrite <- (rel2_resolve R m m' l H) in Hres.
  destruct (rel2_cell_at_l R m m' i j c H Hc) as [c' [Hcm HR]].
  exists c'. split; [|assumption]. apply get_cell_resolve. eauto.
Qed.

Lemma get_cell_alter_cell (f : Cell -> Cell) (m : Map) (l : Z * Z) (c : Cell) :
  get_cell m l = Ok c -> get_cell (alter_cell f l m) l = Ok (f c).
Proof.
  intros Hc. apply get_cell_resolve in Hc as [i [j [Hres Hc]]].
  apply get_cell_resolve. exists i, j. split.
  - now rewrite (rel2_resolve _ _ _ l (rel2_alter_cell f m l)).
  - rewrite (alter_cell_resolved f m l i j Hres), cell_at_alter_at.
    rewrite !Nat.eqb_refl. simpl. now rewrite Hc.
Qed.

Lemma get_neighbours_Forall2 (m : Map) (locs : list (Z * Z)) (cells : list Cell) :
  get_neighbours m locs = Ok cells <->
  Forall2 (fun l c => get_cell m l = Ok c) locs cells.
Proof.
  revert cells. induction locs as [|l locs IH]; intros cells; simpl.
  - split.
    + intros H. injection H as <-. constructor.
    + intros H. inversion H. reflexivity.
  - split.
    + destruct (get_cell m l) as [c|] eqn:Ec; [|discriminate].
      destruct (get_neighbours m locs) as [cs|] eqn:En; [|discriminate].
      intros H. injection H as <-. constructor; [assumption|]. now apply IH.
    + intros H. inversion H as [|? c ? cs Hc Hcs]; subst.
      rewrite Hc. apply IH in Hcs. now rewrite Hcs.
Qed.

(** ** Sampling the destination *)

Lemma relative_abundance_length (cfg : Config) (neighbours : list Cell)
    (a : Animal) (sp : Species) (ek : list R) :
  relative_abundance_of_fodder cfg neighbours a sp = Ok ek ->
  length ek = length neighbours.
Proof.
  revert ek. induction neighbours as [|cell rest IH]; intros ek; simpl.
  - intros H. now injection H as <-.
  - destruct (Reqb _ 0); [discriminate|].
    destruct (relative_abundance_of_fodder cfg rest a sp) as [l|]; [|discriminate].
    intros H. injection H as <-. simpl. f_equal. now apply IH.
Qed.

Lemma prob_move_inv (cfg : Config) (neighbours : list Cell) (a : Animal)
    (sp : Species) (pm : list R) :
  prob_move cfg neighbours a sp = Ok pm ->
  Rsum pm <> 0 ->
  exists ek,
    relative_abundance_of_fodder cfg neighbours a sp = Ok ek /\
    length ek = length neighbours /\
    0 < Rsum (propensity cfg neighbours a ek) /\
    pm = map (fun x => x / Rsum (propensity cfg neighbours a ek))
             (propensity cfg neighbours a ek) /\
    Rsum pm = 1.
Proof.
  unfold prob_move.
  destruct (relative_abundance_of_fodder cfg neighbours a sp) as [ek|] eqn:Eek;
    [|discriminate].
  destruct (Reqb (Rsum (propensity cfg neighbours a ek)) 0) eqn:Es.
  - intros H Hne. injection H as <-. exfalso. apply Hne.
    rewrite !Rsum_cons, Rsum_nil. lra.
  - intros H _. injection H as <-. apply Reqb_false in Es.
    pose proof (Rsum_nonneg _ (propensity_nonneg cfg neighbours a ek)) as Hn.
    exists ek. repeat split.
    + eapply relative_abundance_length; eassumption.
    + lra.
    + rewrite Rsum_map_div. unfold Rdiv. apply Rinv_r. assumption.
Qed.

Lemma moves_loop_positive (p0 p1 p2 p3 rnd : R) (pos : nat) :
  0 <= p0 -> 0 <= p1 -> 0 <= p2 -> 0 <= p3 ->
  p0 + p1 + p2 + p3 = 1 ->
  0 <= rnd < 1 ->
  moves_loop 3 [p0; p1; p2; p3] rnd 0 p0 = Ok pos ->
  exists p, nth_error [p0; p1; p2; p3] pos = Some p /\ 0 < p.
Proof.
  intros H0 H1 H2 H3 Hs Hr. simpl.
  destruct (Rleb p0 rnd) eqn:E0.
  - apply Rleb_true in E0.
    destruct (Rleb (p0 + p1) rnd) eqn:E1.
    + apply Rleb_true in E1.
      destruct (Rleb (p0 + p1 + p2) rnd) eqn:E2.
      * apply Rleb_true in E2. intros H. injection H as <-.
        exists p3. split; [reflexivity|lra].
      * apply Rleb_false in E2. intros H. injection H as <-.
        exists p2. split; [reflexivity|lra].
    + apply Rleb_false in E1. intros H. injection H as <-.
      exists p1. split; [reflexivity|lra].
  - apply Rleb_false in E0. intros H. injection H as <-.
    exists p0. split; [reflexivity|lra].
Qed.

Lemma animal_moves_to_inv (o : Oracle) (pm : list R) (k k' : nat) (pos : nat) :
  animal_moves_to o pm k = Ok (pos, k') ->
  k' = S k /\
  exists p0, nth_error pm 0 = Some p0 /\
             moves_loop 3 pm (uniform o k) 0 p0 = Ok pos.
Proof.
  unfold animal_moves_to.
  destruct (negb (Reqb (py_round (Rsum pm) 15) 1)); [discriminate|].
  intros H. apply bind_inv in H as [rnd [k1 [Hr H]]].
  unfold random in Hr. injection Hr as <- <-.
  destruct (nth_error pm 0) as [p0|]; [|discriminate].
  apply lift_inv in H as [H ->]. eauto.
Qed.

Lemma nth_error_map_div (s : R) (l : list R) (i : nat) (p : R) :
  nth_error (map (fun x => x / s) l) i = Some p ->
  exists x, nth_error l i = Some x /\ p = x / s.
Proof.
  rewrite nth_error_map. destruct (nth_error l i) as [x|]; [|discriminate].
  simpl. intros H. injection H as <-. eauto.
Qed.

(** The neighbour [animal_moves_to] picks from the list [prob_move] returned
    has a positive entry in that list, and is a cell animals can live in. *)
Lemma sampled_neighbour_habitable (cfg : Config) (o : Oracle)
    (neighbours : list Cell) (a : Animal) (sp : Species) (pm : list R)
    (k k' : nat) (pos : nat) :
  0 <= uniform o k < 1 ->
  length neighbours = 4%nat ->
  prob_move cfg neighbours a sp = Ok pm ->
  Rsum pm <> 0 ->
  animal_moves_to o pm k = Ok (pos, k') ->
  exists p cell,
    nth_error pm pos = Some p /\ 0 < p /\
    nth_error neighbours pos = Some cell /\
    animals_can_live_here cell = true.
Proof.
  intros Hr Hlen Hpm Hne Hmv.
  destruct (prob_move_inv cfg neighbours a sp pm Hpm Hne)
    as [ek [Hek [Hl [Hpos [Hmap Hsum]]]]].
  apply animal_moves_to_inv in Hmv as [_ [q0 [Hq0 Hloop]]].
  pose proof (propensity_nonneg cfg neighbours a ek) as Hnn.
  pose proof (propensity_length cfg neighbours a ek Hl) as Hpl.
  set (e := propensity cfg neighbours a ek) in *.
  set (s := Rsum e) in *.
  assert (Hpmnn : Forall (fun x => 0 <= x) pm).
  { rewrite Hmap. apply Forall_map. eapply Forall_impl; [|exact Hnn].
    intros x Hx. simpl. apply Rmult_le_pos; [assumption|].
    left. now apply Rinv_0_lt_compat. }
  assert (Hpml : length pm = 4%nat) by (rewrite Hmap, length_map; congruence).
  destruct pm as [|p0 [|p1 [|p2 [|p3 [|]]]]]; try discriminate.
  simpl in Hq0. injection Hq0 as <-.
  inversion Hpmnn as [|? ? H0 Hpm1]; subst.
  inversion Hpm1 as [|? ? H1 Hpm2]; subst.
  inversion Hpm2 as [|? ? H2 Hpm3]; subst.
  inversion Hpm3 as [|? ? H3 _]; subst.
  rewrite !Rsum_cons, Rsum_nil in Hsum.
  destruct (moves_loop_positive p0 p1 p2 p3 (uniform o k) pos H0 H1 H2 H3
              ltac:(lra) Hr Hloop) as [p [Hp Hppos]].
  assert (Hx : exists x, nth_error e pos = Some x /\ p = x / s).
  { apply nth_error_map_div. rewrite <- Hmap. exact Hp. }
  destruct Hx as [x [Hx Hpx]].
  assert (Hc : exists cell, nth_error neighbours pos = Some cell).
  { destruct (nth_error neighbours pos) eqn:E; eauto.
    apply nth_error_None in E.
    assert (pos < length e)%nat by (apply nth_error_Some; congruence). lia. }
  destruct Hc as [cell Hc].
  exists p, cell. repeat split; try assumption.
  destruct (propensity_nth cfg neighbours a ek pos cell x Hc Hx) as [Hz _].
  destruct (animals_can_live_here cell); [reflexivity|].
  rewrite (Hz eq_refl) in Hpx. unfold Rdiv in Hpx. rewrite Rmult_0_l in Hpx. lra.
Qed.

(** ** The phases inside one cell *)

Lemma inert_cell_ok (c c' : Cell) : inert c c' -> cell_ok c -> cell_ok c'.
Proof.
  intros [[Hk Hl] [Hhi [Hci [Hh Hc]]]] Hok Hlive.
  assert (Hlive0 : animals_can_live_here c = false).
  { unfold animals_can_live_here in *. now rewrite <- Hk. }
  destruct (Hok Hlive0) as [E1 [E2 [E3 E4]]].
  repeat split; auto; congruence.
Qed.

Lemma inert_no_staged (c c' : Cell) : inert c c' -> no_staged c -> no_staged c'.
Proof.
  intros [_ [Hhi [Hci _]]] [H1 H2]. split; congruence.
Qed.

Lemma inert_refl (c : Cell) : inert c c.
Proof. repeat split; auto. Qed.

Lemma food_growth_inert (cfg : Config) (c : Cell) : inert c (food_growth cfg c).
Proof.
  unfold food_growth. destruct (kind c) eqn:E; repeat split; simpl; auto.
Qed.

Lemma food_growth_lists (cfg : Config) (c : Cell) :
  herb (food_growth cfg c) = herb c /\ carn (food_growth cfg c) = carn c.
Proof. unfold food_growth. destruct (kind c); split; reflexivity. Qed.

Lemma list_set_length {A} (l : list A) (k : nat) (x : A) :
  length (list_set l k x) = length l.
Proof. revert k. induction l; intros [|k]; simpl; auto. Qed.

Lemma herb_eating_loop_length (cfg : Config) (n k : nat) (hs hs' : list Animal)
    (food food' : R) :
  herb_eating_loop cfg n k hs food = Ok (hs', food') -> length hs' = length hs.
Proof.
  revert k hs food. induction n as [|n IH]; intros k hs food; simpl.
  - intros H. now injection H as <- _.
  - destruct (Rltb 0 food).
    + destruct (nth_error hs k) as [h|]; [|discriminate].
      destruct (Herbivore_eating cfg h food) as [[h' eaten]|]; [|discriminate].
      intros H. apply IH in H. now rewrite list_set_length in H.
    + intros H. now injection H as <- _.
Qed.

Lemma herb_eating_spec (cfg : Config) (c c' : Cell) :
  herb_eating cfg c = Ok c' ->
  inert c c' /\
  length (herb c') = length (herb c) /\ length (carn c') = length (carn c).
Proof.
  unfold herb_eating.
  destruct (herb_eating_loop cfg _ 0 _ _) as [[hs food]|] eqn:E; [|discriminate].
  intros H. injection H as <-. apply herb_eating_loop_length in E.
  simpl in *. rewrite sort_fitness_length in E.
  assert (Hc : length (sort_fitness cfg true (carn c)) = length (carn c))
    by apply sort_fitness_length.
  repeat split; simpl; auto.
  - intros H0. rewrite H0 in E. simpl in E. now apply length_zero_iff_nil.
  - intros H0. now rewrite H0.
Qed.

Lemma Carnivore_eating_loop_length (cfg : Config) (o : Oracle)
    (herbivores : list Animal) (c c' : Animal) (eaten : R)
    (surv surv' : list Animal) (k k' : nat) :
  Carnivore_eating_loop cfg o c eaten surv herbivores k = Ok ((c', surv'), k') ->
  (length surv' <= length surv + length herbivores)%nat.
Proof.
  revert c eaten surv k.
  induction herbivores as [|herb rest IH]; intros c eaten surv k; simpl.
  - intros H. apply ret_inv in H as [H _]. injection H as _ <-. lia.
  - destruct (Rleb (fitness cfg c) (fitness cfg herb) || Reqb eaten _)%bool.
    + intros H. apply ret_inv in H as [H _]. injection H as _ ->.
      rewrite length_app. simpl. lia.
    + intros H. apply bind_inv in H as [killed [k1 [_ H]]].
      destruct killed.
      * destruct (Rltb _ _); apply IH in H; lia.
      * apply IH in H. rewrite length_app in H. simpl in H. lia.
Qed.

Lemma carn_eating_loop_length (cfg : Config) (o : Oracle)
    (carns herbs carns' herbs' : list Animal) (k k' : nat) :
  carn_eating_loop cfg o carns herbs k = Ok ((carns', herbs'), k') ->
  length carns' = length carns /\ (length herbs' <= length herbs)%nat.
Proof.
  revert herbs carns' herbs' k k'.
  induction carns as [|c rest IH]; intros herbs carns' herbs' k k'; simpl.
  - intros H. apply ret_inv in H as [H _]. injection H as -> ->. auto.
  - destruct herbs as [|h hs].
    + intros H. apply ret_inv in H as [H _]. injection H as -> ->. auto.
    + destruct (Rltb (fitness cfg c) (fitness cfg h)).
      * intros H. apply ret_inv in H as [H _]. injection H as -> ->. auto.
      * intros H. apply bind_inv in H as [[c1 herbs1] [k1 [H1 H]]].
        apply bind_inv in H as [[rest1 herbs2] [k2 [H2 H]]].
        apply ret_inv in H as [H _]. injection H as -> ->.
        apply Carnivore_eating_loop_length in H1.
        apply IH in H2 as [H2 H3]. simpl in *. split; lia.
Qed.

Lemma carn_eating_spec (cfg : Config) (o : Oracle) (c c' : Cell) (k k' : nat) :
  carn_eating cfg o c k = Ok (c', k') ->
  inert c c' /\
  (length (herb c') <= length (herb c))%nat /\
  length (carn c') = length (carn c) /\
  (carn c = [] -> length (herb c') = length (herb c)).
Proof.
  unfold carn_eating. intros H.
  apply bind_inv in H as [[cs hs] [k1 [H1 H]]].
  apply ret_inv in H as [H _]. subst c'. simpl in *.
  pose proof (carn_eating_loop_length _ _ _ _ _ _ _ _ H1) as [Hc Hh].
  rewrite !sort_fitness_length in *.
  repeat split; simpl; auto.
  - intros H0. rewrite H0 in Hh. simpl in Hh.
    apply length_zero_iff_nil. lia.
  - intros H0. rewrite H0 in Hc. simpl in Hc. now apply length_zero_iff_nil.
  - intros H0. rewrite H0 in H1. simpl in H1.
    apply ret_inv in H1 as [H1 _]. injection H1 as _ ->.
    apply sort_fitness_length.
Qed.

Lemma newborns_loop_spec (cfg : Config) (o : Oracle) (num : Z)
    (animals ms news : list Animal) (k k' : nat) :
  newborns_loop cfg o num animals k = Ok ((ms, news), k') ->
  length ms = length animals /\ (animals = [] -> news = []).
Proof.
  revert ms news k k'. induction animals as [|a rest IH]; intros ms news k k' H;
    simpl in H.
  - apply ret_inv in H as [H _]. injection H as -> ->. auto.
  - apply bind_inv in H as [[a' new] [k1 [_ H]]].
    apply bind_inv in H as [[rest' news'] [k2 [H2 H]]].
    apply ret_inv in H as [H _]. injection H as -> _.
    apply IH in H2 as [H2 _]. simpl. split; [lia|discriminate].
Qed.

Lemma animal_birth_inert (cfg : Config) (o : Oracle) (c c' : Cell) (k k' : nat) :
  animal_birth cfg o c k = Ok (c', k') -> inert c c'.
Proof.
  unfold animal_birth, newborns. intros H.
  apply bind_inv in H as [[hs hnew] [k1 [H1 H]]].
  apply bind_inv in H as [[cs cnew] [k2 [H2 H]]].
  apply ret_inv in H as [H _]. subst c'.
  apply newborns_loop_spec in H1 as [H1 H1'].
  apply newborns_loop_spec in H2 as [H2 H2'].
  repeat split; simpl; auto.
  - intros H0. rewrite H0 in *. rewrite (H1' eq_refl).
    apply length_zero_iff_nil in H1. now rewrite H1.
  - intros H0. rewrite H0 in *. rewrite (H2' eq_refl).
    apply length_zero_iff_nil in H2. now rewrite H2.
Qed.

Lemma probability_birth_zero_gamma (cfg : Config) (a : Animal) (n : Z) :
  gamma (params cfg a) = 0 -> probability_birth cfg a n = 0.
Proof.
  intros Hg. unfold probability_birth. destruct (Rltb (weight a) _); [reflexivity|].
  rewrite Hg, !Rmult_0_l. now rewrite (proj2 (Rltb_false 1 0)) by lra.
Qed.

Lemma birth_zero_gamma (cfg : Config) (o : Oracle) (a : Animal) (n : Z) (k : nat) :
  gamma (params cfg a) = 0 -> 0 <= uniform o k ->
  birth cfg o a n k = Ok ((a, None), S k).
Proof.
  intros Hg Hr. unfold birth, bind, random.
  rewrite probability_birth_zero_gamma by assumption.
  now rewrite (proj2 (Rltb_false _ _) Hr).
Qed.

Lemma newborns_loop_zero_gamma (cfg : Config) (o : Oracle) (num : Z)
    (animals : list Animal) (k : nat) :
  (forall a, gamma (params cfg a) = 0) -> (forall i, 0 <= uniform o i) ->
  newborns_loop cfg o num animals k = Ok ((animals, []), (k + length animals)%nat).
Proof.
  intros Hg Hr. revert k. induction animals as [|a rest IH]; intros k;
    cbn [newborns_loop length].
  - unfold ret. now rewrite Nat.add_0_r.
  - mstep (birth_zero_gamma cfg o a num k (Hg a) (Hr k)).
    mstep (IH (S k)).
    unfold ret. do 2 f_equal. lia.
Qed.

Lemma animal_birth_zero_gamma (cfg : Config) (o : Oracle) (c c' : Cell) (k k' : nat) :
  (forall a, gamma (params cfg a) = 0) -> (forall i, 0 <= uniform o i) ->
  animal_birth cfg o c k = Ok (c', k') ->
  herb c' = herb c /\ carn c' = carn c.
Proof.
  intros Hg Hr. unfold animal_birth, newborns.
  mstep (newborns_loop_zero_gamma cfg o (Z.of_nat (length (herb c))) (herb c) k Hg Hr).
  mstep (newborns_loop_zero_gamma cfg o (Z.of_nat (length (carn c))) (carn c)
           (k + length (herb c)) Hg Hr).
  intros H. apply ret_inv in H as [-> _]. simpl. now rewrite !app_nil_r.
Qed.

Lemma animal_aging_inert (c : Cell) cfg :
  inert c (animal_aging c) /\
  length (herb (animal_aging c)) = length (herb c) /\
  length (carn (animal_aging c)) = length (carn c) /\
  inert c (animal_weight_change cfg c) /\
  length (herb (animal_weight_change cfg c)) = length (herb c) /\
  length (carn (animal_weight_change cfg c)) = length (carn c).
Proof.
  unfold animal_aging, animal_weight_change, inert, same_frame. simpl.
  rewrite !length_map.
  repeat split; auto; intros H; now rewrite H.
Qed.

Lemma survivors_spec (cfg : Config) (o : Oracle) (l l' : list Animal) (k k' : nat) :
  survivors cfg o l k = Ok (l', k') ->
  (length l' <= length l)%nat.
Proof.
  revert l' k k'. induction l as [|a rest IH]; intros l' k k' H; simpl in H.
  - apply ret_inv in H as [-> _]. auto.
  - apply bind_inv in H as [dead [k1 [_ H]]].
    apply bind_inv in H as [rest' [k2 [H2 H]]].
    apply ret_inv in H as [-> _]. apply IH in H2.
    destruct dead; simpl; lia.
Qed.

Lemma animal_death_inert (cfg : Config) (o : Oracle) (c c' : Cell) (k k' : nat) :
  animal_death cfg o c k = Ok (c', k') -> inert c c'.
Proof.
  unfold animal_death. intros H.
  apply bind_inv in H as [hs [k1 [H1 H]]].
  apply bind_inv in H as [cs [k2 [H2 H]]].
  apply ret_inv in H as [-> _].
  apply survivors_spec in H1, H2.
  repeat split; simpl; auto; intros H0; rewrite H0 in *; simpl in *;
    apply length_zero_iff_nil; lia.
Qed.

Lemma survivors_zero_omega (cfg : Config) (o : Oracle) (l : list Animal) (k : nat) :
  (forall a, omega (params cfg a) = 0) -> (forall i, 0 <= uniform o i) ->
  survivors cfg o l k = Ok (l, (k + length l)%nat).
Proof.
  intros Hw Hr. revert k. induction l as [|a rest IH]; intros k;
    cbn [survivors length].
  - unfold ret. now rewrite Nat.add_0_r.
  - assert (Hd : death cfg o a k = Ok (false, S k)).
    { unfold death, bind, random, ret. rewrite Hw, Rmult_0_l.
      now rewrite (proj2 (Rltb_false _ _) (Hr k)). }
    mstep Hd. mstep (IH (S k)). unfold ret. do 2 f_equal. lia.
Qed.

Lemma animal_death_zero_omega (cfg : Config) (o : Oracle) (c c' : Cell) (k k' : nat) :
  (forall a, omega (params cfg a) = 0) -> (forall i, 0 <= uniform o i) ->
  animal_death cfg o c k = Ok (c', k') ->
  herb c' = herb c /\ carn c' = carn c.
Proof.
  intros Hw Hr. unfold animal_death.
  mstep (survivors_zero_omega cfg o (herb c) k Hw Hr).
  mstep (survivors_zero_omega cfg o (carn c) (k + length (herb c)) Hw Hr).
  intros H. apply ret_inv in H as [-> _]. simpl. auto.
Qed.

(** ** Counting animals *)

Lemma count_cells_sumn (sp : Species) (m : Map) :
  count_cells sp m = sumn (sumn (fun c => total_num_animals c sp)) m.
Proof. reflexivity. Qed.

Lemma sumn_Forall2 {A} (R : A -> A -> Prop) (g : A -> nat) (l l' : list A) :
  (forall x y, R x y -> g y = g x) -> Forall2 R l l' -> sumn g l' = sumn g l.
Proof. intros H. induction 1; simpl; auto. Qed.

Lemma sumn_Forall2_le {A} (R : A -> A -> Prop) (g : A -> nat) (l l' : list A) :
  (forall x y, R x y -> (g y <= g x)%nat) -> Forall2 R l l' ->
  (sumn g l' <= sumn g l)%nat.
Proof.
  intros H. induction 1 as [|x y l l' Hxy Hl IH]; simpl; auto.
  specialize (H _ _ Hxy). lia.
Qed.

Lemma sumn_list_alter {A} (g : A -> nat) (f : A -> A) (k : nat) (l : list A) (x : A) :
  nth_error l k = Some x ->
  (sumn g (list_alter f k l) + g x = sumn g l + g (f x))%nat.
Proof.
  revert k. induction l as [|y l IH]; intros [|k] H; simpl in *; try discriminate.
  - injection H as ->. lia.
  - specialize (IH _ H). lia.
Qed.

Lemma count_rel2 (R : Cell -> Cell -> Prop) (sp : Species) (m m' : Map) :
  (forall c c', R c c' -> total_num_animals c' sp = total_num_animals c sp) ->
  rel2 R m m' -> count_cells sp m' = count_cells sp m.
Proof.
  intros H Hr. rewrite !count_cells_sumn.
  eapply sumn_Forall2; [|exact Hr].
  intros row row' Hrow. eapply sumn_Forall2; [|exact Hrow]. exact H.
Qed.

Lemma count_rel2_le (R : Cell -> Cell -> Prop) (sp : Species) (m m' : Map) :
  (forall c c', R c c' -> (total_num_animals c' sp <= total_num_animals c sp)%nat) ->
  rel2 R m m' -> (count_cells sp m' <= count_cells sp m)%nat.
Proof.
  intros H Hr. rewrite !count_cells_sumn.
  eapply sumn_Forall2_le; [|exact Hr].
  intros row row' Hrow. eapply sumn_Forall2_le; [|exact Hrow]. exact H.
Qed.

Lemma count_alter_cell (sp : Species) (f : Cell -> Cell) (m : Map) (l : Z * Z)
    (c : Cell) :
  get_cell m l = Ok c ->
  (count_cells sp (alter_cell f l m) + total_num_animals c sp
   = count_cells sp m + total_num_animals (f c) sp)%nat.
Proof.
  intros Hc. apply get_cell_resolve in Hc as [i [j [Hres Hc]]].
  rewrite (alter_cell_resolved f m l i j Hres). unfold alter_at, cell_at in *.
  destruct (nth_error m i) as [row|] eqn:Er; [|discriminate].
  rewrite !count_cells_sumn.
  pose proof (sumn_list_alter (sumn (fun c => total_num_animals c sp))
                (list_alter f j) i m row Er) as Ho.
  pose proof (sumn_list_alter (fun c => total_num_animals c sp) f j row c Hc) as Hi.
  lia.
Qed.

Lemma count_zero_cells (sp : Species) (m : Map) :
  count_cells sp m = 0%nat ->
  all_cells (fun c => total_num_animals c sp = 0%nat) m.
Proof.
  rewrite count_cells_sumn. unfold all_cells.
  induction m as [|row m IH]; simpl; intros H; constructor.
  - assert (Hrow : sumn (fun c => total_num_animals c sp) row = 0%nat) by lia.
    clear -Hrow. induction row as [|c row IH]; simpl in *; constructor.
    + lia.
    + apply IH. lia.
  - apply IH. lia.
Qed.

(** ** Migration *)

Lemma same_frame_live (c c' : Cell) :
  same_frame c c' -> animals_can_live_here c' = animals_can_live_here c.
Proof. intros [Hk _]. unfold animals_can_live_here. now rewrite Hk. Qed.

Lemma stage_rel_refl (sp : Species) (c : Cell) : stage_rel sp c c.
Proof.
  repeat split; auto. exists []. split; [now rewrite app_nil_r|].
  intros H. now contradiction H.
Qed.

Lemma stage_rel_trans (sp : Species) (x y z : Cell) :
  stage_rel sp x y -> stage_rel sp y z -> stage_rel sp x z.
Proof.
  intros [[Hk1 Hl1] [Hf1 [Hh1 [Hc1 [Ho1 [e1 [He1 Hl1']]]]]]]
         [[Hk2 Hl2] [Hf2 [Hh2 [Hc2 [Ho2 [e2 [He2 Hl2']]]]]]].
  repeat split; try congruence.
  exists (e1 ++ e2). split.
  - rewrite He2, He1. now rewrite app_assoc.
  - intros Hne. destruct e1 as [|a e1].
    + simpl in Hne. specialize (Hl2' Hne).
      unfold animals_can_live_here in *. now rewrite <- Hk1.
    + apply Hl1'. discriminate.
Qed.

Lemma stage_rel_mig_rel (sp : Species) (c c' : Cell) :
  stage_rel sp c c' -> mig_rel sp c c'.
Proof.
  intros [Hfr [Hf [Hh [Hc [Ho He]]]]].
  repeat split; try apply Hfr; auto.
  - destruct sp; simpl; assumption.
  - destruct sp; simpl; congruence.
Qed.

Lemma mig_rel_refl (sp : Species) (c : Cell) : mig_rel sp c c.
Proof. apply stage_rel_mig_rel, stage_rel_refl. Qed.

Lemma mig_rel_trans (sp : Species) (x y z : Cell) :
  mig_rel sp x y -> mig_rel sp y z -> mig_rel sp x z.
Proof.
  intros [[Hk1 Hl1] [Hf1 [Hr1 [Ho1 [Hn1 [e1 [He1 Hl1']]]]]]]
         [[Hk2 Hl2] [Hf2 [Hr2 [Ho2 [Hn2 [e2 [He2 Hl2']]]]]]].
  repeat split; try congruence; auto.
  exists (e1 ++ e2). split.
  - rewrite He2, He1. now rewrite app_assoc.
  - intros Hne. destruct e1 as [|a e1].
    + simpl in Hne. specialize (Hl2' Hne).
      unfold animals_can_live_here in *. now rewrite <- Hk1.
    + apply Hl1'. discriminate.
Qed.

Lemma mig_rel_cell_ok (sp : Species) (c c' : Cell) :
  mig_rel sp c c' -> cell_ok c -> cell_ok c'.
Proof.
  intros [Hfr [Hf [Hr [Ho [Hn [e [He Hl]]]]]]] Hok Hlive.
  rewrite (same_frame_live _ _ Hfr) in Hlive.
  destruct (Hok Hlive) as [E1 [E2 [E3 E4]]].
  assert (e = []).
  { destruct e; [reflexivity|]. rewrite Hl in Hlive; discriminate. }
  subst e. rewrite app_nil_r in He.
  destruct sp; simpl in *; repeat split; auto; congruence.
Qed.

Lemma mig_rel_total_other (sp : Species) (c c' : Cell) :
  mig_rel sp c c' ->
  total_num_animals c' (other sp) = total_num_animals c (other sp).
Proof.
  intros [_ [_ [Hr [Ho _]]]]. destruct sp; simpl in *; congruence.
Qed.


Lemma add_immigrant_stage_rel (sp : Species) (a : Animal) (c : Cell) :
  animals_can_live_here c = true -> stage_rel sp c (add_immigrant sp a c).
Proof.
  intros Hlive. destruct sp; repeat split; simpl; auto;
    exists [a]; split; auto.
Qed.

Lemma total_add_immigrant (sp : Species) (a : Animal) (c : Cell) :
  total_num_animals (add_immigrant sp a c) sp = S (total_num_animals c sp).
Proof. destruct sp; simpl; rewrite length_app; simpl; lia. Qed.

Lemma stage_rel_total_other (sp : Species) (c c' : Cell) :
  stage_rel sp c c' ->
  total_num_animals c' (other sp) = total_num_animals c (other sp).
Proof. intros H. apply mig_rel_total_other, stage_rel_mig_rel, H. Qed.

Lemma Forall2_nth_error_both {A B} (R : A -> B -> Prop) (l : list A) (l' : list B)
    (k : nat) (x : A) (y : B) :
  Forall2 R l l' -> nth_error l k = Some x -> nth_error l' k = Some y -> R x y.
Proof.
  intros H. revert k. induction H; intros [|k] Hx Hy; simpl in *; try discriminate.
  - injection Hx as <-. injection Hy as <-. assumption.
  - eauto.
Qed.

Lemma migration_loop_spec (cfg : Config) (o : Oracle) (sp : Species)
    (nlocs : list (Z * Z)) (animals : list Animal) :
  (forall i, 0 <= uniform o i < 1) ->
  length nlocs = 4%nat ->
  forall (remaining : list Animal) (m : Map) (k : nat)
         (rem : list Animal) (m' : Map) (k' : nat),
    migration_loop cfg o sp nlocs animals remaining m k = Ok ((rem, m'), k') ->
    rel2 (stage_rel sp) m m' /\
    (count_cells sp m' + length rem
     = count_cells sp m + length remaining + length animals)%nat /\
    (animals = [] -> rem = remaining).
Proof.
  intros Hr Hlen.
  induction animals as [|a rest IH]; intros remaining m k rem m' k' H;
    cbn [migration_loop] in H.
  - apply ret_inv in H as [H _]. injection H as -> ->.
    split; [apply rel2_refl, stage_rel_refl|]. split; [simpl; lia|auto].
  - apply bind_inv in H as [r [k1 [Hrand H]]].
    unfold random in Hrand. injection Hrand as <- <-.
    assert (Hstay : forall m0 k0,
               migration_loop cfg o sp nlocs rest (remaining ++ [a]) m0 k0
               = Ok ((rem, m'), k') ->
               m0 = m ->
               rel2 (stage_rel sp) m m' /\
               (count_cells sp m' + length rem
                = count_cells sp m + length remaining + length (a :: rest))%nat /\
               (a :: rest = [] -> rem = remaining)).
    { intros m0 k0 H0 ->. apply IH in H0 as [H1 [H2 _]].
      split; [assumption|]. split; [|discriminate].
      rewrite length_app in H2. simpl in *. lia. }
    destruct (Rltb (uniform o k) (prob_migration cfg a)).
    + apply bind_inv in H as [neighbours [k2 [Hn H]]].
      apply lift_inv in Hn as [Hn ->].
      apply bind_inv in H as [pm [k3 [Hpm H]]].
      apply lift_inv in Hpm as [Hpm ->].
      destruct (Reqb (Rsum pm) 0) eqn:Es; [eapply Hstay; eauto|].
      apply Reqb_false in Es.
      apply bind_inv in H as [pos [k4 [Hmv H]]].
      destruct (nth_error nlocs pos) as [nl|] eqn:Enl; [|discriminate].
      apply get_neighbours_Forall2 in Hn.
      assert (Hnlen : length neighbours = 4%nat).
      { rewrite <- (Forall2_length' _ _ _ Hn). exact Hlen. }
      destruct (sampled_neighbour_habitable cfg o neighbours a sp pm (S k) k4 pos
                  (Hr (S k)) Hnlen Hpm Es Hmv) as [p [cell [_ [_ [Hcell Hlive]]]]].
      pose proof (Forall2_nth_error_both _ _ _ _ _ _ Hn Enl Hcell) as Hget.
      apply IH in H as [H1 [H2 _]].
      split; [|split; [|discriminate]].
      * eapply rel2_trans; [apply stage_rel_trans| |exact H1].
        eapply rel2_impl; [|apply rel2_alter_cell].
        intros c c' [->|[-> Hc]]; [apply stage_rel_refl|].
        apply add_immigrant_stage_rel. congruence.
      * pose proof (count_alter_cell sp (add_immigrant sp a) m nl cell Hget) as Hc.
        rewrite total_add_immigrant in Hc. simpl. lia.
    + eapply Hstay; eauto.
Qed.

Lemma total_set_residents (sp : Species) (l : list Animal) (c : Cell) :
  total_num_animals (set_residents sp l c) sp
  = (length l + length (immigrants sp c))%nat.
Proof. destruct sp; reflexivity. Qed.

Lemma total_residents (sp : Species) (c : Cell) :
  total_num_animals c sp
  = (length (residents sp c) + length (immigrants sp c))%nat.
Proof. destruct sp; reflexivity. Qed.

Lemma stage_rel_residents (sp sp' : Species) (c c' : Cell) :
  stage_rel sp c c' -> residents sp' c' = residents sp' c.
Proof. intros [_ [_ [Hh [Hc _]]]]. destruct sp'; assumption. Qed.

Lemma set_residents_mig_rel (sp : Species) (rem : list Animal) (c : Cell) :
  (residents sp c = [] -> rem = []) ->
  mig_rel sp c (set_residents sp rem c).
Proof.
  intros H. destruct sp; repeat split; simpl in *; auto;
    exists []; (split; [now rewrite app_nil_r | intros E; now contradiction E]).
Qed.

(** One cell's migration: every cell keeps its landscape, its food and the
    other species; immigrants are only added, and only to habitable cells;
    the island total of the species is unchanged. *)
Lemma cell_migration_spec (cfg : Config) (o : Oracle) (sp : Species)
    (l : Z * Z) (m m' : Map) (k k' : nat) :
  (forall i, 0 <= uniform o i < 1) ->
  cell_migration cfg o sp l m k = Ok (m', k') ->
  rel2 (mig_rel sp) m m' /\ count_cells sp m' = count_cells sp m.
Proof.
  intros Hr H. unfold cell_migration in H.
  apply bind_inv in H as [cell [k1 [Hcell H]]].
  apply lift_inv in Hcell as [Hcell ->].
  apply bind_inv in H as [ns [k2 [_ H]]].
  apply bind_inv in H as [[rem m1] [k3 [Hloop H]]].
  apply ret_inv in H as [-> _].
  apply (migration_loop_spec cfg o sp (neighbour_locations cell)
           (residents sp cell) Hr eq_refl) in Hloop as [Hrel [Hcount Hnil]].
  destruct (rel2_get_cell_l _ _ _ _ _ Hrel Hcell) as [cell1 [Hcell1 Hst]].
  pose proof (stage_rel_residents sp sp _ _ Hst) as Hres.
  split.
  - eapply rel2_trans; [apply mig_rel_trans| |].
    + eapply rel2_impl; [|exact Hrel]. apply stage_rel_mig_rel.
    + eapply rel2_impl; [|apply rel2_alter_cell].
      intros c c' [->|[-> Hc]]; [apply mig_rel_refl|].
      apply set_residents_mig_rel.
      assert (c = cell1) by congruence. subst c.
      rewrite Hres. exact Hnil.
  - pose proof (count_alter_cell sp (set_residents sp rem) m1 l cell1 Hcell1) as Hc.
    rewrite total_set_residents, total_residents, Hres in Hc.
    simpl in Hcount. lia.
Qed.

Lemma foldM_cell_migration_spec (cfg : Config) (o : Oracle) (sp : Species)
    (locs : list (Z * Z)) (m m' : Map) (k k' : nat) :
  (forall i, 0 <= uniform o i < 1) ->
  foldM (cell_migration cfg o sp) locs m k = Ok (m', k') ->
  rel2 (mig_rel sp) m m' /\ count_cells sp m' = count_cells sp m.
Proof.
  intros Hr. revert m k. induction locs as [|l locs IH]; intros m k H;
    cbn [foldM] in H.
  - apply ret_inv in H as [-> _]. split; [apply rel2_refl, mig_rel_refl|reflexivity].
  - apply bind_inv in H as [m1 [k1 [H1 H]]].
    apply (cell_migration_spec cfg o sp l m m1 k k1 Hr) in H1 as [Hrel1 Hc1].
    apply IH in H as [Hrel2 Hc2].
    split; [|congruence].
    eapply rel2_trans; [apply mig_rel_trans| |]; eassumption.
Qed.

Lemma mig_rel_count_other (sp : Species) (m m' : Map) :
  rel2 (mig_rel sp) m m' ->
  count_cells (other sp) m' = count_cells (other sp) m.
Proof. apply count_rel2. apply mig_rel_total_other. Qed.

Lemma add_immigrants_to_pop_twice (c : Cell) :
  add_immigrants_to_pop (add_immigrants_to_pop c) = add_immigrants_to_pop c.
Proof. unfold add_immigrants_to_pop. simpl. now rewrite !app_nil_r. Qed.

Lemma commit_rel_trans (x y z : Cell) :
  commit_rel x y -> commit_rel y z -> commit_rel x z.
Proof.
  intros [-> | ->] [-> | ->]; unfold commit_rel; auto.
  rewrite add_immigrants_to_pop_twice. auto.
Qed.

Lemma commit_immigrants_rel (locs : list (Z * Z)) (m : Map) :
  rel2 commit_rel m (commit_immigrants locs m).
Proof.
  unfold commit_immigrants. revert m.
  induction locs as [|l locs IH]; intros m; simpl.
  - apply rel2_refl. now left.
  - eapply rel2_trans; [apply commit_rel_trans| |apply IH].
    eapply rel2_impl; [|apply rel2_alter_cell].
    intros c c' [->|[-> _]]; [now left|now right].
Qed.

Lemma add_immigrants_to_pop_no_staged (c : Cell) :
  no_staged (add_immigrants_to_pop c).
Proof. split; reflexivity. Qed.

Lemma commit_rel_props (c c' : Cell) :
  commit_rel c c' ->
  same_frame c c' /\
  (cell_ok c -> cell_ok c') /\
  (forall sp, total_num_animals c' sp = total_num_animals c sp) /\
  available_food c' = available_food c.
Proof.
  intros [H|H]; subst c'.
  - split; [split; reflexivity|]. split; [tauto|]. split; auto.
  - split; [split; reflexivity|]. split; [|split; [|reflexivity]].
    + intros Hok Hlive. destruct (Hok Hlive) as [E1 [E2 [E3 E4]]].
      unfold add_immigrants_to_pop. repeat split; simpl; rewrite ?E1, ?E2, ?E3, ?E4;
        reflexivity.
    + intros sp. destruct sp; simpl; rewrite length_app; simpl; lia.
Qed.

Lemma commit_immigrants_count (sp : Species) (locs : list (Z * Z)) (m : Map) :
  count_cells sp (commit_immigrants locs m) = count_cells sp m.
Proof.
  eapply count_rel2; [|apply commit_immigrants_rel].
  intros c c' H. now apply commit_rel_props.
Qed.

(** After the commit the cells the loop went through hold no staged
    immigrant; a cell it did not reach is as it was. *)
Lemma commit_immigrants_cell_at (locs : list (Z * Z)) (m : Map) (i j : nat)
    (c' : Cell) :
  cell_at (commit_immigrants locs m) i j = Some c' ->
  no_staged c' \/
  (cell_at m i j = Some c' /\ ~ In (Z.of_nat i, Z.of_nat j) locs).
Proof.
  unfold commit_immigrants. revert m.
  induction locs as [|l locs IH]; intros m H; simpl in H.
  - right. auto.
  - apply IH in H as [H|[H Hnot]]; [now left|].
    destruct (rel2_cell_at _ _ _ i j c' (rel2_alter_cell add_immigrants_to_pop m l) H)
      as [c [Hc [E|[E Hget]]]]; subst c'.
    + destruct l as [lr lc].
      destruct (Z.eq_dec lr (Z.of_nat i)) as [Er|Er];
        [destruct (Z.eq_dec lc (Z.of_nat j)) as [Ec|Ec]|].
      * subst lr lc. pose proof (resolve_nonneg m i j c Hc) as Hres.
        rewrite (alter_cell_resolved _ _ _ _ _ Hres), cell_at_alter_at in H.
        rewrite !Nat.eqb_refl, Hc in H. simpl in H. injection H as H.
        left. rewrite <- H. apply add_immigrants_to_pop_no_staged.
      * right. split; [assumption|]. simpl. intros [E|E]; [|now apply Hnot].
        injection E as E1 E2. contradiction.
      * right. split; [assumption|]. simpl. intros [E|E]; [|now apply Hnot].
        injection E as E1 E2. contradiction.
    + left. apply add_immigrants_to_pop_no_staged.
Qed.

(** ** The phases over the island *)

Lemma step_rel_refl (c : Cell) : step_rel c c.
Proof. split; [split; reflexivity|auto]. Qed.

Lemma step_rel_trans (x y z : Cell) : step_rel x y -> step_rel y z -> step_rel x z.
Proof.
  intros [[Hk1 Hl1] H1] [[Hk2 Hl2] H2]. split; [split; congruence|auto].
Qed.

Lemma inert_step_rel (c c' : Cell) : inert c c' -> step_rel c c'.
Proof. intros H. split; [apply H|now apply inert_cell_ok]. Qed.

Lemma mig_rel_step_rel (sp : Species) (c c' : Cell) : mig_rel sp c c' -> step_rel c c'.
Proof. intros H. split; [apply H|now apply (mig_rel_cell_ok sp)]. Qed.

Lemma commit_rel_step_rel (c c' : Cell) : commit_rel c c' -> step_rel c c'.
Proof. intros H. apply commit_rel_props in H. split; apply H. Qed.

Lemma inert_trans (x y z : Cell) : inert x y -> inert y z -> inert x z.
Proof.
  intros [[Hk1 Hl1] [A1 [B1 [C1 D1]]]] [[Hk2 Hl2] [A2 [B2 [C2 D2]]]].
  repeat split; try congruence; auto.
Qed.

Lemma food_growth_in_all_cells_rel (cfg : Config) (isl : Island) :
  geogr (food_growth_in_all_cells cfg isl) = geogr isl /\
  rel2 (fun c c' => c' = food_growth cfg c) (island_map isl)
       (island_map (food_growth_in_all_cells cfg isl)).
Proof. split; [reflexivity|apply rel2_map]. Qed.

Lemma all_herb_eating_rel (cfg : Config) (isl isl' : Island) (k k' : nat) :
  all_herb_eating cfg isl k = Ok (isl', k') ->
  geogr isl' = geogr isl /\
  rel2 (fun c c' => herb_eating cfg c = Ok c') (island_map isl) (island_map isl').
Proof.
  unfold all_herb_eating. intros H.
  apply bind_inv in H as [m [k1 [Hm H]]]. apply ret_inv in H as [-> _].
  split; [reflexivity|]. simpl.
  eapply rel2_impl; [|eapply rel2_mapM; exact Hm].
  intros c c' [k2 [k3 Hc]]. now apply lift_inv in Hc.
Qed.

Lemma all_carn_eating_rel (cfg : Config) (o : Oracle) (isl isl' : Island) (k k' : nat) :
  all_carn_eating cfg o isl k = Ok (isl', k') ->
  geogr isl' = geogr isl /\
  rel2 (fun c c' => exists k1 k2, carn_eating cfg o c k1 = Ok (c', k2))
       (island_map isl) (island_map isl').
Proof.
  unfold all_carn_eating. intros H.
  apply bind_inv in H as [m [k1 [Hm H]]]. apply ret_inv in H as [-> _].
  split; [reflexivity|]. eapply rel2_mapM; exact Hm.
Qed.

Lemma animals_give_birth_rel (cfg : Config) (o : Oracle) (isl isl' : Island) (k k' : nat) :
  animals_give_birth cfg o isl k = Ok (isl', k') ->
  geogr isl' = geogr isl /\
  rel2 (fun c c' => exists k1 k2, animal_birth cfg o c k1 = Ok (c', k2))
       (island_map isl) (island_map isl').
Proof.
  unfold animals_give_birth. intros H.
  apply bind_inv in H as [m [k1 [Hm H]]]. apply ret_inv in H as [-> _].
  split; [reflexivity|]. eapply rel2_mapM; exact Hm.
Qed.

Lemma animals_die_rel (cfg : Config) (o : Oracle) (isl isl' : Island) (k k' : nat) :
  animals_die cfg o isl k = Ok (isl', k') ->
  geogr isl' = geogr isl /\
  rel2 (fun c c' => exists k1 k2, animal_death cfg o c k1 = Ok (c', k2))
       (island_map isl) (island_map isl').
Proof.
  unfold animals_die. intros H.
  apply bind_inv in H as [m [k1 [Hm H]]]. apply ret_inv in H as [-> _].
  split; [reflexivity|]. eapply rel2_mapM; exact Hm.
Qed.

(** The migration phase, loop by loop. *)
Lemma animals_migrate_inv (cfg : Config) (o : Oracle) (isl isl' : Island) (k k' : nat) :
  (forall i, 0 <= uniform o i < 1) ->
  animals_migrate cfg o isl k = Ok (isl', k') ->
  exists m1 m3,
    rel2 (mig_rel Herbivore) (island_map isl) m1 /\
    count_cells Herbivore m1 = count_cells Herbivore (island_map isl) /\
    rel2 (mig_rel Carnivore)
         (commit_immigrants (shuffle o k (interior_locations isl)) m1) m3 /\
    count_cells Carnivore m3
    = count_cells Carnivore
        (commit_immigrants (shuffle o k (interior_locations isl)) m1) /\
    isl' = with_map isl
             (commit_immigrants (shuffle o k (interior_locations isl)) m3).
Proof.
  intros Hr H. unfold animals_migrate, randomize_cell_structure in H.
  apply bind_inv in H as [rnd [k1 [Hrnd H]]].
  apply bind_inv in Hrnd as [locs [k0 [Hsh Hrnd]]].
  injection Hsh as <- <-.
  apply bind_inv in Hrnd as [cells [k2 [_ Hrnd]]].
  apply ret_inv in Hrnd as [-> _].
  apply bind_inv in H as [m1 [k3 [H1 H]]].
  apply bind_inv in H as [m3 [k4 [H3 H]]].
  apply ret_inv in H as [-> _].
  apply (foldM_cell_migration_spec cfg o Herbivore _ _ _ _ _ Hr) in H1 as [R1 C1].
  apply (foldM_cell_migration_spec cfg o Carnivore _ _ _ _ _ Hr) in H3 as [R3 C3].
  exists m1, m3. auto.
Qed.

Lemma animals_migrate_rel (cfg : Config) (o : Oracle) (isl isl' : Island) (k k' : nat) :
  (forall i, 0 <= uniform o i < 1) ->
  animals_migrate cfg o isl k = Ok (isl', k') ->
  geogr isl' = geogr isl /\
  rel2 step_rel (island_map isl) (island_map isl') /\
  number_of_animals isl' = number_of_animals isl.
Proof.
  intros Hr H.
  destruct (animals_migrate_inv cfg o isl isl' k k' Hr H)
    as [m1 [m3 [R1 [C1 [R3 [C3 ->]]]]]].
  set (locs := shuffle o k (interior_locations isl)) in *.
  split; [reflexivity|]. split.
  - simpl.
    eapply rel2_trans; [apply step_rel_trans| |].
    { eapply rel2_impl; [apply (mig_rel_step_rel Herbivore)|exact R1]. }
    eapply rel2_trans; [apply step_rel_trans| |].
    { eapply rel2_impl; [apply commit_rel_step_rel|apply commit_immigrants_rel]. }
    eapply rel2_trans; [apply step_rel_trans| |].
    { eapply rel2_impl; [apply (mig_rel_step_rel Carnivore)|exact R3]. }
    eapply rel2_impl; [apply commit_rel_step_rel|apply commit_immigrants_rel].
  - pose proof (mig_rel_count_other Carnivore _ _ R3) as O3.
    pose proof (mig_rel_count_other Herbivore _ _ R1) as O1.
    simpl in O1, O3.
    unfold number_of_animals. simpl. f_equal.
    + rewrite commit_immigrants_count, O3, commit_immigrants_count. exact C1.
    + rewrite commit_immigrants_count, C3, commit_immigrants_count. exact O1.
Qed.

Lemma covered_step (isl isl' : Island) :
  geogr isl' = geogr isl ->
  rel2 step_rel (island_map isl) (island_map isl') ->
  covered isl -> covered isl'.
Proof.
  intros Hg Hrel Hcov i j c' Hc'.
  destruct (rel2_cell_at _ _ _ _ _ _ Hrel Hc') as [c [Hc [Hfr _]]].
  unfold interior_locations. rewrite Hg.
  rewrite (same_frame_live _ _ Hfr). exact (Hcov i j c Hc).
Qed.

Lemma all_cells_step (m m' : Map) :
  rel2 step_rel m m' -> all_cells cell_ok m -> all_cells cell_ok m'.
Proof. apply rel2_all_cells. intros c c' [_ H]. exact H. Qed.

Lemma animals_migrate_no_staged (cfg : Config) (o : Oracle) (isl isl' : Island)
    (k k' : nat) :
  valid_oracle o ->
  covered isl -> all_cells cell_ok (island_map isl) ->
  animals_migrate cfg o isl k = Ok (isl', k') ->
  all_cells no_staged (island_map isl').
Proof.
  intros [Hr Hperm] Hcov Hok H.
  destruct (animals_migrate_inv cfg o isl isl' k k' Hr H)
    as [m1 [m3 [R1 [_ [R3 [_ ->]]]]]].
  set (locs := shuffle o k (interior_locations isl)) in *.
  assert (R13 : rel2 step_rel (island_map isl) m3).
  { eapply rel2_trans; [apply step_rel_trans| |].
    { eapply rel2_impl; [apply (mig_rel_step_rel Herbivore)|exact R1]. }
    eapply rel2_trans; [apply step_rel_trans| |].
    { eapply rel2_impl; [apply commit_rel_step_rel|apply commit_immigrants_rel]. }
    eapply rel2_impl; [apply (mig_rel_step_rel Carnivore)|exact R3]. }
  apply all_cells_cell_at. intros i j c' Hc'. simpl in Hc'.
  apply commit_immigrants_cell_at in Hc' as [Hc'|[Hc' Hnot]]; [assumption|].
  destruct (rel2_cell_at _ _ _ _ _ _ R13 Hc') as [c [Hc [Hfr Hck]]].
  destruct (Hcov i j c Hc) as [Hin|Hlive].
  - exfalso. apply Hnot. unfold locs.
    eapply Permutation_in; [apply Permutation_sym, Hperm|exact Hin].
  - assert (Hokc : cell_ok c).
    { pose proof (proj1 (all_cells_cell_at cell_ok _) Hok) as Hall.
      exact (Hall i j c Hc). }
    rewrite <- (same_frame_live _ _ Hfr) in Hlive.
    destruct (Hck Hokc Hlive) as [_ [_ [E3 E4]]]. split; assumption.
Qed.

Lemma rel2_inert_no_staged (m m' : Map) :
  rel2 inert m m' -> all_cells no_staged m -> all_cells no_staged m'.
Proof. apply rel2_all_cells. intros c c'. apply inert_no_staged. Qed.

(** The cell-wise effect of the three phases before migration and of the
    three phases after it. *)
Lemma before_migration_inert (cfg : Config) (o : Oracle) (isl isl4 : Island)
    (k k' : nat) :
  (isl2 <- all_herb_eating cfg (food_growth_in_all_cells cfg isl) ;;
   isl3 <- all_carn_eating cfg o isl2 ;;
   animals_give_birth cfg o isl3) k = Ok (isl4, k') ->
  geogr isl4 = geogr isl /\ rel2 inert (island_map isl) (island_map isl4).
Proof.
  intros H.
  apply bind_inv in H as [isl2 [k2 [H2 H]]].
  apply bind_inv in H as [isl3 [k3 [H3 H]]].
  apply all_herb_eating_rel in H2 as [G2 R2].
  apply all_carn_eating_rel in H3 as [G3 R3].
  apply animals_give_birth_rel in H as [G4 R4].
  destruct (food_growth_in_all_cells_rel cfg isl) as [G1 R1].
  split; [congruence|].
  eapply rel2_trans; [apply inert_trans| |].
  { eapply rel2_impl; [|exact R1]. intros c c' ->. apply food_growth_inert. }
  eapply rel2_trans; [apply inert_trans| |].
  { eapply rel2_impl; [|exact R2]. intros c c' Hc.
    exact (proj1 (herb_eating_spec cfg c c' Hc)). }
  eapply rel2_trans; [apply inert_trans| |].
  { eapply rel2_impl; [|exact R3]. intros c c' [k1 [k1' Hc]].
    exact (proj1 (carn_eating_spec cfg o c c' k1 k1' Hc)). }
  eapply rel2_impl; [|exact R4]. intros c c' [k1 [k1' Hc]].
  now apply animal_birth_inert in Hc.
Qed.

Lemma after_migration_inert (cfg : Config) (o : Oracle) (isl5 isl' : Island)
    (k k' : nat) :
  animals_die cfg o (all_animals_lose_weight cfg (all_animals_aging isl5)) k
  = Ok (isl', k') ->
  geogr isl' = geogr isl5 /\ rel2 inert (island_map isl5) (island_map isl').
Proof.
  intros H. apply animals_die_rel in H as [G R].
  split; [exact G|]. simpl in R.
  eapply rel2_trans; [apply inert_trans| |].
  { eapply rel2_impl; [|apply (rel2_map animal_aging)].
    intros c c' ->. apply (animal_aging_inert c cfg). }
  eapply rel2_trans; [apply inert_trans| |].
  { eapply rel2_impl; [|apply (rel2_map (animal_weight_change cfg))].
    intros c c' ->. apply (animal_aging_inert c cfg). }
  eapply rel2_impl; [|exact R]. intros c c' [k1 [k1' Hc]].
  now apply animal_death_inert in Hc.
Qed.

Lemma annual_cycle_inv (cfg : Config) (o : Oracle) (isl isl' : Island) (k k' : nat) :
  annual_cycle cfg o isl k = Ok (isl', k') ->
  exists isl4 isl5 k4 k5,
    (isl2 <- all_herb_eating cfg (food_growth_in_all_cells cfg isl) ;;
     isl3 <- all_carn_eating cfg o isl2 ;;
     animals_give_birth cfg o isl3) k = Ok (isl4, k4) /\
    animals_migrate cfg o isl4 k4 = Ok (isl5, k5) /\
    animals_die cfg o (all_animals_lose_weight cfg (all_animals_aging isl5)) k5
    = Ok (isl', k').
Proof.
  unfold annual_cycle. intros H.
  apply bind_inv in H as [isl2 [k2 [H2 H]]].
  apply bind_inv in H as [isl3 [k3 [H3 H]]].
  apply bind_inv in H as [isl4 [k4 [H4 H]]].
  apply bind_inv in H as [isl5 [k5 [H5 H]]].
  exists isl4, isl5, k4, k5. split; [|split; assumption].
  mstep H2. mstep H3. exact H4.
Qed.

Lemma annual_cycle_rel (cfg : Config) (o : Oracle) (isl isl' : Island) (k k' : nat) :
  (forall i, 0 <= uniform o i < 1) ->
  annual_cycle cfg o isl k = Ok (isl', k') ->
  geogr isl' = geogr isl /\ rel2 step_rel (island_map isl) (island_map isl').
Proof.
  intros Hr H.
  apply annual_cycle_inv in H as [isl4 [isl5 [k4 [k5 [H4 [H5 H6]]]]]].
  apply before_migration_inert in H4 as [G4 R4].
  apply (animals_migrate_rel cfg o _ _ _ _ Hr) in H5 as [G5 [R5 _]].
  apply after_migration_inert in H6 as [G6 R6].
  split; [congruence|].
  eapply rel2_trans; [apply step_rel_trans| |].
  { eapply rel2_impl; [apply inert_step_rel|exact R4]. }
  eapply rel2_trans; [apply step_rel_trans|exact R5|].
  eapply rel2_impl; [apply inert_step_rel|exact R6].
Qed.

Lemma annual_cycle_no_staged (cfg : Config) (o : Oracle) (isl isl' : Island)
    (k k' : nat) :
  valid_oracle o ->
  covered isl -> all_cells cell_ok (island_map isl) ->
  annual_cycle cfg o isl k = Ok (isl', k') ->
  all_cells no_staged (island_map isl').
Proof.
  intros Hv Hcov Hok H.
  apply annual_cycle_inv in H as [isl4 [isl5 [k4 [k5 [H4 [H5 H6]]]]]].
  apply before_migration_inert in H4 as [G4 R4].
  apply after_migration_inert in H6 as [G6 R6].
  assert (R4' : rel2 step_rel (island_map isl) (island_map isl4)).
  { eapply rel2_impl; [apply inert_step_rel|exact R4]. }
  eapply rel2_inert_no_staged; [exact R6|].
  eapply animals_migrate_no_staged; [exact Hv| | |exact H5].
  - eapply covered_step; eassumption.
  - eapply all_cells_step; eassumption.
Qed.

(** ** The island the constructor builds *)

Lemma In_zrange (a b z : Z) : In z (zrange a b) <-> (a <= z < b)%Z.
Proof.
  unfold zrange. rewrite in_map_iff. split.
  - intros [i [<- Hi]]. apply in_seq in Hi. lia.
  - intros H. exists (Z.to_nat (z - a)). split; [lia|]. apply in_seq. lia.
Qed.

Lemma In_interior_locations (isl : Island) (r c : Z) :
  In (r, c) (interior_locations isl) <->
  (1 <= r < Z.of_nat (length (geogr isl)) - 1)%Z /\
  (1 <= c < Z.of_nat (length (nth 0 (geogr isl) [])) - 1)%Z.
Proof.
  unfold interior_locations. rewrite in_flat_map. split.
  - intros [row [Hrow Hin]]. apply in_map_iff in Hin as [col [E Hcol]].
    injection E as -> ->. apply In_zrange in Hrow, Hcol. auto.
  - intros [Hr Hc]. exists r. split; [now apply In_zrange|].
    apply in_map_iff. exists c. split; [reflexivity|now apply In_zrange].
Qed.

Lemma build_row_nth (cfg : Config) (row_num col_num : Z) (letters : list ascii)
    (row : list Cell) :
  build_row cfg row_num col_num letters = Ok row ->
  length row = length letters /\
  forall j cell,
    nth_error row j = Some cell ->
    exists letter k,
      nth_error letters j = Some letter /\ kind_of_letter letter = Ok k /\
      cell = new_cell cfg k (row_num, (col_num + Z.of_nat j)%Z).
Proof.
  revert col_num row. induction letters as [|letter rest IH]; intros col_num row;
    simpl.
  - intros H. injection H as <-. split; [reflexivity|]. intros [|j] cell; discriminate.
  - destruct (kind_of_letter letter) as [k|] eqn:Ek; [|discriminate].
    destruct (build_row cfg row_num (col_num + 1) rest) as [row'|] eqn:Er;
      [|discriminate].
    intros H. injection H as <-.
    destruct (IH _ _ Er) as [Hlen Hnth]. split; [simpl; congruence|].
    intros [|j] cell Hc; simpl in Hc.
    + injection Hc as <-. exists letter, k. rewrite Z.add_0_r. auto.
    + destruct (Hnth j cell Hc) as [l' [k' [H1 [H2 H3]]]].
      exists l', k'. split; [assumption|]. split; [assumption|].
      rewrite H3. do 2 f_equal. lia.
Qed.

Lemma build_map_nth (cfg : Config) (row_num : Z) (rows : list (list ascii))
    (m : Map) :
  build_map cfg row_num rows = Ok m ->
  length m = length rows /\
  forall i row,
    nth_error m i = Some row ->
    exists letters,
      nth_error rows i = Some letters /\
      build_row cfg (row_num + Z.of_nat i)%Z 0 letters = Ok row.
Proof.
  revert row_num m. induction rows as [|r rest IH]; intros row_num m; simpl.
  - intros H. injection H as <-. split; [reflexivity|]. intros [|i] row; discriminate.
  - destruct (build_row cfg row_num 0 r) as [row0|] eqn:Er; [|discriminate].
    destruct (build_map cfg (row_num + 1) rest) as [m'|] eqn:Em; [|discriminate].
    intros H. injection H as <-.
    destruct (IH _ _ Em) as [Hlen Hnth]. split; [simpl; congruence|].
    intros [|i] row Hrow; simpl in Hrow.
    + injection Hrow as <-. exists r. rewrite Z.add_0_r. auto.
    + destruct (Hnth i row Hrow) as [letters [H1 H2]].
      exists letters. split; [assumption|].
      replace (row_num + Z.of_nat (S i))%Z with (row_num + 1 + Z.of_nat i)%Z by lia.
      assumption.
Qed.

(** What the constructor's map holds at each place. *)
Lemma build_map_cell_at (cfg : Config) (rows : list (list ascii)) (m : Map)
    (i j : nat) (cell : Cell) :
  build_map cfg 0 rows = Ok m ->
  cell_at m i j = Some cell ->
  exists letters letter k,
    nth_error rows i = Some letters /\ nth_error letters j = Some letter /\
    kind_of_letter letter = Ok k /\
    cell = new_cell cfg k (Z.of_nat i, Z.of_nat j).
Proof.
  intros Hm Hc. unfold cell_at in Hc.
  destruct (nth_error m i) as [row|] eqn:Er; [|discriminate].
  destruct (build_map_nth cfg 0 rows m Hm) as [_ Hnth].
  destruct (Hnth i row Er) as [letters [Hl Hrow]].
  destruct (build_row_nth cfg _ _ _ _ Hrow) as [_ Hnth'].
  destruct (Hnth' j cell Hc) as [letter [k [H1 [H2 H3]]]].
  exists letters, letter, k. simpl in H3. auto.
Qed.

Lemma all_ocean_nth (letters : list ascii) (j : nat) (letter : ascii) :
  all_ocean letters = true -> nth_error letters j = Some letter ->
  kind_of_letter letter = Ok Ocean.
Proof.
  unfold all_ocean. rewrite forallb_forall. intros H Hj.
  apply nth_error_In in Hj. apply H in Hj. apply Ascii.eqb_eq in Hj.
  subst letter. reflexivity.
Qed.

Lemma last_nth_error {A} (l : list A) (d x : A) :
  nth_error l (length l - 1) = Some x -> last l d = x.
Proof.
  induction l as [|y l IH]; [discriminate|].
  destruct l as [|z l'].
  - simpl. intros H. now injection H.
  - intros H. change (last (y :: z :: l') d) with (last (z :: l') d). apply IH.
    replace (length (y :: z :: l') - 1)%nat with (S (length l')) in H
      by (simpl; lia).
    replace (length (z :: l') - 1)%nat with (length l') by (simpl; lia).
    exact H.
Qed.

Lemma nth_error_removelast {A} (l : list A) (k : nat) :
  (S k < length l)%nat -> nth_error (removelast l) k = nth_error l k.
Proof.
  revert k. induction l as [|x l IH]; intros k H; simpl in *; [lia|].
  destruct l as [|y l']; [simpl in H; lia|].
  destruct k as [|k]; [reflexivity|].
  simpl. apply IH. simpl in *. lia.
Qed.

Lemma check_edges_nth (rows : list (list ascii)) (i : nat) (letters : list ascii) :
  check_edges rows = Ok tt -> nth_error rows i = Some letters ->
  py_get letters 0 = Ok "O"%char /\ py_get letters (-1) = Ok "O"%char.
Proof.
  revert i. induction rows as [|r rest IH]; intros i; simpl.
  - destruct i; discriminate.
  - destruct (py_get r 0) as [a|] eqn:Ea; [|discriminate].
    destruct (py_get r (-1)) as [b|] eqn:Eb; [|discriminate].
    destruct (negb (Ascii.eqb a "O") || negb (Ascii.eqb b "O"))%bool eqn:E;
      [discriminate|].
    apply orb_false_iff in E as [E1 E2].
    apply negb_false_iff, Ascii.eqb_eq in E1, E2. subst a b.
    intros H. destruct i as [|i]; simpl.
    + intros Hi. injection Hi as <-. auto.
    + eauto.
Qed.

Lemma new_island_inv (cfg : Config) (rows : list (list ascii)) (isl : Island) :
  new_island cfg rows = Ok isl ->
  exists first rest,
    rows = first :: rest /\ geogr isl = rows /\
    build_map cfg 0 rows = Ok (island_map isl) /\
    Forall (fun r => length r = length first) rows /\
    all_ocean first = true /\ all_ocean (last rows first) = true /\
    check_edges (removelast (tl rows)) = Ok tt.
Proof.
  unfold new_island. destruct rows as [|first rest]; [discriminate|].
  set (rows := first :: rest).
  set (w := fold_right Nat.max 0%nat (map (@length ascii) rows)).
  destruct (forallb (fun row_str => Nat.eqb (length row_str) w) rows) eqn:Ew;
    [|discriminate]. cbn [negb].
  destruct (all_ocean first) eqn:E1; [|discriminate]. cbn [negb].
  destruct (all_ocean (last rows first)) eqn:E2; [|discriminate]. cbn [negb].
  destruct (check_edges (removelast (tl rows))) as [[]|] eqn:E3; [|discriminate].
  destruct (build_map cfg 0 rows) as [m|] eqn:Em; [|discriminate].
  intros H. injection H as <-. exists first, rest. simpl.
  repeat split; auto.
  rewrite forallb_forall in Ew. apply Forall_forall. intros r Hr.
  pose proof (Ew r Hr) as H1. pose proof (Ew first (or_introl eq_refl)) as H2.
  apply Nat.eqb_eq in H1, H2. congruence.
Qed.

Lemma new_island_covered (cfg : Config) (rows : list (list ascii)) (isl : Island) :
  new_island cfg rows = Ok isl -> covered isl.
Proof.
  intros H.
  destruct (new_island_inv cfg rows isl H)
    as [first [rest [Erows [Hg [Hm [Hw [Ho1 [Ho2 He]]]]]]]].
  intros i j c Hc.
  destruct (build_map_cell_at cfg rows _ i j c Hm Hc)
    as [letters [letter [k [Hi [Hj [Hk ->]]]]]].
  assert (Hlen : length letters = length first).
  { rewrite Forall_forall in Hw. apply Hw. eapply nth_error_In; eassumption. }
  assert (Hil : (i < length rows)%nat) by (apply nth_error_Some; congruence).
  assert (Hjl : (j < length letters)%nat) by (apply nth_error_Some; congruence).
  assert (Hocean : kind_of_letter letter = Ok Ocean ->
                   animals_can_live_here (new_cell cfg k (Z.of_nat i, Z.of_nat j))
                   = false).
  { intros Ho. rewrite Hk in Ho. injection Ho as ->. reflexivity. }
  destruct (Nat.eq_dec i 0) as [Ei|Ei].
  { right. apply Hocean. subst i. subst rows. simpl in Hi. injection Hi as Hi.
    subst letters. exact (all_ocean_nth first j letter Ho1 Hj). }
  destruct (Nat.eq_dec i (length rows - 1)) as [Ei'|Ei'].
  { right. apply Hocean. subst i.
    rewrite (last_nth_error rows first letters Hi) in Ho2.
    exact (all_ocean_nth letters j letter Ho2 Hj). }
  assert (Hmid : nth_error (removelast (tl rows)) (i - 1) = Some letters).
  { rewrite nth_error_removelast.
    - subst rows. destruct i as [|i]; [lia|]. simpl. now rewrite Nat.sub_0_r.
    - subst rows. simpl in *. lia. }
  destruct (check_edges_nth _ _ _ He Hmid) as [Hfirst Hlast].
  destruct (Nat.eq_dec j 0) as [Ej|Ej].
  { right. apply Hocean. subst j.
    apply py_get_inv in Hfirst as [n [Hn Hnth]].
    change 0%Z with (Z.of_nat 0) in Hn.
    rewrite (py_index_nonneg (length letters) 0 Hjl) in Hn. injection Hn as <-.
    rewrite Hj in Hnth. injection Hnth as ->. reflexivity. }
  destruct (Nat.eq_dec j (length letters - 1)) as [Ej'|Ej'].
  { right. apply Hocean.
    apply py_get_inv in Hlast as [n [Hn Hnth]].
    unfold py_index in Hn. simpl in Hn.
    replace (- Z.of_nat (length letters) <=? -1)%Z with true in Hn
      by (symmetry; apply Z.leb_le; lia).
    injection Hn as <-.
    replace (Z.to_nat (Z.of_nat (length letters) + -1)) with j in Hnth by lia.
    rewrite Hj in Hnth. injection Hnth as ->. reflexivity. }
  left. apply In_interior_locations. rewrite Hg. subst rows. simpl nth.
  rewrite <- Hlen. simpl length in *. lia.
Qed.

Lemma new_island_empty (cfg : Config) (rows : list (list ascii)) (isl : Island) :
  new_island cfg rows = Ok isl -> all_cells empty_cell (island_map isl).
Proof.
  intros H.
  destruct (new_island_inv cfg rows isl H) as [first [rest [_ [_ [Hm _]]]]].
  apply all_cells_cell_at. intros i j c Hc.
  destruct (build_map_cell_at cfg rows _ i j c Hm Hc)
    as [letters [letter [k [_ [_ [_ ->]]]]]].
  repeat split.
Qed.

(** ** Placing populations *)

Lemma new_animal_ok (sp : Species) (w : R) (a : Z) :
  0 < w -> (0 <= a)%Z -> new_animal sp w a = Ok (mkAnimal sp w a).
Proof.
  intros Hw Ha. unfold new_animal.
  rewrite (proj2 (Rleb_false _ _) Hw).
  now replace (a <? 0)%Z with false by (symmetry; apply Z.ltb_ge; lia).
Qed.

Lemma place_rel_refl (c : Cell) : place_rel c c.
Proof. repeat split; auto. Qed.

Lemma place_rel_trans (x y z : Cell) : place_rel x y -> place_rel y z -> place_rel x z.
Proof.
  intros [[Hk1 Hl1] [A1 [B1 C1]]] [[Hk2 Hl2] [A2 [B2 C2]]].
  repeat split; try congruence.
  intros H. rewrite <- (C1 H). apply C2. rewrite (C1 H). exact H.
Qed.

Lemma add_population_loop_rel (pop : list PopAnimal) (c c' : Cell)
    (err : option Error) :
  animals_can_live_here c = true ->
  add_population_loop pop c = (c', err) -> place_rel c c'.
Proof.
  intros Hlive. revert c Hlive.
  induction pop as [|animal rest IH]; intros c Hlive; simpl.
  - intros H. injection H as <- _. apply place_rel_refl.
  - assert (Hstop : forall e : option Error, (c, e) = (c', err) -> place_rel c c').
    { intros e H. injection H as <- _. apply place_rel_refl. }
    destruct (_ || _)%bool.
    + destruct (new_animal Herbivore _ _) as [a|e]; [|apply Hstop].
      intros H. apply IH in H; [|exact Hlive].
      eapply place_rel_trans; [|exact H].
      repeat split. simpl. intros E. unfold animals_can_live_here in *.
      simpl in E. congruence.
    + destruct (_ || _)%bool; [|apply Hstop].
      destruct (new_animal Carnivore _ _) as [a|e]; [|apply Hstop].
      intros H. apply IH in H; [|exact Hlive].
      eapply place_rel_trans; [|exact H].
      repeat split. simpl. intros E. unfold animals_can_live_here in *.
      simpl in E. congruence.
Qed.

Lemma add_population_rel (pop : option (list PopAnimal)) (c c' : Cell)
    (err : option Error) :
  add_population pop c = (c', err) -> place_rel c c'.
Proof.
  unfold add_population.
  assert (Hstop : forall e : option Error, (c, e) = (c', err) -> place_rel c c').
  { intros e H. injection H as <- _. apply place_rel_refl. }
  destruct (kind c) eqn:Ek; destruct pop as [l|]; try apply Hstop;
    apply add_population_loop_rel; unfold animals_can_live_here; now rewrite Ek.
Qed.

Lemma place_animals_rel (population : list PopRecord) (isl isl' : Island)
    (err : option Error) :
  place_animals population isl = (isl', err) ->
  geogr isl' = geogr isl /\ rel2 place_rel (island_map isl) (island_map isl').
Proof.
  revert isl. induction population as [|pop rest IH]; intros isl;
    cbn [place_animals].
  - intros H. injection H as <- _. split; [reflexivity|].
    apply rel2_refl, place_rel_refl.
  - assert (Hstop : forall e : option Error,
               (isl, e) = (isl', err) ->
               geogr isl' = geogr isl /\
               rel2 place_rel (island_map isl) (island_map isl')).
    { intros e H. injection H as <- _. split; [reflexivity|].
      apply rel2_refl, place_rel_refl. }
    destruct (_ <? _)%Z; [apply Hstop|].
    destruct (nth_error (island_map isl) 0) as [row0|]; [|apply Hstop].
    destruct (_ <? _)%Z; [apply Hstop|].
    destruct (get_cell (island_map isl) _) as [cell|e] eqn:Ec; [|apply Hstop].
    destruct (animals_can_live_here cell) eqn:Elive; [|apply Hstop].
    destruct (add_population (p_pop pop) cell) as [cell' e] eqn:Ea.
    assert (Hstep : rel2 place_rel (island_map isl)
                      (alter_cell (fun _ => cell')
                         ((fst (p_loc pop) - 1)%Z, (snd (p_loc pop) - 1)%Z)
                         (island_map isl))).
    { eapply rel2_impl; [|apply rel2_alter_cell].
      intros c c' [->|[-> Hc]]; [apply place_rel_refl|].
      assert (c = cell) by congruence. subst c.
      eapply add_population_rel; eassumption. }
    destruct e as [e|].
    + intros H. injection H as <- _. split; [reflexivity|exact Hstep].
    + intros H. apply IH in H as [Hg Hrel]. split; [exact Hg|].
      eapply rel2_trans; [apply place_rel_trans|exact Hstep|exact Hrel].
Qed.

Lemma place_rel_step_rel (c c' : Cell) : place_rel c c' -> step_rel c c'.
Proof.
  intros [Hfr [A [B C]]]. split; [exact Hfr|].
  intros Hok Hlive. rewrite (same_frame_live _ _ Hfr) in Hlive.
  rewrite (C Hlive). now apply Hok.
Qed.

Lemma place_rel_no_staged (c c' : Cell) : place_rel c c' -> no_staged c -> no_staged c'.
Proof. intros [_ [A [B _]]] [H1 H2]. split; congruence. Qed.

Lemma add_population_loop_app (pre post : list PopAnimal) (c c1 : Cell) :
  add_population_loop pre c = (c1, None) ->
  add_population_loop (pre ++ post) c = add_population_loop post c1.
Proof.
  revert c. induction pre as [|animal rest IH]; intros c; simpl.
  - intros H. now injection H as <-.
  - destruct (_ || _)%bool.
    + destruct (new_animal Herbivore _ _) as [a|e]; [apply IH|discriminate].
    + destruct (_ || _)%bool; [|discriminate].
      destruct (new_animal Carnivore _ _) as [a|e]; [apply IH|discriminate].
Qed.

Lemma add_population_loop_unknown (bad : PopAnimal) (post : list PopAnimal)
    (c : Cell) :
  known_species (p_species bad) = false ->
  add_population_loop (bad :: post) c = (c, Some ValueError).
Proof.
  unfold known_species. intros H. simpl.
  apply orb_false_iff in H as [H H4]. apply orb_false_iff in H as [H H3].
  apply orb_false_iff in H as [H1 H2].
  now rewrite H1, H2, H3, H4.
Qed.

Lemma add_population_loop_count (pop : list PopAnimal) (c c' : Cell) :
  add_population_loop pop c = (c', None) ->
  (length (herb c') + length (carn c')
   = length (herb c) + length (carn c) + length pop)%nat.
Proof.
  revert c. induction pop as [|animal rest IH]; intros c; simpl.
  - intros H. injection H as <-. lia.
  - destruct (_ || _)%bool.
    + destruct (new_animal Herbivore _ _) as [a|e]; [|discriminate].
      intros H. apply IH in H. simpl in H. rewrite length_app in H. simpl in H. lia.
    + destruct (_ || _)%bool; [|discriminate].
      destruct (new_animal Carnivore _ _) as [a|e]; [|discriminate].
      intros H. apply IH in H. simpl in H. rewrite length_app in H. simpl in H. lia.
Qed.

Lemma place_animals_app (done rest : list PopRecord) (isl0 isl : Island) :
  place_animals done isl0 = (isl, None) ->
  place_animals (done ++ rest) isl0 = place_animals rest isl.
Proof.
  revert isl0. induction done as [|pop done' IH]; intros isl0;
    cbn [place_animals app].
  - intros H. now injection H as <-.
  - destruct (_ <? _)%Z; [discriminate|].
    destruct (nth_error (island_map isl0) 0) as [row0|]; [|discriminate].
    destruct (_ <? _)%Z; [discriminate|].
    destruct (get_cell (island_map isl0) _) as [cell|e]; [|discriminate].
    destruct (animals_can_live_here cell); [|discriminate].
    destruct (add_population (p_pop pop) cell) as [cell' [e|]]; [discriminate|].
    apply IH.
Qed.

(** C9 (as the code has it): in a batch whose earlier records were placed,
    a record whose 0-based row or column lies beyond the last row or column
    of the map, or whose location addresses a cell in which no animal can
    live, raises [ValueError] and leaves the island as it was before that
    record; an unknown species tag raises [ValueError] as well, with the
    animals listed before it in the record already added to the cell. *)
Theorem place_animals_errors (done : list PopRecord) (rec : PopRecord)
    (rest : list PopRecord) (isl0 isl : Island) :
  place_animals done isl0 = (isl, None) ->
  let row := (fst (p_loc rec) - 1)%Z in
  let col := (snd (p_loc rec) - 1)%Z in
  let m := island_map isl in
  ((Z.of_nat (length m) - 1 < row)%Z ->
   place_animals (done ++ rec :: rest) isl0 = (isl, Some ValueError)) /\
  (forall row0,
     (row <= Z.of_nat (length m) - 1)%Z -> nth_error m 0 = Some row0 ->
     (Z.of_nat (length row0) - 1 < col)%Z ->
     place_animals (done ++ rec :: rest) isl0 = (isl, Some ValueError)) /\
  (forall row0 cell,
     (row <= Z.of_nat (length m) - 1)%Z -> nth_error m 0 = Some row0 ->
     (col <= Z.of_nat (length row0) - 1)%Z ->
     get_cell m (row, col) = Ok cell ->
     (animals_can_live_here cell = false ->
      place_animals (done ++ rec :: rest) isl0 = (isl, Some ValueError)) /\
     (forall pre bad post cell1,
        animals_can_live_here cell = true ->
        p_pop rec = Some (pre ++ bad :: post) ->
        add_population_loop pre cell = (cell1, None) ->
        known_species (p_species bad) = false ->
        place_animals (done ++ rec :: rest) isl0
        = (with_map isl (alter_cell (fun _ => cell1) (row, col) m),
           Some ValueError) /\
        (length (herb cell1) + length (carn cell1)
         = length (herb cell) + length (carn cell) + length pre)%nat)).
Proof.
  intros Hdone row col m.
  rewrite (place_animals_app done (rec :: rest) isl0 isl Hdone).
  cbn [place_animals]. fold row col m.
  split; [|split].
  - intros H. now replace (Z.of_nat (length m) - 1 <? row)%Z with true
      by (symmetry; apply Z.ltb_lt; lia).
  - intros row0 Hrow Hrow0 Hcol.
    replace (Z.of_nat (length m) - 1 <? row)%Z with false
      by (symmetry; apply Z.ltb_ge; lia).
    rewrite Hrow0.
    now replace (Z.of_nat (length row0) - 1 <? col)%Z with true
      by (symmetry; apply Z.ltb_lt; lia).
  - intros row0 cell Hrow Hrow0 Hcol Hcell.
    replace (Z.of_nat (length m) - 1 <? row)%Z with false
      by (symmetry; apply Z.ltb_ge; lia).
    rewrite Hrow0.
    replace (Z.of_nat (length row0) - 1 <? col)%Z with false
      by (symmetry; apply Z.ltb_ge; lia).
    rewrite Hcell. split.
    + intros Hlive. now rewrite Hlive.
    + intros pre bad post cell1 Hlive Hpop Hpre Hbad. rewrite Hlive.
      split; [|now apply add_population_loop_count].
      unfold add_population. rewrite Hpop.
      rewrite (add_population_loop_app pre (bad :: post) cell cell1 Hpre).
      rewrite (add_population_loop_unknown bad post cell1 Hbad).
      unfold animals_can_live_here in Hlive.
      destruct (kind cell); try discriminate; reflexivity.
Qed.

(** ** Reachable islands *)

Lemma empty_cell_ok (c : Cell) : empty_cell c -> cell_ok c /\ no_staged c.
Proof. intros H. split; [intros _; exact H|split; apply H]. Qed.

Lemma all_cells_impl (P Q : Cell -> Prop) (m : Map) :
  (forall c, P c -> Q c) -> all_cells P m -> all_cells Q m.
Proof.
  intros H. unfold all_cells. intros Hm.
  eapply Forall_impl; [|exact Hm]. intros row. now apply Forall_impl.
Qed.

Lemma reachable_inv (cfg : Config) (isl : Island) :
  reachable cfg isl ->
  covered isl /\
  all_cells cell_ok (island_map isl) /\
  all_cells no_staged (island_map isl).
Proof.
  induction 1 as [rows isl Hnew | population isl Hreach [Hcov [Hok Hns]]
                  | o isl isl' k k' Hreach [Hcov [Hok Hns]] Hv Hcycle].
  - pose proof (new_island_empty cfg rows isl Hnew) as He.
    split; [eapply new_island_covered; eassumption|].
    split; eapply all_cells_impl; try exact He; intros c Hc;
      now apply empty_cell_ok.
  - destruct (place_animals population isl) as [isl' err] eqn:E. simpl.
    apply place_animals_rel in E as [Hg Hrel].
    assert (Hstep : rel2 step_rel (island_map isl) (island_map isl')).
    { eapply rel2_impl; [apply place_rel_step_rel|exact Hrel]. }
    split; [eapply covered_step; eassumption|].
    split; [eapply all_cells_step; eassumption|].
    eapply rel2_all_cells; [|exact Hrel|exact Hns].
    intros c c'. apply place_rel_no_staged.
  - destruct (annual_cycle_rel cfg o isl isl' k k' (proj1 Hv) Hcycle) as [Hg Hrel].
    split; [eapply covered_step; eassumption|].
    split; [eapply all_cells_step; eassumption|].
    eapply annual_cycle_no_staged; eassumption.
Qed.

(** ** Rounding *)

Lemma up_IZR (z : Z) : up (IZR z) = (z + 1)%Z.
Proof.
  symmetry. apply tech_up; rewrite plus_IZR; simpl; lra.
Qed.

Lemma round_half_even_IZR (z : Z) : round_half_even (IZR z) = z.
Proof.
  unfold round_half_even. rewrite up_IZR.
  replace (z + 1 - 1)%Z with z by lia.
  replace (IZR z - IZR z) with 0 by ring.
  now rewrite (proj2 (Rltb_true 0 (1 / 2))) by lra.
Qed.

Lemma py_round_IZR (z : Z) (ndigits : nat) : py_round (IZR z) ndigits = IZR z.
Proof.
  unfold py_round.
  assert (Hp : 10 ^ ndigits = IZR (10 ^ Z.of_nat ndigits)).
  { rewrite <- pow_IZR. reflexivity. }
  rewrite Hp, <- mult_IZR, round_half_even_IZR, mult_IZR.
  field. rewrite <- Hp. apply pow_nonzero. lra.
Qed.

(** Mountain and Ocean cells in exact arithmetic.  Adding a population to
    such a cell raises [ValueError] and its propensity is 0.  When the
    quotients of [prob_move] are exact they sum to 1, above every draw, so
    the destination [animal_moves_to] samples has a non-zero entry, and
    every reachable island, and every map the migration loops reach from a
    map with this property, keeps these cells empty.  The last two parts
    need the exact sum: [animal_moves_to_falls_through] at the end of the
    file shows what the loop does on a list that sums to [1 - 2^-53], as
    the binary64 quotients of the source can. *)
Theorem uninhabitable_cells_stay_empty (cfg : Config) :
  (forall c pop,
     animals_can_live_here c = false ->
     add_population (Some pop) c = (c, Some ValueError)) /\
  (forall neighbours a ek i cell x,
     nth_error neighbours i = Some cell ->
     animals_can_live_here cell = false ->
     nth_error (propensity cfg neighbours a ek) i = Some x -> x = 0) /\
  (forall o neighbours a sp pm k k' pos,
     0 <= uniform o k < 1 ->
     length neighbours = 4%nat ->
     prob_move cfg neighbours a sp = Ok pm ->
     animal_moves_to o pm k = Ok (pos, k') ->
     exists p cell,
       nth_error pm pos = Some p /\ p <> 0 /\
       nth_error neighbours pos = Some cell /\
       animals_can_live_here cell = true) /\
  (forall isl, reachable cfg isl -> all_cells cell_ok (island_map isl)) /\
  (forall o sp locs m k m' k',
     valid_oracle o ->
     all_cells cell_ok m ->
     foldM (cell_migration cfg o sp) locs m k = Ok (m', k') ->
     all_cells cell_ok m').
Proof.
  split; [|split; [|split; [|split]]].
  - intros c pop Hlive. unfold add_population, animals_can_live_here in *.
    destruct (kind c); try discriminate; reflexivity.
  - intros neighbours a ek i cell x Hc Hlive Hx.
    now apply (propensity_nth cfg neighbours a ek i cell x Hc Hx).
  - intros o neighbours a sp pm k k' pos Hr Hlen Hpm Hmv.
    assert (Hne : Rsum pm <> 0).
    { intros Hz. unfold animal_moves_to in Hmv. rewrite Hz in Hmv.
      rewrite (py_round_IZR 0 15) in Hmv.
      rewrite (proj2 (Reqb_false 0 1)) in Hmv by lra. discriminate. }
    destruct (sampled_neighbour_habitable cfg o neighbours a sp pm k k' pos
                Hr Hlen Hpm Hne Hmv) as [p [cell [H1 [H2 [H3 H4]]]]].
    exists p, cell. repeat split; auto. lra.
  - intros isl H. now apply reachable_inv in H.
  - intros o sp locs m k m' k' [Hr _] Hok H.
    apply (foldM_cell_migration_spec cfg o sp locs m m' k k' Hr) in H as [Hrel _].
    eapply all_cells_step; [|exact Hok].
    eapply rel2_impl; [apply (mig_rel_step_rel sp)|exact Hrel].
Qed.

Lemma count_no_staged (sp : Species) (m : Map) :
  all_cells no_staged m -> count_cells sp m = count_residents sp m.
Proof.
  unfold all_cells, count_residents. rewrite count_cells_sumn.
  induction 1 as [|row m Hrow Hm IH]; simpl; [reflexivity|].
  rewrite IH. f_equal.
  clear -Hrow. induction Hrow as [|c row [H1 H2] Hrow IH]; simpl; [reflexivity|].
  rewrite IH. f_equal. destruct sp; simpl; rewrite ?H1, ?H2; simpl; lia.
Qed.

(** The staging lists in exact arithmetic: when [annual_cycle] returns on
    a reachable island, the staging lists of every cell are empty, so the
    counts reported at the cycle boundary are counts of residents, although
    [total_num_animals] adds the staged immigrants to them.  The cells on
    the border are never committed; they are empty here because, with the
    exact sum of [prob_move], nothing is ever staged into them. *)
Theorem annual_cycle_commits_immigrants (cfg : Config) (o : Oracle)
    (isl isl' : Island) (k k' : nat) :
  reachable cfg isl ->
  valid_oracle o ->
  annual_cycle cfg o isl k = Ok (isl', k') ->
  all_cells no_staged (island_map isl') /\
  number_of_animals isl'
  = (count_residents Herbivore (island_map isl'),
     count_residents Carnivore (island_map isl')) /\
  (forall c sp,
     total_num_animals c sp
     = (length (residents sp c) + length (immigrants sp c))%nat).
Proof.
  intros Hreach Hv Hcycle.
  destruct (reachable_inv cfg isl Hreach) as [Hcov [Hok _]].
  pose proof (annual_cycle_no_staged cfg o isl isl' k k' Hv Hcov Hok Hcycle) as Hns.
  split; [exact Hns|]. split.
  - unfold number_of_animals. now rewrite !count_no_staged.
  - intros c sp. apply total_residents.
Qed.

(** ** The annual cycle returns *)

Lemma mapM_total {A B} (P : A -> Prop) (f : A -> M B) (l : list A) (k : nat) :
  (forall x k0, P x -> exists y k1, f x k0 = Ok (y, k1)) ->
  Forall P l -> exists l' k', mapM f l k = Ok (l', k').
Proof.
  intros Hf Hl. revert k. induction Hl as [|x l Hx Hl IH]; intros k; cbn [mapM].
  - exists [], k. reflexivity.
  - destruct (Hf x k Hx) as [y [k1 Hy]]. mstep Hy.
    destruct (IH k1) as [l' [k2 Hl']]. mstep Hl'.
    exists (y :: l'), k2. reflexivity.
Qed.

Lemma mapM_cells_total (P : Cell -> Prop) (f : Cell -> M Cell) (m : Map) (k : nat) :
  (forall c k0, P c -> exists c' k1, f c k0 = Ok (c', k1)) ->
  all_cells P m -> exists m' k', mapM (mapM f) m k = Ok (m', k').
Proof.
  intros Hf Hm. apply (mapM_total (Forall P)); [|exact Hm].
  intros row k0 Hrow. now apply (mapM_total P).
Qed.

Lemma Herbivore_eating_total (cfg : Config) (h : Animal) (food : R) :
  0 < food -> exists h' eaten, Herbivore_eating cfg h food = Ok (h', eaten).
Proof.
  intros H. unfold Herbivore_eating.
  rewrite (proj2 (Rltb_false food 0)) by lra.
  destruct (Rleb _ food); eauto.
Qed.

Lemma herb_eating_loop_total (cfg : Config) (n k : nat) (hs : list Animal) (food : R) :
  (k + n <= length hs)%nat ->
  exists hs' food', herb_eating_loop cfg n k hs food = Ok (hs', food').
Proof.
  revert k hs food. induction n as [|n IH]; intros k hs food Hlen; simpl.
  - eauto.
  - destruct (Rltb 0 food) eqn:E; [|eauto].
    apply Rltb_true in E.
    destruct (nth_error hs k) as [h|] eqn:Eh.
    + destruct (Herbivore_eating_total cfg h food E) as [h' [eaten ->]].
      apply IH. rewrite list_set_length. lia.
    + apply nth_error_None in Eh. lia.
Qed.

Lemma herb_eating_total (cfg : Config) (c : Cell) :
  no_staged c -> exists c', herb_eating cfg c = Ok c'.
Proof.
  intros [H1 _]. unfold herb_eating.
  destruct (herb_eating_loop_total cfg
              (total_num_animals (fitness_sorting cfg true true c) Herbivore) 0
              (herb (fitness_sorting cfg true true c))
              (available_food (fitness_sorting cfg true true c)))
    as [hs [food ->]]; [|eauto].
  simpl. rewrite H1. simpl. lia.
Qed.

Lemma carn_kills_herb_total (cfg : Config) (o : Oracle) (c h : Animal) (k : nat) :
  exists b k', carn_kills_herb cfg o c h k = Ok (b, k').
Proof.
  unfold carn_kills_herb. destruct (_ && _)%bool; [|unfold ret; eauto].
  unfold bind, random. destruct (Rltb _ _); unfold ret; eauto.
Qed.

Lemma Carnivore_eating_loop_total (cfg : Config) (o : Oracle)
    (herbivores : list Animal) (c : Animal) (eaten : R) (surv : list Animal)
    (k : nat) :
  exists r k', Carnivore_eating_loop cfg o c eaten surv herbivores k = Ok (r, k').
Proof.
  revert c eaten surv k.
  induction herbivores as [|h rest IH]; intros c eaten surv k;
    cbn [Carnivore_eating_loop].
  - unfold ret. eauto.
  - destruct (_ || _)%bool; [unfold ret; eauto|].
    destruct (carn_kills_herb_total cfg o c h k) as [b [k1 Hb]]. mstep Hb.
    destruct b; [destruct (Rltb _ _)|]; apply IH.
Qed.

Lemma carn_eating_loop_total (cfg : Config) (o : Oracle) (carns herbs : list Animal)
    (k : nat) :
  exists r k', carn_eating_loop cfg o carns herbs k = Ok (r, k').
Proof.
  revert herbs k. induction carns as [|c rest IH]; intros herbs k;
    cbn [carn_eating_loop].
  - unfold ret. eauto.
  - destruct herbs as [|h hs]; [unfold ret; eauto|].
    destruct (Rltb _ _); [unfold ret; eauto|].
    destruct (Carnivore_eating_loop_total cfg o (h :: hs) c 0 [] k)
      as [[c' herbs'] [k1 H1]].
    unfold Carnivore_eating. mstep H1.
    destruct (IH herbs' k1) as [[rest' herbs''] [k2 H2]]. mstep H2.
    unfold ret. eauto.
Qed.

Lemma carn_eating_total (cfg : Config) (o : Oracle) (c : Cell) (k : nat) :
  exists c' k', carn_eating cfg o c k = Ok (c', k').
Proof.
  unfold carn_eating.
  destruct (carn_eating_loop_total cfg o
              (carn (fitness_sorting cfg false true c))
              (herb (fitness_sorting cfg false true c)) k) as [[cs hs] [k1 H]].
  mstep H. unfold ret. eauto.
Qed.

Lemma birth_total (cfg : Config) (o : Oracle) (a : Animal) (n : Z) (k : nat) :
  exists r k', birth cfg o a n k = Ok (r, k').
Proof.
  unfold birth, bind, random, gauss, ret.
  destruct (Rltb (uniform o k) _); [|eauto].
  destruct (Rltb 0 _) eqn:E0; simpl; [|eauto].
  destruct (Rltb _ (weight a)); simpl; [|eauto].
  destruct (Rltb 0 (weight a - _)); [|eauto].
  apply Rltb_true in E0.
  unfold lift. rewrite new_animal_ok by (assumption || lia). eauto.
Qed.

Lemma newborns_loop_total (cfg : Config) (o : Oracle) (n : Z)
    (animals : list Animal) (k : nat) :
  exists r k', newborns_loop cfg o n animals k = Ok (r, k').
Proof.
  revert k. induction animals as [|a rest IH]; intros k; cbn [newborns_loop].
  - unfold ret. eauto.
  - destruct (birth_total cfg o a n k) as [[a' new] [k1 H1]]. mstep H1.
    destruct (IH k1) as [[rest' news] [k2 H2]]. mstep H2.
    unfold ret. eauto.
Qed.

Lemma animal_birth_total (cfg : Config) (o : Oracle) (c : Cell) (k : nat) :
  exists c' k', animal_birth cfg o c k = Ok (c', k').
Proof.
  unfold animal_birth, newborns.
  destruct (newborns_loop_total cfg o (Z.of_nat (length (herb c))) (herb c) k)
    as [[hs hnew] [k1 H1]]. mstep H1.
  destruct (newborns_loop_total cfg o (Z.of_nat (length (carn c))) (carn c) k1)
    as [[cs cnew] [k2 H2]]. mstep H2.
  unfold ret. eauto.
Qed.

Lemma survivors_total (cfg : Config) (o : Oracle) (l : list Animal) (k : nat) :
  exists l' k', survivors cfg o l k = Ok (l', k').
Proof.
  revert k. induction l as [|a rest IH]; intros k; cbn [survivors].
  - unfold ret. eauto.
  - assert (Hd : exists b, death cfg o a k = Ok (b, S k)).
    { unfold death, bind, random, ret. eauto. }
    destruct Hd as [b Hd]. mstep Hd.
    destruct (IH (S k)) as [rest' [k2 H2]]. mstep H2.
    unfold ret. eauto.
Qed.

Lemma animal_death_total (cfg : Config) (o : Oracle) (c : Cell) (k : nat) :
  exists c' k', animal_death cfg o c k = Ok (c', k').
Proof.
  unfold animal_death.
  destruct (survivors_total cfg o (herb c) k) as [hs [k1 H1]]. mstep H1.
  destruct (survivors_total cfg o (carn c) k1) as [cs [k2 H2]]. mstep H2.
  unfold ret. eauto.
Qed.

Lemma get_neighbours_rel2 (R : Cell -> Cell -> Prop) (m m' : Map)
    (locs : list (Z * Z)) (cells : list Cell) :
  rel2 R m m' -> get_neighbours m locs = Ok cells ->
  exists cells', get_neighbours m' locs = Ok cells' /\ Forall2 R cells cells'.
Proof.
  intros Hrel H. apply get_neighbours_Forall2 in H.
  induction H as [|l c locs cells Hc Hrest [cells' [IH1 IH2]]].
  - exists []. split; [reflexivity|constructor].
  - destruct (rel2_get_cell_l R m m' l c Hrel Hc) as [c' [Hc' HR]].
    exists (c' :: cells'). split; [|now constructor].
    simpl. now rewrite Hc', IH1.
Qed.

Lemma loc_ok_rel2 (R : Cell -> Cell -> Prop) (m m' : Map) (l : Z * Z) :
  (forall c c', R c c' -> same_frame c c') ->
  rel2 R m m' -> loc_ok m l -> loc_ok m' l.
Proof.
  intros Hfr Hrel [c [Hc [cells Hcells]]].
  destruct (rel2_get_cell_l R m m' l c Hrel Hc) as [c' [Hc' HR]].
  exists c'. split; [exact Hc'|].
  destruct (Hfr _ _ HR) as [_ Hloc].
  unfold neighbour_locations. rewrite Hloc.
  destruct (get_neighbours_rel2 R m m' _ cells Hrel Hcells) as [cells' [H _]].
  now exists cells'.
Qed.

Lemma moves_loop_total (p0 p1 p2 p3 rnd : R) :
  exists pos, moves_loop 3 [p0; p1; p2; p3] rnd 0 p0 = Ok pos /\ (pos < 4)%nat.
Proof.
  simpl. destruct (Rleb p0 rnd); [|exists 0%nat; split; [reflexivity|lia]].
  destruct (Rleb (p0 + p1) rnd); [|exists 1%nat; split; [reflexivity|lia]].
  destruct (Rleb (p0 + p1 + p2) rnd);
    [exists 3%nat|exists 2%nat]; split; (reflexivity || lia).
Qed.

Lemma animal_moves_to_total (o : Oracle) (pm : list R) (k : nat) :
  Rsum pm = 1 -> length pm = 4%nat ->
  exists pos, animal_moves_to o pm k = Ok (pos, S k) /\ (pos < 4)%nat.
Proof.
  intros Hs Hl. unfold animal_moves_to.
  rewrite Hs, (py_round_IZR 1 15), (proj2 (Reqb_true 1 1) eq_refl).
  cbn [negb]. unfold bind, random.
  destruct pm as [|p0 [|p1 [|p2 [|p3 [|]]]]]; try discriminate.
  destruct (moves_loop_total p0 p1 p2 p3 (uniform o k)) as [pos [Hpos Hlt]].
  exists pos. split; [|exact Hlt].
  cbn [nth_error]. unfold lift. cbv beta. now rewrite Hpos.
Qed.

Lemma prob_move_total (cfg : Config) (neighbours : list Cell) (a : Animal)
    (sp : Species) :
  F (params cfg a) <> 0 -> exists pm, prob_move cfg neighbours a sp = Ok pm.
Proof.
  intros HF.
  destruct (relative_abundance_ok cfg neighbours a sp HF) as [ek [Hek _]].
  unfold prob_move. rewrite Hek. destruct (Reqb _ 0); eauto.
Qed.

Lemma prob_move_length (cfg : Config) (neighbours : list Cell) (a : Animal)
    (sp : Species) (pm : list R) :
  length neighbours = 4%nat ->
  prob_move cfg neighbours a sp = Ok pm -> length pm = 4%nat.
Proof.
  intros Hlen. unfold prob_move.
  destruct (relative_abundance_of_fodder cfg neighbours a sp) as [ek|] eqn:Eek;
    [|discriminate].
  destruct (Reqb _ 0); intros H; injection H as <-; [reflexivity|].
  rewrite length_map, propensity_length; [exact Hlen|].
  eapply relative_abundance_length; eassumption.
Qed.

Lemma lift_Ok {A} (r : result A) (x : A) (k : nat) :
  r = Ok x -> lift r k = Ok (x, k).
Proof. intros ->. reflexivity. Qed.

Lemma migration_loop_total (cfg : Config) (o : Oracle) (sp : Species)
    (nlocs : list (Z * Z)) (animals : list Animal) :
  (forall a, F (params cfg a) <> 0) ->
  length nlocs = 4%nat ->
  forall (remaining : list Animal) (m : Map) (k : nat),
    (exists cells, get_neighbours m nlocs = Ok cells) ->
    exists r k', migration_loop cfg o sp nlocs animals remaining m k = Ok (r, k').
Proof.
  intros HF Hlen.
  induction animals as [|a rest IH]; intros remaining m k [cells Hcells];
    cbn [migration_loop].
  - unfold ret. eauto.
  - unfold bind at 1. unfold random.
    destruct (Rltb (uniform o k) (prob_migration cfg a)); [|apply IH; eauto].
    mstep (lift_Ok _ _ (S k) Hcells).
    destruct (prob_move_total cfg cells a sp (HF a)) as [pm Hpm].
    mstep (lift_Ok _ _ (S k) Hpm).
    assert (Hclen : length cells = 4%nat).
    { apply get_neighbours_Forall2 in Hcells.
      rewrite <- (Forall2_length' _ _ _ Hcells). exact Hlen. }
    destruct (Reqb (Rsum pm) 0) eqn:Es; [apply IH; eauto|].
    apply Reqb_false in Es.
    destruct (prob_move_inv cfg cells a sp pm Hpm Es) as [ek [_ [_ [_ [_ Hsum]]]]].
    destruct (animal_moves_to_total o pm (S k) Hsum
                (prob_move_length cfg cells a sp pm Hclen Hpm)) as [pos [Hmv Hlt]].
    mstep Hmv.
    destruct (nth_error nlocs pos) as [nl|] eqn:Enl.
    + apply IH.
      destruct (get_neighbours_rel2 _ _ _ nlocs cells
                  (rel2_alter_cell (add_immigrant sp a) m nl) Hcells)
        as [cells' [H _]].
      eauto.
    + apply nth_error_None in Enl. lia.
Qed.

Lemma cell_migration_total (cfg : Config) (o : Oracle) (sp : Species)
    (l : Z * Z) (m : Map) (k : nat) :
  (forall a, F (params cfg a) <> 0) ->
  loc_ok m l ->
  exists m' k', cell_migration cfg o sp l m k = Ok (m', k').
Proof.
  intros HF [c [Hc [cells Hcells]]]. unfold cell_migration.
  mstep (lift_Ok _ _ k Hc). mstep (lift_Ok _ _ k Hcells).
  destruct (migration_loop_total cfg o sp (neighbour_locations c)
              (residents sp c) HF eq_refl [] m k (ex_intro _ cells Hcells))
    as [[rem m1] [k1 H]].
  mstep H. unfold ret. eauto.
Qed.

Lemma mig_rel_same_frame (sp : Species) (c c' : Cell) :
  mig_rel sp c c' -> same_frame c c'.
Proof. intros H. apply H. Qed.

Lemma foldM_cell_migration_total (cfg : Config) (o : Oracle) (sp : Species)
    (locs : list (Z * Z)) (m : Map) (k : nat) :
  (forall i, 0 <= uniform o i < 1) ->
  (forall a, F (params cfg a) <> 0) ->
  Forall (loc_ok m) locs ->
  exists m' k', foldM (cell_migration cfg o sp) locs m k = Ok (m', k').
Proof.
  intros Hr HF. revert m k.
  induction locs as [|l locs IH]; intros m k Hlocs; cbn [foldM].
  - unfold ret. eauto.
  - inversion Hlocs as [|? ? Hl Hrest]; subst.
    destruct (cell_migration_total cfg o sp l m k HF Hl) as [m1 [k1 H1]].
    mstep H1.
    destruct (cell_migration_spec cfg o sp l m m1 k k1 Hr H1) as [Hrel _].
    apply IH. eapply Forall_impl; [|exact Hrest].
    intros l'. apply (loc_ok_rel2 (mig_rel sp)); [apply mig_rel_same_frame|exact Hrel].
Qed.

Lemma get_neighbours_total (m : Map) (locs : list (Z * Z)) :
  Forall (loc_ok m) locs -> exists cells, get_neighbours m locs = Ok cells.
Proof.
  induction 1 as [|l locs [c [Hc _]] Hrest [cells IH]]; simpl.
  - eauto.
  - rewrite Hc, IH. eauto.
Qed.

Lemma commit_rel_same_frame (c c' : Cell) : commit_rel c c' -> same_frame c c'.
Proof. intros H. now apply commit_rel_props in H. Qed.

Lemma animals_migrate_total (cfg : Config) (o : Oracle) (isl : Island) (k : nat) :
  valid_oracle o ->
  (forall a, F (params cfg a) <> 0) ->
  wf_island isl ->
  exists isl' k', animals_migrate cfg o isl k = Ok (isl', k').
Proof.
  intros [Hr Hperm] HF Hwf. unfold animals_migrate, randomize_cell_structure.
  set (locs := shuffle o k (interior_locations isl)).
  assert (Hlocs : Forall (loc_ok (island_map isl)) locs).
  { apply Forall_forall. intros l Hl. apply Hwf.
    eapply Permutation_in; [apply Hperm|exact Hl]. }
  destruct (get_neighbours_total _ _ Hlocs) as [cells Hcells].
  assert (Hrnd : (locations <- (fun k0 => Ok (shuffle o k0 (interior_locations isl), S k0)) ;;
                  _ <- lift (get_neighbours (island_map isl) locations) ;;
                  ret locations) k = Ok (locs, S k)).
  { unfold bind at 1. fold locs. mstep (lift_Ok _ _ (S k) Hcells). reflexivity. }
  mstep Hrnd.
  destruct (foldM_cell_migration_total cfg o Herbivore locs _ (S k) Hr HF Hlocs)
    as [m1 [k1 H1]].
  mstep H1.
  destruct (foldM_cell_migration_spec cfg o Herbivore locs _ m1 _ _ Hr H1) as [R1 _].
  assert (Hlocs2 : Forall (loc_ok (commit_immigrants locs m1)) locs).
  { eapply Forall_impl; [|exact Hlocs]. intros l Hl.
    apply (loc_ok_rel2 commit_rel m1); [apply commit_rel_same_frame| |].
    - apply commit_immigrants_rel.
    - apply (loc_ok_rel2 (mig_rel Herbivore) (island_map isl));
        [apply mig_rel_same_frame|exact R1|exact Hl]. }
  destruct (foldM_cell_migration_total cfg o Carnivore locs _ k1 Hr HF Hlocs2)
    as [m3 [k3 H3]].
  mstep H3. unfold ret. eauto.
Qed.

Lemma wf_step (isl isl' : Island) :
  geogr isl' = geogr isl ->
  rel2 step_rel (island_map isl) (island_map isl') ->
  wf_island isl -> wf_island isl'.
Proof.
  intros Hg Hrel Hwf l Hl.
  apply (loc_ok_rel2 step_rel (island_map isl)); [intros c c' H; apply H|exact Hrel|].
  apply Hwf. unfold interior_locations in *. now rewrite <- Hg.
Qed.

Lemma build_map_dims (cfg : Config) (rows : list (list ascii)) (m : Map)
    (w : nat) (i j : nat) :
  build_map cfg 0 rows = Ok m ->
  Forall (fun r => length r = w) rows ->
  (i < length rows)%nat -> (j < w)%nat ->
  exists cell, cell_at m i j = Some cell /\ loc cell = (Z.of_nat i, Z.of_nat j).
Proof.
  intros Hm Hw Hi Hj.
  destruct (build_map_nth cfg 0 rows m Hm) as [Hlen Hnth].
  destruct (nth_error m i) as [row|] eqn:Er;
    [|apply nth_error_None in Er; lia].
  destruct (Hnth i row Er) as [letters [Hl Hrow]].
  destruct (build_row_nth cfg _ _ _ _ Hrow) as [Hrlen _].
  assert (Hll : length letters = w).
  { rewrite Forall_forall in Hw. apply Hw. eapply nth_error_In; eassumption. }
  destruct (nth_error row j) as [cell|] eqn:Ec;
    [|apply nth_error_None in Ec; lia].
  assert (Hcell : cell_at m i j = Some cell) by (unfold cell_at; now rewrite Er).
  exists cell. split; [exact Hcell|].
  destruct (build_map_cell_at cfg rows m i j cell Hm Hcell)
    as [? [? [k [_ [_ [_ ->]]]]]].
  reflexivity.
Qed.

Lemma new_island_wf (cfg : Config) (rows : list (list ascii)) (isl : Island) :
  new_island cfg rows = Ok isl -> wf_island isl.
Proof.
  intros H.
  destruct (new_island_inv cfg rows isl H)
    as [first [rest [Erows [Hg [Hm [Hw _]]]]]].
  intros [r c] Hl. apply In_interior_locations in Hl as [Hr Hc].
  rewrite Hg in Hr, Hc. rewrite Erows in Hc. simpl nth in Hc.
  assert (Hat : forall r' c',
             (0 <= r' < Z.of_nat (length rows))%Z ->
             (0 <= c' < Z.of_nat (length first))%Z ->
             exists cell, get_cell (island_map isl) (r', c') = Ok cell /\
                          loc cell = (r', c')).
  { intros r' c' Hr' Hc'.
    destruct (build_map_dims cfg rows _ (length first) (Z.to_nat r') (Z.to_nat c')
                Hm Hw ltac:(lia) ltac:(lia)) as [cell [Hcell Hloc]].
    exists cell. rewrite !Z2Nat.id in Hloc by lia. split; [|exact Hloc].
    apply get_cell_nonneg in Hcell. now rewrite !Z2Nat.id in Hcell by lia. }
  destruct (Hat r c ltac:(lia) ltac:(lia)) as [cell [Hcell Hloc]].
  exists cell. split; [exact Hcell|].
  unfold neighbour_locations. rewrite Hloc. simpl fst. simpl snd.
  destruct (Hat (r - 1)%Z c ltac:(lia) ltac:(lia)) as [c1 [H1 _]].
  destruct (Hat r (c + 1)%Z ltac:(lia) ltac:(lia)) as [c2 [H2 _]].
  destruct (Hat (r + 1)%Z c ltac:(lia) ltac:(lia)) as [c3 [H3 _]].
  destruct (Hat r (c - 1)%Z ltac:(lia) ltac:(lia)) as [c4 [H4 _]].
  exists [c1; c2; c3; c4]. cbn [get_neighbours]. now rewrite H1, H2, H3, H4.
Qed.

Lemma reachable_wf (cfg : Config) (isl : Island) :
  reachable cfg isl -> wf_island isl.
Proof.
  induction 1 as [rows isl Hnew | population isl Hreach IH
                  | o isl isl' k k' Hreach IH Hv Hcycle].
  - eapply new_island_wf; eassumption.
  - destruct (place_animals population isl) as [isl' err] eqn:E. simpl.
    apply place_animals_rel in E as [Hg Hrel].
    eapply wf_step; [exact Hg| |exact IH].
    eapply rel2_impl; [apply place_rel_step_rel|exact Hrel].
  - destruct (annual_cycle_rel cfg o isl isl' k k' (proj1 Hv) Hcycle) as [Hg Hrel].
    eapply wf_step; eassumption.
Qed.

Lemma params_F (cfg : Config) :
  F (herb_params cfg) <> 0 -> F (carn_params cfg) <> 0 ->
  forall a, F (params cfg a) <> 0.
Proof. intros Hh Hc a. unfold params. now destruct (species a). Qed.

(** On a reachable island, with the appetite [F] of neither species 0, the
    annual cycle raises no exception. *)
Lemma annual_cycle_total (cfg : Config) (o : Oracle) (isl : Island) (k : nat) :
  valid_oracle o ->
  F (herb_params cfg) <> 0 -> F (carn_params cfg) <> 0 ->
  reachable cfg isl ->
  exists isl' k', annual_cycle cfg o isl k = Ok (isl', k').
Proof.
  intros Hv Hh Hc Hreach.
  pose proof (reachable_wf cfg isl Hreach) as Hwf.
  destruct (reachable_inv cfg isl Hreach) as [_ [_ Hns]].
  pose proof (params_F cfg Hh Hc) as HF.
  unfold annual_cycle.
  destruct (food_growth_in_all_cells_rel cfg isl) as [G1 R1].
  assert (Hns1 : all_cells no_staged (island_map (food_growth_in_all_cells cfg isl))).
  { eapply rel2_inert_no_staged; [|exact Hns].
    eapply rel2_impl; [|exact R1]. intros c c' ->. apply food_growth_inert. }
  assert (H2 : exists isl2 k2,
             all_herb_eating cfg (food_growth_in_all_cells cfg isl) k = Ok (isl2, k2)).
  { unfold all_herb_eating.
    destruct (mapM_cells_total no_staged (fun cell => lift (herb_eating cfg cell))
                (island_map (food_growth_in_all_cells cfg isl)) k) as [m [k2 Hm]].
    - intros c k0 Hc0. destruct (herb_eating_total cfg c Hc0) as [c' Hc'].
      exists c', k0. now apply lift_Ok.
    - exact Hns1.
    - mstep Hm. unfold ret. eauto. }
  destruct H2 as [isl2 [k2 H2]]. mstep H2.
  assert (H3 : exists isl3 k3, all_carn_eating cfg o isl2 k2 = Ok (isl3, k3)).
  { unfold all_carn_eating.
    destruct (mapM_cells_total (fun _ => True) (carn_eating cfg o) (island_map isl2) k2)
      as [m [k3 Hm]].
    - intros c k0 _. apply carn_eating_total.
    - apply all_cells_cell_at. auto.
    - mstep Hm. unfold ret. eauto. }
  destruct H3 as [isl3 [k3 H3]]. mstep H3.
  assert (H4 : exists isl4 k4, animals_give_birth cfg o isl3 k3 = Ok (isl4, k4)).
  { unfold animals_give_birth.
    destruct (mapM_cells_total (fun _ => True) (animal_birth cfg o) (island_map isl3) k3)
      as [m [k4 Hm]].
    - intros c k0 _. apply animal_birth_total.
    - apply all_cells_cell_at. auto.
    - mstep Hm. unfold ret. eauto. }
  destruct H4 as [isl4 [k4 H4]]. mstep H4.
  assert (Hpre : (isl2' <- all_herb_eating cfg (food_growth_in_all_cells cfg isl) ;;
                  isl3' <- all_carn_eating cfg o isl2' ;;
                  animals_give_birth cfg o isl3') k = Ok (isl4, k4)).
  { mstep H2. mstep H3. exact H4. }
  apply before_migration_inert in Hpre as [G4 R4].
  assert (Hwf4 : wf_island isl4).
  { eapply wf_step; [exact G4| |exact Hwf].
    eapply rel2_impl; [apply inert_step_rel|exact R4]. }
  destruct (animals_migrate_total cfg o isl4 k4 Hv HF Hwf4) as [isl5 [k5 H5]].
  mstep H5.
  unfold animals_die.
  destruct (mapM_cells_total (fun _ => True) (animal_death cfg o)
              (island_map (all_animals_lose_weight cfg (all_animals_aging isl5))) k5)
    as [m [k6 Hm]].
  - intros c k0 _. apply animal_death_total.
  - apply all_cells_cell_at. auto.
  - mstep Hm. unfold ret. eauto.
Qed.

(** ** Conservation of the population *)

Lemma cons_rel_refl (c : Cell) : cons_rel c c.
Proof. repeat split; auto. Qed.

Lemma cons_rel_trans (x y z : Cell) : cons_rel x y -> cons_rel y z -> cons_rel x z.
Proof.
  intros [A1 [B1 [C1 [D1 E1]]]] [A2 [B2 [C2 [D2 E2]]]].
  repeat split; try congruence; try lia.
  intros Hx. rewrite E2, E1; auto.
  apply length_zero_iff_nil. rewrite C1, Hx. reflexivity.
Qed.

Lemma cons_rel_total (c c' : Cell) :
  cons_rel c c' ->
  total_num_animals c' Carnivore = total_num_animals c Carnivore /\
  (total_num_animals c' Herbivore <= total_num_animals c Herbivore)%nat /\
  (total_num_animals c Carnivore = 0%nat ->
   total_num_animals c' Herbivore = total_num_animals c Herbivore).
Proof.
  intros [A [B [C [D E]]]]. simpl. rewrite A, B, C.
  repeat split; try lia.
  intros H0. rewrite E; [reflexivity|].
  apply length_zero_iff_nil. lia.
Qed.

Lemma rel2_with_all_cells (R : Cell -> Cell -> Prop) (P : Cell -> Prop) (m m' : Map) :
  rel2 R m m' -> all_cells P m -> rel2 (fun c c' => R c c' /\ P c) m m'.
Proof.
  unfold rel2, all_cells. intros H. induction H as [|row row' m m' Hrow Hm IH];
    intros HP; [constructor|].
  inversion HP as [|? ? HProw HPm]; subst. constructor; [|now apply IH].
  clear -Hrow HProw. induction Hrow; [constructor|].
  inversion HProw; subst. constructor; auto.
Qed.

Lemma cons_rel_counts (m m' : Map) :
  rel2 cons_rel m m' ->
  count_cells Carnivore m' = count_cells Carnivore m /\
  (count_cells Herbivore m' <= count_cells Herbivore m)%nat /\
  (count_cells Carnivore m = 0%nat ->
   count_cells Herbivore m' = count_cells Herbivore m).
Proof.
  intros H. split; [|split].
  - eapply count_rel2; [|exact H]. intros c c' Hc. now apply cons_rel_total.
  - eapply count_rel2_le; [|exact H]. intros c c' Hc. now apply cons_rel_total.
  - intros H0. apply count_zero_cells in H0.
    eapply count_rel2; [|exact (rel2_with_all_cells _ _ _ _ H H0)].
    intros c c' [Hc Hz]. now apply cons_rel_total.
Qed.

Section ZeroBirthDeath.

Variable cfg : Config.
Variable o : Oracle.
Hypothesis Hvalid : valid_oracle o.
Hypothesis gamma_herb : gamma (herb_params cfg) = 0.
Hypothesis gamma_carn : gamma (carn_params cfg) = 0.
Hypothesis omega_herb : omega (herb_params cfg) = 0.
Hypothesis omega_carn : omega (carn_params cfg) = 0.

Lemma zero_gamma (a : Animal) : gamma (params cfg a) = 0.
Proof. unfold params. now destruct (species a). Qed.

Lemma zero_omega (a : Animal) : omega (params cfg a) = 0.
Proof. unfold params. now destruct (species a). Qed.

Lemma uniform_nonneg (i : nat) : 0 <= uniform o i.
Proof. apply Hvalid. Qed.

Lemma food_growth_cons (c : Cell) : cons_rel c (food_growth cfg c).
Proof.
  destruct (food_growth_lists cfg c) as [Hh Hc].
  destruct (food_growth_inert cfg c) as [_ [A [B _]]].
  repeat split; auto; try congruence. rewrite Hh. lia.
Qed.

Lemma herb_eating_cons (c c' : Cell) : herb_eating cfg c = Ok c' -> cons_rel c c'.
Proof.
  intros H. apply herb_eating_spec in H as [[_ [A [B _]]] [Hh Hc]].
  repeat split; auto. lia.
Qed.

Lemma carn_eating_cons (c c' : Cell) (k k' : nat) :
  carn_eating cfg o c k = Ok (c', k') -> cons_rel c c'.
Proof.
  intros H. apply carn_eating_spec in H as [[_ [A [B _]]] [Hh [Hc He]]].
  repeat split; auto.
Qed.

Lemma animal_birth_cons (c c' : Cell) (k k' : nat) :
  animal_birth cfg o c k = Ok (c', k') -> cons_rel c c'.
Proof.
  intros H. pose proof (animal_birth_inert _ _ _ _ _ _ H) as [_ [A [B _]]].
  apply (animal_birth_zero_gamma cfg o c c' k k' zero_gamma uniform_nonneg)
    in H as [Hh Hc].
  repeat split; auto; try congruence. rewrite Hh. lia.
Qed.

Lemma aging_cons (c : Cell) :
  cons_rel c (animal_aging c) /\ cons_rel c (animal_weight_change cfg c).
Proof.
  destruct (animal_aging_inert c cfg)
    as [[_ [A1 [B1 _]]] [H1 [C1 [[_ [A2 [B2 _]]] [H2 C2]]]]].
  split; repeat split; auto; lia.
Qed.

Lemma animal_death_cons (c c' : Cell) (k k' : nat) :
  animal_death cfg o c k = Ok (c', k') -> cons_rel c c'.
Proof.
  intros H. pose proof (animal_death_inert _ _ _ _ _ _ H) as [_ [A [B _]]].
  apply (animal_death_zero_omega cfg o c c' k k' zero_omega uniform_nonneg)
    in H as [Hh Hc].
  repeat split; auto; try congruence. rewrite Hh. lia.
Qed.

Lemma animals_give_birth_cons (isl isl' : Island) (k k' : nat) :
  animals_give_birth cfg o isl k = Ok (isl', k') ->
  rel2 cons_rel (island_map isl) (island_map isl').
Proof.
  intros H. apply animals_give_birth_rel in H as [_ R].
  eapply rel2_impl; [|exact R]. intros c c' [k1 [k2 Hc]].
  eapply animal_birth_cons; eassumption.
Qed.

Lemma after_migration_cons (isl5 isl' : Island) (k k' : nat) :
  animals_die cfg o (all_animals_lose_weight cfg (all_animals_aging isl5)) k
  = Ok (isl', k') ->
  rel2 cons_rel (island_map isl5) (island_map isl').
Proof.
  intros H. apply animals_die_rel in H as [_ R]. simpl in R.
  eapply rel2_trans; [apply cons_rel_trans| |].
  { eapply rel2_impl; [|apply (rel2_map animal_aging)].
    intros c c' ->. apply aging_cons. }
  eapply rel2_trans; [apply cons_rel_trans| |].
  { eapply rel2_impl; [|apply (rel2_map (animal_weight_change cfg))].
    intros c c' ->. apply aging_cons. }
  eapply rel2_impl; [|exact R]. intros c c' [k1 [k2 Hc]].
  eapply animal_death_cons; eassumption.
Qed.

(** From the birth phase to the end of the cycle both totals stay. *)
Lemma from_birth_counts (isl3 isl' : Island) (k k' : nat) :
  (isl4 <- animals_give_birth cfg o isl3 ;;
   isl5 <- animals_migrate cfg o isl4 ;;
   animals_die cfg o (all_animals_lose_weight cfg (all_animals_aging isl5))) k
  = Ok (isl', k') ->
  snd (number_of_animals isl') = snd (number_of_animals isl3) /\
  (fst (number_of_animals isl') <= fst (number_of_animals isl3))%nat /\
  (snd (number_of_animals isl3) = 0%nat ->
   fst (number_of_animals isl') = fst (number_of_animals isl3)).
Proof.
  intros H.
  apply bind_inv in H as [isl4 [k4 [H4 H]]].
  apply bind_inv in H as [isl5 [k5 [H5 H6]]].
  apply animals_give_birth_cons in H4. apply cons_rel_counts in H4 as [A4 [B4 C4]].
  apply (animals_migrate_rel cfg o _ _ _ _ (proj1 Hvalid)) in H5 as [_ [_ N5]].
  apply after_migration_cons in H6. apply cons_rel_counts in H6 as [A6 [B6 C6]].
  unfold number_of_animals in *. simpl in *. injection N5 as N5h N5c.
  split; [congruence|]. split; [lia|].
  intros H0. rewrite C6, N5h, C4; [reflexivity|exact H0|congruence].
Qed.

Lemma annual_cycle_counts (isl isl' : Island) (k k' : nat) :
  annual_cycle cfg o isl k = Ok (isl', k') ->
  snd (number_of_animals isl') = snd (number_of_animals isl) /\
  (fst (number_of_animals isl') <= fst (number_of_animals isl))%nat /\
  (snd (number_of_animals isl) = 0%nat ->
   fst (number_of_animals isl') = fst (number_of_animals isl)).
Proof.
  unfold annual_cycle. intros H.
  apply bind_inv in H as [isl2 [k2 [H2 H]]].
  apply bind_inv in H as [isl3 [k3 [H3 H]]].
  apply from_birth_counts in H as [A [B C]].
  apply all_herb_eating_rel in H2 as [_ R2].
  apply all_carn_eating_rel in H3 as [_ R3].
  assert (R : rel2 cons_rel (island_map isl) (island_map isl3)).
  { eapply rel2_trans; [apply cons_rel_trans| |].
    { eapply rel2_impl; [|apply (rel2_map (food_growth cfg))].
      intros c c' ->. apply food_growth_cons. }
    eapply rel2_trans; [apply cons_rel_trans| |].
    { eapply rel2_impl; [|exact R2]. intros c c'. apply herb_eating_cons. }
    eapply rel2_impl; [|exact R3]. intros c c' [k1 [k1' Hc]].
    eapply carn_eating_cons; eassumption. }
  apply cons_rel_counts in R as [A3 [B3 C3]].
  unfold number_of_animals in *. simpl in *.
  split; [congruence|]. split; [lia|].
  intros H0. rewrite C, C3; [reflexivity|exact H0|congruence].
Qed.

Lemma annual_cycles_counts (n : nat) (isl isl' : Island) (k k' : nat) :
  annual_cycles cfg o n isl k = Ok (isl', k') ->
  snd (number_of_animals isl') = snd (number_of_animals isl) /\
  (fst (number_of_animals isl') <= fst (number_of_animals isl))%nat /\
  (snd (number_of_animals isl) = 0%nat ->
   fst (number_of_animals isl') = fst (number_of_animals isl)).
Proof.
  revert isl k. induction n as [|n IH]; intros isl k H; cbn [annual_cycles] in H.
  - apply ret_inv in H as [-> _]. repeat split; auto.
  - apply bind_inv in H as [isl1 [k1 [H1 H]]].
    apply annual_cycle_counts in H1 as [A1 [B1 C1]].
    apply IH in H as [A [B C]].
    split; [congruence|]. split; [lia|].
    intros H0. rewrite C, C1; [reflexivity|exact H0|congruence].
Qed.

End ZeroBirthDeath.

(** ** Exact counts with no birth and no death *)

Lemma same_totals_intro (c c' : Cell) :
  inert c c' ->
  length (herb c') = length (herb c) -> length (carn c') = length (carn c) ->
  same_totals c c'.
Proof.
  intros [_ [A [B _]]] Hh Hc sp. destruct sp; simpl; rewrite ?A, ?B; lia.
Qed.

Lemma same_totals_trans (x y z : Cell) :
  same_totals x y -> same_totals y z -> same_totals x z.
Proof. intros H1 H2 sp. now rewrite H2, H1. Qed.

Lemma same_totals_counts (isl isl' : Island) :
  rel2 same_totals (island_map isl) (island_map isl') ->
  number_of_animals isl' = number_of_animals isl.
Proof.
  intros H. unfold number_of_animals. f_equal.
  - apply (count_rel2 same_totals); [intros c c' Hc; apply Hc|exact H].
  - apply (count_rel2 same_totals); [intros c c' Hc; apply Hc|exact H].
Qed.

Lemma herb_eating_phase_counts (cfg : Config) (isl isl2 : Island) (k k2 : nat) :
  all_herb_eating cfg (food_growth_in_all_cells cfg isl) k = Ok (isl2, k2) ->
  number_of_animals isl2 = number_of_animals isl.
Proof.
  intros H. apply all_herb_eating_rel in H as [_ R].
  apply same_totals_counts.
  eapply rel2_trans; [apply same_totals_trans| |].
  - eapply rel2_impl; [|apply (rel2_map (food_growth cfg))].
    intros c c' ->. destruct (food_growth_lists cfg c) as [Hh Hc].
    apply same_totals_intro; [apply food_growth_inert|now rewrite Hh|now rewrite Hc].
  - eapply rel2_impl; [|exact R]. intros c c' Hc.
    apply herb_eating_spec in Hc as [Hi [Hh Hc]].
    now apply same_totals_intro.
Qed.

Lemma carn_eating_phase_counts (cfg : Config) (o : Oracle) (isl2 isl3 : Island)
    (k2 k3 : nat) :
  all_carn_eating cfg o isl2 k2 = Ok (isl3, k3) ->
  snd (number_of_animals isl3) = snd (number_of_animals isl2) /\
  (fst (number_of_animals isl3) <= fst (number_of_animals isl2))%nat.
Proof.
  intros H. apply all_carn_eating_rel in H as [_ R].
  unfold number_of_animals. cbn [fst snd]. split.
  - eapply count_rel2; [|exact R]. intros c c' [k1 [k1' Hc]].
    apply carn_eating_spec in Hc as [[_ [A [B _]]] [_ [Hc _]]].
    simpl. now rewrite B, Hc.
  - eapply count_rel2_le; [|exact R]. intros c c' [k1 [k1' Hc]].
    apply carn_eating_spec in Hc as [[_ [A [B _]]] [Hh _]].
    simpl. rewrite A. lia.
Qed.

(** With [gamma] and [omega] zero nothing is born and nothing dies: from the
    birth phase to the end of the year both totals stay exactly. *)
Lemma after_feeding_counts (cfg : Config) (o : Oracle) (isl3 isl' : Island)
    (k k' : nat) :
  valid_oracle o ->
  gamma (herb_params cfg) = 0 -> gamma (carn_params cfg) = 0 ->
  omega (herb_params cfg) = 0 -> omega (carn_params cfg) = 0 ->
  (isl4 <- animals_give_birth cfg o isl3 ;;
   isl5 <- animals_migrate cfg o isl4 ;;
   animals_die cfg o (all_animals_lose_weight cfg (all_animals_aging isl5))) k
  = Ok (isl', k') ->
  number_of_animals isl' = number_of_animals isl3.
Proof.
  intros Hv G1 G2 W1 W2 H.
  assert (Hu : forall i, 0 <= uniform o i) by (intros i; apply Hv).
  apply bind_inv in H as [isl4 [k4 [H4 H]]].
  apply bind_inv in H as [isl5 [k5 [H5 H6]]].
  apply animals_give_birth_rel in H4 as [_ R4].
  apply (animals_migrate_rel cfg o _ _ _ _ (proj1 Hv)) in H5 as [_ [_ N5]].
  apply animals_die_rel in H6 as [_ R6]. cbn [island_map all_animals_lose_weight
    all_animals_aging with_map] in R6.
  assert (N4 : number_of_animals isl4 = number_of_animals isl3).
  { apply same_totals_counts. eapply rel2_impl; [|exact R4].
    intros c c' [k1 [k2 Hc]].
    pose proof (animal_birth_inert _ _ _ _ _ _ Hc) as Hi.
    apply (animal_birth_zero_gamma cfg o c c' k1 k2 (zero_gamma cfg G1 G2) Hu)
      in Hc as [Hh Hc].
    apply same_totals_intro; [exact Hi|now rewrite Hh|now rewrite Hc]. }
  assert (N6 : number_of_animals isl' = number_of_animals isl5).
  { apply same_totals_counts.
    eapply rel2_trans; [apply same_totals_trans| |].
    { eapply rel2_impl; [|apply (rel2_map animal_aging)].
      intros c c' ->. destruct (animal_aging_inert c cfg) as [A [B [C _]]].
      now apply same_totals_intro. }
    eapply rel2_trans; [apply same_totals_trans| |].
    { eapply rel2_impl; [|apply (rel2_map (animal_weight_change cfg))].
      intros c c' ->. destruct (animal_aging_inert c cfg) as [_ [_ [_ [A [B C]]]]].
      now apply same_totals_intro. }
    eapply rel2_impl; [|exact R6]. intros c c' [k1 [k2 Hc]].
    pose proof (animal_death_inert _ _ _ _ _ _ Hc) as Hi.
    apply (animal_death_zero_omega cfg o c c' k1 k2 (zero_omega cfg W1 W2) Hu)
      in Hc as [Hh Hc].
    apply same_totals_intro; [exact Hi|now rewrite Hh|now rewrite Hc]. }
  congruence.
Qed.

(** C2 (as the code has it): the migration phase leaves the island totals of
    both species unchanged.  With the birth and death probabilities forced
    to zero, a year changes the totals in one phase only, the feeding of
    the carnivores: the totals after [all_herb_eating] are those the year
    began with, [all_carn_eating] keeps the carnivore total and can only
    lower the herbivore total, by the herbivores killed, and the totals at
    the end of the year are those [all_carn_eating] left.  So any number of
    years keeps the carnivore total, never raises the herbivore total, and
    keeps both on an island without carnivores. *)
Theorem population_conserved (cfg : Config) (o : Oracle) :
  valid_oracle o ->
  (forall isl k isl' k',
     animals_migrate cfg o isl k = Ok (isl', k') ->
     number_of_animals isl' = number_of_animals isl) /\
  (gamma (herb_params cfg) = 0 -> gamma (carn_params cfg) = 0 ->
   omega (herb_params cfg) = 0 -> omega (carn_params cfg) = 0 ->
   (forall isl k isl' k',
      annual_cycle cfg o isl k = Ok (isl', k') ->
      exists isl2 k2 isl3 k3,
        all_herb_eating cfg (food_growth_in_all_cells cfg isl) k = Ok (isl2, k2) /\
        all_carn_eating cfg o isl2 k2 = Ok (isl3, k3) /\
        number_of_animals isl2 = number_of_animals isl /\
        snd (number_of_animals isl3) = snd (number_of_animals isl) /\
        (fst (number_of_animals isl3) <= fst (number_of_animals isl))%nat /\
        number_of_animals isl' = number_of_animals isl3) /\
   (forall n isl k isl' k',
      annual_cycles cfg o n isl k = Ok (isl', k') ->
      snd (number_of_animals isl') = snd (number_of_animals isl) /\
      (fst (number_of_animals isl') <= fst (number_of_animals isl))%nat /\
      (snd (number_of_animals isl) = 0%nat ->
       number_of_animals isl' = number_of_animals isl))).
Proof.
  intros Hv. split.
  - intros isl k isl' k' H.
    now apply (animals_migrate_rel cfg o isl isl' k k' (proj1 Hv)) in H.
  - intros G1 G2 W1 W2. split.
    + intros isl k isl' k' H. unfold annual_cycle in H.
      apply bind_inv in H as [isl2 [k2 [H2 H]]].
      apply bind_inv in H as [isl3 [k3 [H3 H]]].
      exists isl2, k2, isl3, k3.
      pose proof (herb_eating_phase_counts cfg isl isl2 k k2 H2) as N2.
      pose proof (carn_eating_phase_counts cfg o isl2 isl3 k2 k3 H3) as [A B].
      split; [exact H2|]. split; [exact H3|]. split; [exact N2|].
      rewrite N2 in A, B. split; [exact A|]. split; [exact B|].
      exact (after_feeding_counts cfg o isl3 isl' k3 k' Hv G1 G2 W1 W2 H).
    + intros n isl k isl' k' H.
      destruct (annual_cycles_counts cfg o Hv G1 G2 W1 W2 n isl isl' k k' H)
        as [A [B C]].
      split; [exact A|]. split; [exact B|].
      intros H0. specialize (C H0).
      destruct (number_of_animals isl'), (number_of_animals isl). simpl in *.
      congruence.
Qed.

(** ** Evaluation on sample islands *)

(** Unfolds everything but the arithmetic of the reals and the functions
    whose value is supplied by an equation. *)
Ltac rstep :=
  cbv -[Rltb Rleb Reqb IZR Rplus Rmult Rdiv Rminus Rinv Ropp exp INR
        py_round Rsum fitness prob_migration prob_move animal_moves_to
        carn_kills_herb birth death].

Lemma valid_zero_oracle : valid_oracle zero_oracle.
Proof. split; simpl; intros; [lra|reflexivity]. Qed.

Lemma prob_migration_pos (cfg : Config) (a : Animal) :
  0 < mu (params cfg a) -> 0 < prob_migration cfg a.
Proof.
  intros H. unfold prob_migration. pose proof (fitness_bounds cfg a). nra.
Qed.

Lemma abundance_divisor (n : nat) (f : R) : f <> 0 -> (INR n + 1) * f <> 0.
Proof.
  intros H. pose proof (pos_INR n).
  apply Rmult_integral_contrapositive_currified; lra.
Qed.

Lemma prob_move_east (cfg : Config) (n0 n1 n2 n3 : Cell) (a : Animal)
    (sp : Species) :
  F (params cfg a) <> 0 ->
  animals_can_live_here n0 = false -> animals_can_live_here n1 = true ->
  animals_can_live_here n2 = false -> animals_can_live_here n3 = false ->
  prob_move cfg [n0; n1; n2; n3] a sp = Ok [0; 1; 0; 0].
Proof.
  intros HF H0 H1 H2 H3. unfold prob_move. cbn [relative_abundance_of_fodder].
  rewrite !(proj2 (Reqb_false _ 0)) by (apply abundance_divisor; exact HF).
  cbn [propensity]. rewrite H0, H1, H2, H3. cbn [negb].
  match goal with |- context [exp ?t] => set (e := exp t);
    assert (He : 0 < e) by apply exp_pos end.
  assert (Hs : Rsum [0; e; 0; 0] = e) by (rewrite !Rsum_cons, Rsum_nil; lra).
  rewrite Hs. rewrite (proj2 (Reqb_false e 0)) by lra.
  cbn [map]. repeat f_equal; field; lra.
Qed.

Lemma prob_move_nowhere (cfg : Config) (n0 n1 n2 n3 : Cell) (a : Animal)
    (sp : Species) :
  F (params cfg a) <> 0 ->
  animals_can_live_here n0 = false -> animals_can_live_here n1 = false ->
  animals_can_live_here n2 = false -> animals_can_live_here n3 = false ->
  prob_move cfg [n0; n1; n2; n3] a sp = Ok [0; 0; 0; 0].
Proof.
  intros HF H0 H1 H2 H3. unfold prob_move. cbn [relative_abundance_of_fodder].
  rewrite !(proj2 (Reqb_false _ 0)) by (apply abundance_divisor; exact HF).
  cbn [propensity]. rewrite H0, H1, H2, H3. cbn [negb].
  assert (Hs : Rsum [0; 0; 0; 0] = 0) by (rewrite !Rsum_cons, Rsum_nil; lra).
  rewrite Hs. now rewrite (proj2 (Reqb_true 0 0) eq_refl).
Qed.

Lemma animal_moves_to_east (o : Oracle) (k : nat) :
  0 <= uniform o k < 1 ->
  animal_moves_to o [0; 1; 0; 0] k = Ok (1%nat, S k).
Proof.
  intros Hr. unfold animal_moves_to.
  assert (Hs : Rsum [0; 1; 0; 0] = 1) by (rewrite !Rsum_cons, Rsum_nil; lra).
  rewrite Hs, (py_round_IZR 1 15), (proj2 (Reqb_true 1 1) eq_refl).
  cbn [negb]. unfold bind, random. cbn [nth_error]. unfold lift. cbv beta.
  cbn [moves_loop nth_error Nat.eqb].
  rewrite (proj2 (Rleb_true 0 (uniform o k))) by lra.
  now rewrite (proj2 (Rleb_false (0 + 1) (uniform o k))) by lra.
Qed.

(** The island of [sample_rows] with [sample_pop] placed, and the migration
    of the herbivore of the cell at (1, 1), the first the loop visits. *)
Lemma sample_herb_migration :
  exists isl0 isl m1,
    new_island default_config sample_rows = Ok isl0 /\
    place_animals sample_pop isl0 = (isl, None) /\
    herb_migration default_config zero_oracle (1, 1)%Z (island_map isl) 0%nat
    = Ok (m1, 2%nat) /\
    (exists b food,
        get_cell (island_map isl) (1, 1)%Z
        = Ok (mkCell Jungle (1, 1)%Z [b] [] [] [] food)) /\
    (exists food, get_cell m1 (1, 1)%Z = Ok (mkCell Jungle (1, 1)%Z [] [] [] [] food)).
Proof.
  do 3 eexists. split; [rstep; reflexivity|]. split.
  { rstep. rewrite !(proj2 (Rleb_false 20 0)) by lra. rstep. reflexivity. }
  split.
  { rstep.
    rewrite (proj2 (Rltb_true 0 _)) by (apply prob_migration_pos; simpl; lra).
    rstep.
    rewrite prob_move_east by (reflexivity || (simpl; lra)).
    rstep.
    assert (Hs : Rsum [0; 1; 0; 0] = 1) by (rewrite !Rsum_cons, Rsum_nil; lra).
    rewrite Hs, (proj2 (Reqb_false 1 0)) by lra.
    fold zero_oracle.
    rewrite (animal_moves_to_east zero_oracle 1) by (simpl; lra).
    rstep. reflexivity. }
  split; [do 2 eexists; rstep; reflexivity|].
  eexists. rstep. reflexivity.
Qed.






(** ** A year with a carnivore and its prey *)

Lemma carn_kills_herb_draw (cfg : Config) (o : Oracle) (c h : Animal) (k : nat) :
  0 < fitness cfg c - fitness cfg h < DeltaPhiMax (params cfg c) ->
  uniform o k < prob_kill cfg c (fitness cfg h) ->
  carn_kills_herb cfg o c h k = Ok (true, S k).
Proof.
  intros [H1 H2] H3. unfold carn_kills_herb.
  rewrite (proj2 (Rltb_true _ _) H1), (proj2 (Rltb_true _ _) H2). simpl.
  unfold bind, random. now rewrite (proj2 (Rltb_true _ _) H3).
Qed.

Lemma prey_fitness :
  fitness no_birth_death_config (mkAnimal Herbivore (1 + 9 / 10 * 10) 40) = 1 / 4.
Proof.
  unfold fitness, _fitness. simpl.
  replace (1 + 9 / 10 * 10) with 10 by lra.
  rewrite !q_factor_half. lra.
Qed.

Lemma hunter_fitness :
  1 / 4 < fitness no_birth_death_config (mkAnimal Carnivore 20 60) < 1 / 2.
Proof.
  unfold fitness, _fitness. simpl. rewrite q_factor_half.
  pose proof (q_factor_above_half (- (4 / 10)) 20 4 ltac:(lra)).
  pose proof (q_factor_bounds (- (4 / 10)) 20 4). lra.
Qed.

Ltac fold_cfg c :=
  repeat match goal with
  | |- context [fitness ?c0 _] => progress change c0 with c
  | |- context [carn_kills_herb ?c0 _ _ _ _] => progress change c0 with c
  | |- context [birth ?c0 _ _ _ _] => progress change c0 with c
  | |- context [death ?c0 _ _ _] => progress change c0 with c
  | |- context [prob_migration ?c0 _] => progress change c0 with c
  | |- context [prob_move ?c0 _ _ _] => progress change c0 with c
  end.

Lemma prey_feeding :
  exists isl0 isl isl3,
    new_island no_birth_death_config single_rows = Ok isl0 /\
    place_animals prey_pop isl0 = (isl, None) /\
    number_of_animals isl = (1%nat, 1%nat) /\
    (isl2 <- all_herb_eating no_birth_death_config
               (food_growth_in_all_cells no_birth_death_config isl) ;;
     all_carn_eating no_birth_death_config zero_oracle isl2) 0%nat
    = Ok (isl3, 1%nat) /\
    number_of_animals isl3 = (0%nat, 1%nat).
Proof.
  pose proof prey_fitness as Hh. pose proof hunter_fitness as Hc.
  do 3 eexists. split; [rstep; reflexivity|]. split.
  { rstep. rewrite !(proj2 (Rleb_false _ 0)) by lra. rstep. reflexivity. }
  split; [reflexivity|].
  split.
  { rstep. rdecide. rstep. rdecide. rstep.
    fold_cfg no_birth_death_config. rewrite Hh. rdecide. rstep.
    fold_cfg no_birth_death_config. fold zero_oracle.
    rewrite (carn_kills_herb_draw no_birth_death_config zero_oracle _ _ 0).
    2:{ rewrite Hh. simpl. lra. }
    2:{ unfold prob_kill. rewrite Hh. simpl. lra. }
    rstep. rdecide. rstep. reflexivity. }
  reflexivity.
Qed.

(** C2 (as stated) fails: with the birth and death probabilities forced to
    zero, a year on the one-cell island with a light herbivore and a
    carnivore ends with the herbivore eaten. *)
Lemma predation_lowers_count :
  exists isl0 isl isl' k',
    gamma (herb_params no_birth_death_config) = 0 /\
    gamma (carn_params no_birth_death_config) = 0 /\
    omega (herb_params no_birth_death_config) = 0 /\
    omega (carn_params no_birth_death_config) = 0 /\
    new_island no_birth_death_config single_rows = Ok isl0 /\
    place_animals prey_pop isl0 = (isl, None) /\
    annual_cycle no_birth_death_config zero_oracle isl 0%nat = Ok (isl', k') /\
    number_of_animals isl = (1%nat, 1%nat) /\
    number_of_animals isl' = (0%nat, 1%nat).
Proof.
  destruct prey_feeding as [isl0 [isl [isl3 [Hnew [Hplace [Hn [Hfeed Hn3]]]]]]].
  assert (Hreach : reachable no_birth_death_config isl).
  { replace isl with (fst (place_animals prey_pop isl0)) by now rewrite Hplace.
    apply reach_place. now apply reach_new with single_rows. }
  destruct (annual_cycle_total no_birth_death_config zero_oracle isl 0
              valid_zero_oracle) as [isl' [k' Hcycle]];
    [simpl; lra|simpl; lra|exact Hreach|].
  exists isl0, isl, isl', k'.
  do 4 (split; [reflexivity|]).
  split; [exact Hnew|]. split; [exact Hplace|]. split; [exact Hcycle|].
  split; [exact Hn|].
  unfold annual_cycle in Hcycle.
  apply bind_inv in Hcycle as [isl2 [k2 [H2 Hcycle]]].
  apply bind_inv in Hcycle as [isl3' [k3 [H3 Hcycle]]].
  rewrite (bind_Ok _ _ _ _ _ H2), H3 in Hfeed. injection Hfeed as <- ->.
  apply (from_birth_counts no_birth_death_config zero_oracle valid_zero_oracle
           eq_refl eq_refl eq_refl eq_refl) in Hcycle as [A [B _]].
  rewrite Hn3 in A, B.
  destruct (number_of_animals isl') as [h c]. cbn [fst snd] in A, B.
  f_equal; lia.
Qed.

Lemma sample_island (cfg : Config) :
  exists isl0 isl,
    new_island cfg sample_rows = Ok isl0 /\
    place_animals sample_pop isl0 = (isl, None) /\
    number_of_animals isl = (2%nat, 0%nat).
Proof.
  do 2 eexists. split; [rstep; reflexivity|]. split.
  { rstep. rewrite !(proj2 (Rleb_false 20 0)) by lra. rstep. reflexivity. }
  reflexivity.
Qed.

Lemma sample_island_reachable (cfg : Config) (isl0 isl : Island) :
  new_island cfg sample_rows = Ok isl0 ->
  place_animals sample_pop isl0 = (isl, None) ->
  reachable cfg isl.
Proof.
  intros Hnew Hplace.
  replace isl with (fst (place_animals sample_pop isl0)) by now rewrite Hplace.
  apply reach_place. now apply reach_new with sample_rows.
Qed.

Lemma population_conserved_witness :
  exists isl0 isl isl' k' isl3,
    new_island no_birth_death_config single_rows = Ok isl0 /\
    place_animals prey_pop isl0 = (isl, None) /\
    number_of_animals isl = (1%nat, 1%nat) /\
    annual_cycle no_birth_death_config zero_oracle isl 0%nat = Ok (isl', k') /\
    (exists isl2 k2 k3,
       all_carn_eating no_birth_death_config zero_oracle isl2 k2 = Ok (isl3, k3)) /\
    number_of_animals isl' = number_of_animals isl3 /\
    snd (number_of_animals isl3) = 1%nat /\
    (fst (number_of_animals isl3) <= 1)%nat.
Proof.
  destruct prey_feeding as [isl0 [isl [_ [Hnew [Hplace [Hn _]]]]]].
  assert (Hreach : reachable no_birth_death_config isl).
  { replace isl with (fst (place_animals prey_pop isl0)) by now rewrite Hplace.
    apply reach_place. now apply reach_new with single_rows. }
  destruct (annual_cycle_total no_birth_death_config zero_oracle isl 0
              valid_zero_oracle) as [isl' [k' Hcycle]];
    [simpl; lra|simpl; lra|exact Hreach|].
  destruct (population_conserved no_birth_death_config zero_oracle
              valid_zero_oracle) as [_ Hcons].
  destruct (Hcons eq_refl eq_refl eq_refl eq_refl) as [Hyear _].
  destruct (Hyear isl 0%nat isl' k' Hcycle)
    as [isl2 [k2 [isl3 [k3 [_ [H3 [_ [A [B C]]]]]]]]].
  rewrite Hn in A, B. cbn [fst snd] in A, B.
  exists isl0, isl, isl', k', isl3.
  split; [exact Hnew|]. split; [exact Hplace|]. split; [exact Hn|].
  split; [exact Hcycle|]. split; [now exists isl2, k2, k3|].
  split; [exact C|]. split; [exact A|exact B].
Defined.

Lemma annual_cycle_commits_immigrants_witness :
  exists isl0 isl isl' k',
    new_island default_config sample_rows = Ok isl0 /\
    place_animals sample_pop isl0 = (isl, None) /\
    annual_cycle default_config zero_oracle isl 0%nat = Ok (isl', k') /\
    all_cells no_staged (island_map isl') /\
    number_of_animals isl'
    = (count_residents Herbivore (island_map isl'),
       count_residents Carnivore (island_map isl')).
Proof.
  destruct (sample_island default_config) as [isl0 [isl [Hnew [Hplace Hn]]]].
  pose proof (sample_island_reachable _ _ _ Hnew Hplace) as Hreach.
  destruct (annual_cycle_total default_config zero_oracle isl 0
              valid_zero_oracle) as [isl' [k' Hrun]];
    [simpl; lra|simpl; lra|exact Hreach|].
  exists isl0, isl, isl', k'.
  split; [exact Hnew|]. split; [exact Hplace|]. split; [exact Hrun|].
  destruct (annual_cycle_commits_immigrants default_config zero_oracle isl isl'
              0 k' Hreach valid_zero_oracle Hrun) as [A [B _]].
  split; [exact A|exact B].
Defined.

Lemma place_animals_errors_witness :
  exists isl0,
    new_island default_config single_rows = Ok isl0 /\
    place_animals [mkPopRecord (5, 5)%Z (Some [mkPopAnimal "Herbivore" 5 20])] isl0
    = (isl0, Some ValueError).
Proof.
  eexists. split; [rstep; reflexivity|].
  apply (proj1 (place_animals_errors []
                  (mkPopRecord (5, 5)%Z (Some [mkPopAnimal "Herbivore" 5 20]))
                  [] _ _ eq_refl)).
  simpl. lia.
Defined.

(** C9 (as stated) fails: a record that lists a herbivore and then an
    unknown species raises [ValueError] with the herbivore already in the
    cell; and the 1-indexed location (-1, 2), which is not on the 3 x 3
    map, is read as a negative index and the record is placed. *)
Lemma place_animals_partial :
  exists isl0 isl1 isl2,
    new_island default_config single_rows = Ok isl0 /\
    number_of_animals isl0 = (0%nat, 0%nat) /\
    place_animals [mkPopRecord (2, 2)%Z (Some [mkPopAnimal "Herbivore" 5 20;
                                               mkPopAnimal "Zebra" 5 20])] isl0
    = (isl1, Some ValueError) /\
    number_of_animals isl1 = (1%nat, 0%nat) /\
    place_animals [mkPopRecord (-1, 2)%Z (Some [mkPopAnimal "Herbivore" 5 20])] isl0
    = (isl2, None) /\
    number_of_animals isl2 = (1%nat, 0%nat).
Proof.
  do 3 eexists. split; [rstep; reflexivity|]. split; [reflexivity|].
  split.
  { rstep. rewrite !(proj2 (Rleb_false 20 0)) by lra. rstep. reflexivity. }
  split; [reflexivity|]. split.
  { rstep. rewrite !(proj2 (Rleb_false 20 0)) by lra. rstep. reflexivity. }
  reflexivity.
Qed.

(** * Further properties *)

(** ** The animals *)

(** X2: a herbivore offered a non-negative amount of fodder eats the
    smaller of its appetite [F] and the amount offered and gains [beta]
    times what it ate; a negative amount raises [ValueError]. *)
Theorem Herbivore_eating_spec (cfg : Config) (a : Animal) (food : R) :
  (food < 0 -> Herbivore_eating cfg a food = Err ValueError) /\
  (0 <= food ->
   Herbivore_eating cfg a food
   = Ok (set_weight a (weight a + beta (herb_params cfg)
                                  * Rmin (F (herb_params cfg)) food),
         Rmin (F (herb_params cfg)) food)).
Proof.
  unfold Herbivore_eating. split; intros H.
  - now rewrite (proj2 (Rltb_true food 0) H).
  - rewrite (proj2 (Rltb_false food 0) H).
    destruct (Rleb (F (herb_params cfg)) food) eqn:E.
    + apply Rleb_true in E. now rewrite Rmin_left.
    + apply Rleb_false in E. rewrite Rmin_right by lra. reflexivity.
Qed.

Lemma subseq_refl {A} (l : list A) : subseq l l.
Proof. induction l; constructor; assumption. Qed.

Lemma subseq_length {A} (l1 l2 : list A) :
  subseq l1 l2 -> (length l1 <= length l2)%nat.
Proof. induction 1; simpl; lia. Qed.

Lemma subseq_In {A} (l1 l2 : list A) (x : A) : subseq l1 l2 -> In x l1 -> In x l2.
Proof. induction 1; simpl; intuition. Qed.

Lemma Carnivore_eating_loop_spec (cfg : Config) (o : Oracle)
    (herbivores : list Animal) (c c' : Animal) (eaten : R)
    (surv0 surv : list Animal) (k k' : nat) :
  eaten <= F (carn_params cfg) ->
  Carnivore_eating_loop cfg o c eaten surv0 herbivores k = Ok ((c', surv), k') ->
  exists rest,
    surv = surv0 ++ rest /\ subseq rest herbivores /\
    species c' = species c /\ age c' = age c /\
    (eaten = F (carn_params cfg) -> rest = herbivores) /\
    weight c'
    = weight c
      + (Rmin (F (carn_params cfg))
              (eaten + (Rsum (map (@weight_of_animal) herbivores)
                        - Rsum (map (@weight_of_animal) rest)))
         - eaten) * beta (carn_params cfg).
Proof.
  revert c eaten surv0 k.
  induction herbivores as [|h rest IH]; intros c eaten surv0 k He H;
    cbn [Carnivore_eating_loop] in H.
  - apply ret_inv in H as [H _]. injection H as -> ->.
    exists []. rewrite app_nil_r. repeat split; auto; [constructor|].
    simpl. rewrite Rsum_nil, Rmin_right by lra. lra.
  - destruct (Rleb (fitness cfg c) (fitness cfg h)) eqn:E1; cbn [orb] in H.
    { apply ret_inv in H as [H _]. injection H as -> ->.
      exists (h :: rest). repeat split; auto; [apply subseq_refl|].
      rewrite Rmin_right by lra. lra. }
    destruct (Reqb eaten (F (carn_params cfg))) eqn:E2.
    { apply ret_inv in H as [H _]. injection H as -> ->.
      exists (h :: rest). repeat split; auto; [apply subseq_refl|].
      rewrite Rmin_right by lra. lra. }
    apply Reqb_false in E2.
    apply bind_inv in H as [killed [k1 [_ H]]].
    destruct killed.
    + destruct (Rltb (F (carn_params cfg)) (eaten + weight_of_animal h)) eqn:E3.
      * apply Rltb_true in E3.
        apply IH in H as [rs [-> [Hsub [Hsp [Hag [Hfull Hw]]]]]]; [|lra].
        specialize (Hfull eq_refl). subst rs.
        exists rest. split; [reflexivity|]. split; [now constructor|].
        split; [exact Hsp|]. split; [exact Hag|]. split; [intros; lra|].
        rewrite Hw. simpl. rewrite Rsum_cons.
        rewrite !Rmin_left by lra. ring.
      * apply Rltb_false in E3.
        apply IH in H as [rs [-> [Hsub [Hsp [Hag [Hfull Hw]]]]]]; [|lra].
        exists rs. split; [reflexivity|]. split; [now constructor|].
        split; [exact Hsp|]. split; [exact Hag|]. split; [intros; lra|].
        rewrite Hw. simpl. rewrite Rsum_cons.
        replace (eaten + weight_of_animal h
                 + (Rsum (map (@weight_of_animal) rest)
                    - Rsum (map (@weight_of_animal) rs)))
          with (eaten + (weight_of_animal h + Rsum (map (@weight_of_animal) rest)
                         - Rsum (map (@weight_of_animal) rs))) by lra.
        ring.
    + apply IH in H as [rs [-> [Hsub [Hsp [Hag [Hfull Hw]]]]]]; [|lra].
      exists (h :: rs). rewrite <- app_assoc. split; [reflexivity|].
      split; [now constructor|].
      split; [exact Hsp|]. split; [exact Hag|]. split; [intros; lra|].
      rewrite Hw. simpl. rewrite !Rsum_cons.
      replace (weight_of_animal h + Rsum (map (@weight_of_animal) rest)
               - (weight_of_animal h + Rsum (map (@weight_of_animal) rs)))
        with (Rsum (map (@weight_of_animal) rest)
              - Rsum (map (@weight_of_animal) rs)) by lra.
      reflexivity.
Qed.

(** X3: one meal of a carnivore, its appetite [F] not negative.  The
    herbivores left are the offered ones in their order with the killed
    ones taken out; the carnivore keeps its species and age and gains
    [beta] times the smaller of [F] and the total weight of the killed. *)
Theorem Carnivore_eating_spec (cfg : Config) (o : Oracle) (c c' : Animal)
    (herbivores surv : list Animal) (k k' : nat) :
  0 <= F (carn_params cfg) ->
  Carnivore_eating cfg o c herbivores k = Ok ((c', surv), k') ->
  subseq surv herbivores /\
  species c' = species c /\ age c' = age c /\
  weight c'
  = weight c
    + Rmin (F (carn_params cfg))
           (Rsum (map (@weight_of_animal) herbivores)
            - Rsum (map (@weight_of_animal) surv))
      * beta (carn_params cfg).
Proof.
  intros HF H. unfold Carnivore_eating in H.
  apply Carnivore_eating_loop_spec in H as [rs [-> [Hsub [Hsp [Hag [_ Hw]]]]]];
    [|exact HF].
  simpl. repeat split; auto.
  rewrite Hw. rewrite Rplus_0_l, Rminus_0_r. reflexivity.
Qed.

Lemma Carnivore_eating_spec_witness :
  exists c' k',
    Carnivore_eating no_birth_death_config zero_oracle (mkAnimal Carnivore 20 60)
                     [mkAnimal Herbivore (1 + 9 / 10 * 10) 40] 0%nat
    = Ok ((c', []), k') /\
    weight c' = 20 + Rmin 50 (Rsum [1 + 9 / 10 * 10] - Rsum []) * (75 / 100).
Proof.
  pose proof prey_fitness as Hh. pose proof hunter_fitness as Hc.
  assert (Hrun : Carnivore_eating no_birth_death_config zero_oracle
                   (mkAnimal Carnivore 20 60)
                   [mkAnimal Herbivore (1 + 9 / 10 * 10) 40] 0%nat
                 = Ok ((mkAnimal Carnivore (20 + (1 + 9 / 10 * 10) * (75 / 100)) 60,
                        []), 1%nat)).
  { unfold Carnivore_eating. cbn [Carnivore_eating_loop].
    rewrite Hh. rewrite (proj2 (Rleb_false _ _)) by lra.
    rewrite (proj2 (Reqb_false 0 _)) by (simpl; lra). cbn [orb]. unfold bind at 1.
    rewrite (carn_kills_herb_draw no_birth_death_config zero_oracle _ _ 0%nat).
    2:{ rewrite Hh. simpl. lra. }
    2:{ unfold prob_kill. rewrite Hh. simpl. lra. }
    rewrite (proj2 (Rltb_false _ _)) by (simpl; lra).
    reflexivity. }
  do 2 eexists. split; [exact Hrun|].
  apply (Carnivore_eating_spec no_birth_death_config zero_oracle
           (mkAnimal Carnivore 20 60) _
           [mkAnimal Herbivore (1 + 9 / 10 * 10) 40] [] 0%nat 1%nat
           ltac:(simpl; lra) Hrun).
Defined.

Lemma birth_inv (cfg : Config) (o : Oracle) (a a' : Animal) (n : Z)
    (new : option Animal) (k k' : nat) :
  birth cfg o a n k = Ok ((a', new), k') ->
  match new with
  | None => a' = a
  | Some b =>
    species b = species a /\ age b = 0%Z /\
    0 < weight b < weight a /\
    species a' = species a /\ age a' = age a /\
    weight a' = weight a - xi (params cfg a) * weight b /\
    0 < weight a'
  end.
Proof.
  unfold birth. intros H.
  apply bind_inv in H as [r [k1 [_ H]]].
  destruct (Rltb r (probability_birth cfg a n));
    [|apply ret_inv in H as [H _]; now injection H as -> ->].
  apply bind_inv in H as [w [k2 [_ H]]].
  destruct (Rltb 0 w) eqn:E0; cbn [andb] in H;
    [|apply ret_inv in H as [H _]; now injection H as -> ->].
  destruct (Rltb w (weight a)) eqn:E1;
    [|apply ret_inv in H as [H _]; now injection H as -> ->].
  destruct (Rltb 0 (weight a - xi (params cfg a) * w)) eqn:E2;
    [|apply ret_inv in H as [H _]; now injection H as -> ->].
  apply Rltb_true in E0, E1, E2.
  apply bind_inv in H as [b [k3 [Hb H]]].
  apply lift_inv in Hb as [Hb _].
  rewrite new_animal_ok in Hb by (assumption || lia). injection Hb as <-.
  apply ret_inv in H as [H _]. injection H as -> ->.
  simpl. repeat split; auto.
Qed.

(** X4: what [birth] returns.  Without a newborn the mother is as she was.
    A newborn has the mother's species, age 0 and a weight strictly between
    0 and the mother's weight before the birth, and the mother loses [xi]
    times that weight and stays strictly heavier than 0. *)
Theorem birth_spec (cfg : Config) (o : Oracle) (a a' : Animal) (n : Z)
    (new : option Animal) (k k' : nat) :
  birth cfg o a n k = Ok ((a', new), k') ->
  match new with
  | None => a' = a
  | Some b =>
    species b = species a /\ age b = 0%Z /\
    0 < weight b < weight a /\
    species a' = species a /\ age a' = age a /\
    weight a' = weight a - xi (params cfg a) * weight b /\
    0 < weight a'
  end.
Proof. apply birth_inv. Qed.

Lemma birth_spec_witness :
  exists a' b k',
    birth default_config zero_oracle (mkAnimal Herbivore 40 5) 2 0%nat
    = Ok ((a', Some b), k') /\
    species b = Herbivore /\ age b = 0%Z /\ 0 < weight b < 40 /\
    weight a' = 40 - 12 / 10 * weight b.
Proof.
  assert (Hrun : birth default_config zero_oracle (mkAnimal Herbivore 40 5) 2 0%nat
                 = Ok ((mkAnimal Herbivore (40 - 12 / 10 * (8 + 0 * (15 / 10))) 5,
                        Some (mkAnimal Herbivore (8 + 0 * (15 / 10)) 0)), 2%nat)).
  { unfold birth, bind, random, gauss. cbn [uniform normal zero_oracle].
    assert (Hp : 0 < probability_birth default_config (mkAnimal Herbivore 40 5) 2).
    { unfold probability_birth. cbn [params species weight default_config
        herb_params default_herb_params zeta w_birth sigma_birth gamma].
      rewrite (proj2 (Rltb_false _ _)) by lra.
      pose proof (fitness_bounds default_config (mkAnimal Herbivore 40 5)).
      destruct (Rltb 1 _); [lra|]. nra. }
    rewrite (proj2 (Rltb_true _ _) Hp).
    cbn [params species weight default_config herb_params default_herb_params
         w_birth sigma_birth xi].
    rewrite !(proj2 (Rltb_true _ _)) by lra. cbn [andb].
    unfold lift, new_animal. rewrite (proj2 (Rleb_false _ _)) by lra.
    reflexivity. }
  do 3 eexists. split; [exact Hrun|].
  pose proof (birth_spec default_config zero_oracle _ _ _ _ _ _ Hrun) as H.
  cbv beta iota in H. destruct H as [H1 [H2 [H3 [_ [_ [H4 _]]]]]].
  split; [exact H1|]. split; [exact H2|]. split; [exact H3|exact H4].
Defined.

(** ** Grazing *)

Lemma Herbivore_eating_min (cfg : Config) (a : Animal) (food : R) :
  0 <= food ->
  Herbivore_eating cfg a food
  = Ok (set_weight a (weight a + beta (herb_params cfg)
                                 * Rmin (F (herb_params cfg)) food),
        Rmin (F (herb_params cfg)) food).
Proof.
  intros H. unfold Herbivore_eating.
  rewrite (proj2 (Rltb_false food 0) H).
  destruct (Rleb (F (herb_params cfg)) food) eqn:E.
  - apply Rleb_true in E. now rewrite Rmin_left.
  - apply Rleb_false in E. rewrite Rmin_right by lra. reflexivity.
Qed.

Lemma nth_error_list_set_eq {A} (l : list A) (k : nat) (x : A) :
  (k < length l)%nat -> nth_error (list_set l k x) k = Some x.
Proof.
  revert k. induction l as [|y l IH]; intros [|k] H; simpl in *; try lia; auto.
  apply IH. lia.
Qed.

Lemma nth_error_list_set_neq {A} (l : list A) (k i : nat) (x : A) :
  i <> k -> nth_error (list_set l k x) i = nth_error l i.
Proof.
  revert k i. induction l as [|y l IH]; intros [|k] [|i] H; simpl; auto;
    try contradiction; try (apply IH; lia).
Qed.

Lemma food_left (f F : R) : 0 <= f -> 0 <= F -> f - Rmin F f = Rmax 0 (f - F).
Proof.
  intros Hf HF. unfold Rmin, Rmax.
  destruct (Rle_dec F f), (Rle_dec 0 (f - F)); lra.
Qed.

Lemma Rmax_step (f F j : R) :
  0 <= F -> 0 <= j -> Rmax 0 (Rmax 0 (f - F) - j * F) = Rmax 0 (f - (j + 1) * F).
Proof.
  intros HF Hj. assert (0 <= j * F) by nra.
  unfold Rmax.
  destruct (Rle_dec 0 (f - F)), (Rle_dec 0 (f - (j + 1) * F));
    try destruct (Rle_dec 0 (f - F - j * F));
    try destruct (Rle_dec 0 (0 - j * F)); lra.
Qed.

(** The share of the herbivore in place [i] of the feeding order. *)
Lemma herb_eating_loop_shares (cfg : Config) (n : nat) :
  forall (k : nat) (hs : list Animal) (fk : R),
    0 <= F (herb_params cfg) -> 0 <= fk -> (k + n <= length hs)%nat ->
    exists hs',
      herb_eating_loop cfg n k hs fk
      = Ok (hs', Rmax 0 (fk - INR n * F (herb_params cfg))) /\
      length hs' = length hs /\
      forall i h,
        nth_error hs i = Some h ->
        exists h',
          nth_error hs' i = Some h' /\
          species h' = species h /\ age h' = age h /\
          weight h'
          = weight h
            + beta (herb_params cfg)
              * (if ((k <=? i)%nat && (i <? k + n)%nat)%bool
                 then Rmin (F (herb_params cfg))
                           (Rmax 0 (fk - INR (i - k) * F (herb_params cfg)))
                 else 0).
Proof.
  induction n as [|n IH]; intros k hs fk HF Hf Hlen.
  - exists hs. split; [|split; [reflexivity|]].
    + simpl. rewrite Rmult_0_l, Rminus_0_r, Rmax_right by lra. reflexivity.
    + intros i h Hi. exists h. repeat split; auto.
      destruct (Nat.leb_spec k i), (Nat.ltb_spec i (k + 0)); simpl; try lia; lra.
  - cbn [herb_eating_loop]. destruct (Rltb 0 fk) eqn:E.
    + apply Rltb_true in E.
      destruct (nth_error hs k) as [hk|] eqn:Ek;
        [|apply nth_error_None in Ek; lia].
      rewrite (Herbivore_eating_min cfg hk fk Hf).
      set (hk' := set_weight hk _).
      assert (Hf1 : 0 <= fk - Rmin (F (herb_params cfg)) fk).
      { rewrite food_left by assumption. apply Rmax_l. }
      destruct (IH (S k) (list_set hs k hk') _ HF Hf1) as [hs' [Hrun [Hl Hnth]]].
      { rewrite list_set_length. lia. }
      exists hs'. split; [|split].
      * rewrite Hrun. do 2 f_equal.
        rewrite food_left, Rmax_step, S_INR by (assumption || apply pos_INR).
        reflexivity.
      * now rewrite Hl, list_set_length.
      * intros i h Hi. destruct (Nat.eq_dec i k) as [->|Hik].
        -- assert (h = hk) by congruence. subst h.
           destruct (Hnth k hk') as [h' [H1 [H2 [H3 H4]]]].
           { apply nth_error_list_set_eq. lia. }
           exists h'. split; [exact H1|]. split; [exact H2|]. split; [exact H3|].
           rewrite H4.
           destruct (Nat.leb_spec (S k) k); [lia|].
           destruct (Nat.leb_spec k k); [|lia].
           destruct (Nat.ltb_spec k (k + S n)); [|lia].
           cbn [andb]. subst hk'. cbn [weight set_weight].
           rewrite Nat.sub_diag. simpl INR.
           rewrite Rmult_0_l, Rminus_0_r, (Rmax_right 0 fk) by lra. ring.
        -- destruct (Hnth i h) as [h' [H1 [H2 [H3 H4]]]].
           { now rewrite nth_error_list_set_neq. }
           exists h'. split; [exact H1|]. split; [exact H2|]. split; [exact H3|].
           rewrite H4.
           destruct (Nat.leb_spec (S k) i), (Nat.ltb_spec i (S k + n)),
                    (Nat.leb_spec k i), (Nat.ltb_spec i (k + S n));
             cbn [andb]; try lia; try reflexivity.
           rewrite food_left by assumption.
           replace (i - k)%nat with (S (i - S k)) by lia.
           rewrite S_INR, Rmax_step by (assumption || apply pos_INR).
           reflexivity.
    + apply Rltb_false in E. assert (fk = 0) by lra. subst fk.
      pose proof (pos_INR (S n)) as Hn.
      exists hs. split; [|split; [reflexivity|]].
      * rewrite Rmax_left by nra. reflexivity.
      * intros i h Hi. exists h. repeat split; auto.
        destruct ((k <=? i)%nat && (i <? k + S n)%nat)%bool; [|lra].
        pose proof (pos_INR (i - k)) as Hik.
        rewrite Rmax_left by nra. rewrite Rmin_right by lra. lra.
Qed.

(** X5: grazing in a cell without staged herbivores, with fodder and the
    appetite [F] not negative.  The herbivores eat in the order of falling
    fitness; the one in place [i] of that order eats the smaller of [F] and
    what the [i] before it have left, [max 0 (food - i * F)], and gains
    [beta] times that; the fodder left is [max 0 (food - n * F)] for [n]
    herbivores; the carnivores are only put in order. *)
Theorem herb_eating_shares (cfg : Config) (c : Cell) :
  herb_immigrants c = [] ->
  0 <= available_food c -> 0 <= F (herb_params cfg) ->
  exists c',
    herb_eating cfg c = Ok c' /\
    available_food c'
    = Rmax 0 (available_food c - INR (length (herb c)) * F (herb_params cfg)) /\
    carn c' = sort_fitness cfg true (carn c) /\
    length (herb c') = length (herb c) /\
    forall i h,
      nth_error (sort_fitness cfg true (herb c)) i = Some h ->
      exists h',
        nth_error (herb c') i = Some h' /\
        species h' = species h /\ age h' = age h /\
        weight h'
        = weight h
          + beta (herb_params cfg)
            * Rmin (F (herb_params cfg))
                   (Rmax 0 (available_food c - INR i * F (herb_params cfg))).
Proof.
  intros Himm Hfood HF. unfold herb_eating.
  destruct (herb_eating_loop_shares cfg
              (total_num_animals (fitness_sorting cfg true true c) Herbivore) 0
              (herb (fitness_sorting cfg true true c))
              (available_food (fitness_sorting cfg true true c)) HF Hfood)
    as [hs [Hrun [Hlen Hnth]]].
  { simpl. rewrite Himm. simpl. lia. }
  rewrite Hrun. eexists. split; [reflexivity|].
  cbn [available_food set_available_food herb set_herb carn set_carn
       fitness_sorting total_num_animals herb_immigrants] in *.
  rewrite Himm, sort_fitness_length in *. cbn [length] in *.
  rewrite Nat.add_0_r. split; [reflexivity|]. split; [reflexivity|].
  split; [exact Hlen|].
  intros i h Hi. destruct (Hnth i h Hi) as [h' [H1 [H2 [H3 H4]]]].
  exists h'. split; [exact H1|]. split; [exact H2|]. split; [exact H3|].
  rewrite H4. assert (Hi' : (i < length (herb c))%nat).
  { rewrite <- (sort_fitness_length cfg true). apply nth_error_Some. congruence. }
  destruct (Nat.ltb_spec i (0 + (length (herb c) + 0))); [|lia].
  cbn [Nat.leb andb]. now rewrite Nat.sub_0_r.
Qed.

Lemma herb_eating_shares_witness :
  exists c',
    herb_eating default_config
                (mkCell Jungle (1, 1)%Z [mkAnimal Herbivore 20 5] [] [] [] 800)
    = Ok c' /\
    available_food c' = Rmax 0 (800 - INR 1 * 10) /\
    length (herb c') = 1%nat.
Proof.
  destruct (herb_eating_shares default_config
              (mkCell Jungle (1, 1)%Z [mkAnimal Herbivore 20 5] [] [] [] 800)
              eq_refl ltac:(simpl; lra) ltac:(simpl; lra))
    as [c' [H1 [H2 [_ [H3 _]]]]].
  exists c'. split; [exact H1|]. split; [exact H2|exact H3].
Defined.

Lemma herb_eating_loop_overrun (cfg : Config) (n : nat) :
  forall (m k : nat) (hs : list Animal) (fk : R),
    0 <= F (herb_params cfg) ->
    length hs = (k + m)%nat -> INR m * F (herb_params cfg) < fk ->
    (m < n)%nat ->
    herb_eating_loop cfg n k hs fk = Err IndexError.
Proof.
  induction n as [|n IH]; intros m k hs fk HF Hlen Hf Hm; [lia|].
  pose proof (pos_INR m) as Hpos.
  cbn [herb_eating_loop].
  rewrite (proj2 (Rltb_true 0 fk)) by nra.
  destruct m as [|m].
  - replace (nth_error hs k) with (@None Animal); [reflexivity|].
    symmetry. apply nth_error_None. lia.
  - destruct (nth_error hs k) as [hk|] eqn:Ek;
      [|apply nth_error_None in Ek; lia].
    rewrite (Herbivore_eating_min cfg hk fk) by nra.
    apply (IH m).
    + exact HF.
    + rewrite list_set_length. lia.
    + rewrite S_INR in Hf. pose proof (Rmin_l (F (herb_params cfg)) fk).
      pose proof (pos_INR m). nra.
    + lia.
Qed.

(** X6: [herb_eating] takes the number of herbivores from
    [total_num_animals], which counts the staged immigrants too, and then
    indexes the residents with it: in a cell that holds a staged herbivore
    and more fodder than its residents can eat, it raises [IndexError]. *)
Theorem herb_eating_staged_overrun (cfg : Config) (c : Cell) :
  herb_immigrants c <> [] ->
  0 <= F (herb_params cfg) ->
  INR (length (herb c)) * F (herb_params cfg) < available_food c ->
  herb_eating cfg c = Err IndexError.
Proof.
  intros Himm HF Hfood. unfold herb_eating.
  rewrite (herb_eating_loop_overrun cfg _ (length (herb c))); auto.
  - cbn [herb fitness_sorting set_carn set_herb]. now rewrite sort_fitness_length.
  - cbn [total_num_animals herb herb_immigrants fitness_sorting set_carn set_herb].
    rewrite sort_fitness_length.
    destruct (herb_immigrants c); [contradiction|]. simpl. lia.
Qed.

Lemma herb_eating_staged_overrun_witness :
  herb_eating default_config
              (mkCell Jungle (1, 1)%Z [] [] [mkAnimal Herbivore 20 5] [] 800)
  = Err IndexError.
Proof.
  apply herb_eating_staged_overrun; simpl; [discriminate|lra|lra].
Defined.

(** ** Order of feeding *)

Lemma sort_fitness_sorted_id (cfg : Config) (d : bool) (l : list Animal) :
  fitness_sorted cfg d l -> sort_fitness cfg d l = l.
Proof.
  induction l as [|x l IH]; simpl; [reflexivity|].
  intros [Hx Hl]. fold (sort_fitness cfg d l). rewrite (IH Hl).
  destruct l as [|y l']; [reflexivity|]. simpl.
  apply Forall_inv in Hx. unfold fitness_before in Hx.
  destruct d.
  - now rewrite (proj2 (Rltb_false _ _) Hx).
  - now rewrite (proj2 (Rltb_false _ _) Hx).
Qed.

(** X7: [fitness_sorting] puts the herbivores and the carnivores of a cell
    each in the requested order of fitness, keeps the same animals, leaves
    a list that is in order as it is, and touches nothing else of the
    cell. *)
Theorem fitness_sorting_spec (cfg : Config) (hd cd : bool) (c : Cell) :
  let c' := fitness_sorting cfg hd cd c in
  Permutation (herb c') (herb c) /\ fitness_sorted cfg hd (herb c') /\
  Permutation (carn c') (carn c) /\ fitness_sorted cfg cd (carn c') /\
  (fitness_sorted cfg hd (herb c) -> herb c' = herb c) /\
  (fitness_sorted cfg cd (carn c) -> carn c' = carn c) /\
  kind c' = kind c /\ loc c' = loc c /\
  herb_immigrants c' = herb_immigrants c /\
  carn_immigrants c' = carn_immigrants c /\
  available_food c' = available_food c.
Proof.
  simpl. repeat split.
  - apply sort_fitness_perm.
  - apply sort_fitness_sorted.
  - apply sort_fitness_perm.
  - apply sort_fitness_sorted.
  - apply sort_fitness_sorted_id.
  - apply sort_fitness_sorted_id.
Qed.

(** ** Hunting in a cell *)

Lemma subseq_trans {A} (l1 l2 l3 : list A) :
  subseq l1 l2 -> subseq l2 l3 -> subseq l1 l3.
Proof.
  intros H12 H23. revert l1 H12.
  induction H23 as [|x l2 l3 H IH|x l2 l3 H IH]; intros l1 H12.
  - exact H12.
  - inversion H12; subst.
    + constructor. now apply IH.
    + apply subseq_drop. now apply IH.
  - apply subseq_drop. now apply IH.
Qed.

Lemma Rsum_perm (l l' : list R) : Permutation l l' -> Rsum l = Rsum l'.
Proof.
  induction 1 as [|x l l' H IH|x y l|l l' l'' H1 IH1 H2 IH2].
  - reflexivity.
  - rewrite !Rsum_cons. lra.
  - rewrite !Rsum_cons. lra.
  - congruence.
Qed.

Lemma carn_eating_loop_spec (cfg : Config) (o : Oracle)
    (carns herbs carns' herbs' : list Animal) (k k' : nat) :
  0 <= F (carn_params cfg) -> 0 <= beta (carn_params cfg) ->
  carn_eating_loop cfg o carns herbs k = Ok ((carns', herbs'), k') ->
  subseq herbs' herbs /\
  Forall2 (fun a a' => species a' = species a /\ age a' = age a) carns carns' /\
  Rsum (map (@weight_of_animal) carns')
  <= Rsum (map (@weight_of_animal) carns)
     + beta (carn_params cfg)
       * (Rsum (map (@weight_of_animal) herbs)
          - Rsum (map (@weight_of_animal) herbs')).
Proof.
  intros HF Hb. revert herbs carns' herbs' k k'.
  assert (Hstop : forall (cs hs cs' hs' : list Animal),
             (cs', hs') = (cs, hs) ->
             subseq hs' hs /\
             Forall2 (fun a a' => species a' = species a /\ age a' = age a) cs cs' /\
             Rsum (map (@weight_of_animal) cs')
             <= Rsum (map (@weight_of_animal) cs)
                + beta (carn_params cfg)
                  * (Rsum (map (@weight_of_animal) hs)
                     - Rsum (map (@weight_of_animal) hs'))).
  { intros cs hs cs' hs' E. injection E as -> ->.
    split; [apply subseq_refl|]. split; [|lra].
    apply Forall2_refl. auto. }
  induction carns as [|c rest IH]; intros herbs carns' herbs' k k' H;
    cbn [carn_eating_loop] in H.
  - apply ret_inv in H as [H _]. now apply Hstop.
  - destruct herbs as [|h hs].
    { apply ret_inv in H as [H _]. now apply Hstop. }
    destruct (Rltb (fitness cfg c) (fitness cfg h)).
    { apply ret_inv in H as [H _]. now apply Hstop. }
    apply bind_inv in H as [[c1 herbs1] [k1 [H1 H]]].
    apply bind_inv in H as [[rest1 herbs2] [k2 [H2 H]]].
    apply ret_inv in H as [H _]. injection H as -> ->.
    unfold Carnivore_eating in H1.
    apply Carnivore_eating_loop_spec in H1
      as [rs [E [Hsub [Hsp [Hag [_ Hw]]]]]]; [|exact HF].
    simpl in E. subst rs.
    apply IH in H2 as [Hsub2 [Hf2 Hsum]].
    split; [eapply subseq_trans; eassumption|].
    split; [constructor; auto|].
    cbn [map]. rewrite !Rsum_cons. unfold weight_of_animal at 1 3.
    rewrite Hw, Rplus_0_l, Rminus_0_r.
    pose proof (Rmin_r (F (carn_params cfg))
                  (Rsum (map (@weight_of_animal) (h :: hs))
                   - Rsum (map (@weight_of_animal) herbs1))) as Hmin.
    cbn [map] in Hmin. rewrite Rsum_cons in Hmin. cbn [map]. rewrite Rsum_cons.
    nra.
Qed.

(** X8: hunting in a cell, [F] and [beta] of the carnivores not negative.
    The herbivores left are the herbivores of the cell in rising order of
    fitness with the killed ones taken out; the carnivores are the same
    animals in falling order of fitness, species and ages unchanged, and
    together they gain at most [beta] times the weight of the herbivores
    killed; landscape, place, staging lists and fodder stay. *)
Theorem carn_eating_cell_spec (cfg : Config) (o : Oracle) (c c' : Cell)
    (k k' : nat) :
  0 <= F (carn_params cfg) -> 0 <= beta (carn_params cfg) ->
  carn_eating cfg o c k = Ok (c', k') ->
  subseq (herb c') (sort_fitness cfg false (herb c)) /\
  Forall2 (fun a a' => species a' = species a /\ age a' = age a)
          (sort_fitness cfg true (carn c)) (carn c') /\
  Rsum (map (@weight_of_animal) (carn c'))
  <= Rsum (map (@weight_of_animal) (carn c))
     + beta (carn_params cfg)
       * (Rsum (map (@weight_of_animal) (herb c))
          - Rsum (map (@weight_of_animal) (herb c'))) /\
  kind c' = kind c /\ loc c' = loc c /\
  herb_immigrants c' = herb_immigrants c /\
  carn_immigrants c' = carn_immigrants c /\
  available_food c' = available_food c.
Proof.
  intros HF Hb H. unfold carn_eating in H.
  apply bind_inv in H as [[cs hs] [k1 [H1 H]]].
  apply ret_inv in H as [-> _].
  apply carn_eating_loop_spec in H1 as [Hsub [Hf Hsum]]; [|exact HF|exact Hb].
  cbn [herb carn fitness_sorting set_herb set_carn kind loc herb_immigrants
       carn_immigrants available_food] in *.
  split; [exact Hsub|]. split; [exact Hf|]. split; [|repeat split].
  rewrite (Rsum_perm _ _ (Permutation_map (@weight_of_animal)
                            (sort_fitness_perm cfg true (carn c)))) in Hsum.
  rewrite (Rsum_perm _ _ (Permutation_map (@weight_of_animal)
                            (sort_fitness_perm cfg false (herb c)))) in Hsum.
  exact Hsum.
Qed.

Lemma carn_eating_cell_spec_witness :
  exists c' k',
    carn_eating no_birth_death_config zero_oracle
                (mkCell Jungle (1, 1)%Z [mkAnimal Herbivore (1 + 9 / 10 * 10) 40]
                        [mkAnimal Carnivore 20 60] [] [] 790) 0%nat
    = Ok (c', k') /\
    herb c' = [] /\ length (carn c') = 1%nat /\
    Rsum (map (@weight_of_animal) (carn c'))
    <= Rsum [20] + 75 / 100 * (Rsum [1 + 9 / 10 * 10] - Rsum []).
Proof.
  pose proof prey_fitness as Hh. pose proof hunter_fitness as Hc.
  assert (Hrun : carn_eating no_birth_death_config zero_oracle
                   (mkCell Jungle (1, 1)%Z
                           [mkAnimal Herbivore (1 + 9 / 10 * 10) 40]
                           [mkAnimal Carnivore 20 60] [] [] 790) 0%nat
                 = Ok (mkCell Jungle (1, 1)%Z []
                         [mkAnimal Carnivore (20 + (1 + 9 / 10 * 10) * (75 / 100)) 60]
                         [] [] 790, 1%nat)).
  { rstep. fold_cfg no_birth_death_config. rewrite Hh. rdecide. rstep.
    fold_cfg no_birth_death_config. fold zero_oracle.
    rewrite (carn_kills_herb_draw no_birth_death_config zero_oracle _ _ 0).
    2:{ rewrite Hh. simpl. lra. }
    2:{ unfold prob_kill. rewrite Hh. simpl. lra. }
    rstep. rdecide. rstep. reflexivity. }
  do 2 eexists. split; [exact Hrun|].
  destruct (carn_eating_cell_spec no_birth_death_config zero_oracle _ _ _ _
              ltac:(simpl; lra) ltac:(simpl; lra) Hrun) as [_ [_ [H _]]].
  split; [reflexivity|]. split; [reflexivity|]. exact H.
Defined.

(** ** Births and deaths in a cell *)

Lemma birth_alone (cfg : Config) (o : Oracle) (a a' : Animal) (n : Z)
    (new : option Animal) (k k' : nat) :
  0 <= uniform o k -> (n <= 1)%Z -> 0 <= gamma (params cfg a) ->
  birth cfg o a n k = Ok ((a', new), k') -> new = None.
Proof.
  intros Hu Hn Hg H. unfold birth in H.
  apply bind_inv in H as [r [k1 [Hr H]]].
  unfold random in Hr. injection Hr as <- <-.
  assert (Hp : probability_birth cfg a n <= 0).
  { unfold probability_birth. destruct (Rltb (weight a) _); [lra|].
    pose proof (fitness_bounds cfg a) as Hfit.
    assert (IZR n - 1 <= 0) by (apply IZR_le in Hn; lra).
    assert (0 <= gamma (params cfg a) * fitness cfg a) by nra.
    destruct (Rltb 1 _) eqn:E; [apply Rltb_true in E|]; nra. }
  rewrite (proj2 (Rltb_false _ _)) in H by lra.
  apply ret_inv in H as [H _]. now injection H as _ ->.
Qed.

Lemma newborns_loop_births (cfg : Config) (o : Oracle) (num : Z)
    (animals ms news : list Animal) (k k' : nat) :
  newborns_loop cfg o num animals k = Ok ((ms, news), k') ->
  Forall2 (fun a a' => species a' = species a /\ age a' = age a /\
                       (0 < weight a -> 0 < weight a'))
          animals ms /\
  (length news <= length animals)%nat /\
  Forall (fun b => age b = 0%Z /\ 0 < weight b /\
                   exists a, In a animals /\ species b = species a /\
                             weight b < weight a) news /\
  ((forall j, 0 <= uniform o j) -> (num <= 1)%Z ->
   Forall (fun a => 0 <= gamma (params cfg a)) animals -> news = []).
Proof.
  revert ms news k k'.
  induction animals as [|a rest IH]; intros ms news k k' H;
    cbn [newborns_loop] in H.
  - apply ret_inv in H as [H _]. injection H as -> ->.
    repeat split; auto.
  - apply bind_inv in H as [[a' new] [k1 [H1 H]]].
    apply bind_inv in H as [[rest' news'] [k2 [H2 H]]].
    apply ret_inv in H as [H _]. injection H as -> ->.
    pose proof (birth_inv cfg o a a' num new k k1 H1) as Hb.
    apply IH in H2 as [Hf [Hlen [Hnew Halone]]].
    assert (Hnew' : Forall (fun b => age b = 0%Z /\ 0 < weight b /\
                              exists a0, In a0 (a :: rest) /\
                                         species b = species a0 /\
                                         weight b < weight a0) news').
    { eapply Forall_impl; [|exact Hnew].
      intros b [B1 [B2 [a0 [B3 B4]]]]. split; [exact B1|]. split; [exact B2|].
      exists a0. split; [now right|exact B4]. }
    split; [|split; [|split]].
    + constructor; [|exact Hf].
      destruct new as [b|].
      * destruct Hb as [_ [_ [_ [Hs [Ha [_ Hw]]]]]]. auto.
      * subst a'. auto.
    + destruct new; simpl; lia.
    + destruct new as [b|]; [|exact Hnew'].
      constructor; [|exact Hnew'].
      destruct Hb as [Hs [Ha [Hw _]]]. split; [exact Ha|]. split; [lra|].
      exists a. split; [now left|]. split; [exact Hs|lra].
    + intros Hu Hn Hg.
      rewrite (birth_alone cfg o a a' num new k k1 (Hu k) Hn
                 (Forall_inv Hg) H1).
      apply Halone; auto. now apply Forall_inv_tail in Hg.
Qed.

(** X9: births in a cell.  Each list of residents keeps its animals in
    place, species and ages unchanged, and has the newborns appended; there
    are at most as many newborns as mothers; a newborn has age 0, a weight
    above 0 and below the weight of an animal of its species that was in
    the cell; and where the species has at most one animal in the cell
    none is born. *)
Theorem animal_birth_spec (cfg : Config) (o : Oracle) (c c' : Cell) (k k' : nat) :
  animal_birth cfg o c k = Ok (c', k') ->
  let kept :=
    Forall2 (fun a a' => species a' = species a /\ age a' = age a /\
                         (0 < weight a -> 0 < weight a')) in
  let newborn (l : list Animal) (b : Animal) :=
    age b = 0%Z /\ 0 < weight b /\
    exists a, In a l /\ species b = species a /\ weight b < weight a in
  exists hs hnew cs cnew,
    herb c' = hs ++ hnew /\ carn c' = cs ++ cnew /\
    kept (herb c) hs /\ kept (carn c) cs /\
    (length hnew <= length (herb c))%nat /\
    (length cnew <= length (carn c))%nat /\
    Forall (newborn (herb c)) hnew /\ Forall (newborn (carn c)) cnew /\
    ((forall j, 0 <= uniform o j) ->
     0 <= gamma (herb_params cfg) -> 0 <= gamma (carn_params cfg) ->
     ((length (herb c) <= 1)%nat -> hnew = []) /\
     ((length (carn c) <= 1)%nat -> cnew = [])) /\
    kind c' = kind c /\ loc c' = loc c /\
    herb_immigrants c' = herb_immigrants c /\
    carn_immigrants c' = carn_immigrants c /\
    available_food c' = available_food c.
Proof.
  intros H. unfold animal_birth, newborns in H.
  apply bind_inv in H as [[hs hnew] [k1 [H1 H]]].
  apply bind_inv in H as [[cs cnew] [k2 [H2 H]]].
  apply ret_inv in H as [-> _].
  apply newborns_loop_births in H1 as [A1 [B1 [C1 D1]]].
  apply newborns_loop_births in H2 as [A2 [B2 [C2 D2]]].
  exists hs, hnew, cs, cnew. simpl.
  split; [reflexivity|]. split; [reflexivity|].
  split; [exact A1|]. split; [exact A2|]. split; [exact B1|]. split; [exact B2|].
  split; [exact C1|]. split; [exact C2|].
  split; [|repeat split].
  intros Hu Gh Gc.
  assert (Hg : forall l, Forall (fun a => 0 <= gamma (params cfg a)) l).
  { intros l. apply Forall_forall. intros a _. unfold params.
    now destruct (species a). }
  split; intros Hlen; [apply D1|apply D2]; auto; lia.
Qed.

Lemma animal_birth_spec_witness :
  exists c' k' hs,
    animal_birth default_config zero_oracle
                 (mkCell Jungle (1, 1)%Z [mkAnimal Herbivore 40 5] [] [] [] 800)
                 0%nat
    = Ok (c', k') /\
    herb c' = hs ++ [] /\ length hs = 1%nat /\ carn c' = [].
Proof.
  destruct (animal_birth_total default_config zero_oracle
              (mkCell Jungle (1, 1)%Z [mkAnimal Herbivore 40 5] [] [] [] 800)
              0%nat) as [c' [k' Hrun]].
  destruct (animal_birth_spec default_config zero_oracle _ c' 0%nat k' Hrun)
    as [hs [hnew [cs [cnew [Eh [Ec [Kh [Kc [Lh [Lc [_ [_ [Halone _]]]]]]]]]]]]].
  destruct Halone as [Hh _];
    [intros j; simpl; lra|simpl; lra|simpl; lra|].
  rewrite (Hh ltac:(simpl; lia)) in Eh.
  exists c', k', hs. split; [exact Hrun|]. split; [exact Eh|].
  split.
  - apply Forall2_length in Kh. simpl in Kh. lia.
  - rewrite Ec. apply Forall2_length in Kc. simpl in *.
    destruct cs; [|discriminate]. destruct cnew; [reflexivity|simpl in Lc; lia].
Defined.

Lemma survivors_subseq (cfg : Config) (o : Oracle) (l l' : list Animal)
    (k k' : nat) :
  survivors cfg o l k = Ok (l', k') ->
  subseq l' l /\ k' = (k + length l)%nat /\
  (Forall (fun a => omega (params cfg a) * (1 - fitness cfg a) <= 0) l ->
   (forall j, 0 <= uniform o j) -> l' = l).
Proof.
  revert l' k k'. induction l as [|a rest IH]; intros l' k k' H;
    cbn [survivors] in H.
  - apply ret_inv in H as [-> ->]. split; [constructor|]. split; [simpl; lia|auto].
  - apply bind_inv in H as [dead [k1 [H1 H]]].
    apply bind_inv in H as [rest' [k2 [H2 H]]].
    apply ret_inv in H as [-> ->].
    unfold death, bind, random, ret in H1. injection H1 as <- <-.
    apply IH in H2 as [Hsub [-> Hall]].
    split; [|split; [simpl; lia|]].
    + destruct (Rltb _ _); now constructor.
    + intros Hz Hu. rewrite (proj2 (Rltb_false _ _)); [|].
      * f_equal. apply Hall; [now apply Forall_inv_tail in Hz|exact Hu].
      * apply Forall_inv in Hz. specialize (Hu k). lra.
Qed.

(** X10: deaths in a cell.  The herbivores and the carnivores left are the
    residents in their order with the dead taken out, unchanged; every
    resident costs one draw; an animal whose death probability
    [omega * (1 - fitness)] is not positive never dies; nothing else of the
    cell changes. *)
Theorem animal_death_spec (cfg : Config) (o : Oracle) (c c' : Cell) (k k' : nat) :
  animal_death cfg o c k = Ok (c', k') ->
  subseq (herb c') (herb c) /\ subseq (carn c') (carn c) /\
  k' = (k + length (herb c) + length (carn c))%nat /\
  ((forall j, 0 <= uniform o j) ->
   (Forall (fun a => omega (params cfg a) * (1 - fitness cfg a) <= 0) (herb c) ->
    herb c' = herb c) /\
   (Forall (fun a => omega (params cfg a) * (1 - fitness cfg a) <= 0) (carn c) ->
    carn c' = carn c)) /\
  kind c' = kind c /\ loc c' = loc c /\
  herb_immigrants c' = herb_immigrants c /\
  carn_immigrants c' = carn_immigrants c /\
  available_food c' = available_food c.
Proof.
  intros H. unfold animal_death in H.
  apply bind_inv in H as [hs [k1 [H1 H]]].
  apply bind_inv in H as [cs [k2 [H2 H]]].
  apply ret_inv in H as [-> ->].
  apply survivors_subseq in H1 as [S1 [-> A1]].
  apply survivors_subseq in H2 as [S2 [-> A2]].
  simpl. split; [exact S1|]. split; [exact S2|]. split; [reflexivity|].
  split; [|repeat split].
  intros Hu. split; intros Hz; auto.
Qed.

Lemma animal_death_spec_witness :
  exists c' k',
    animal_death default_config zero_oracle
                 (mkCell Jungle (1, 1)%Z [mkAnimal Herbivore 40 5]
                         [mkAnimal Carnivore 20 3] [] [] 800) 0%nat
    = Ok (c', k') /\
    k' = 2%nat /\ (length (herb c') <= 1)%nat.
Proof.
  destruct (animal_death_total default_config zero_oracle
              (mkCell Jungle (1, 1)%Z [mkAnimal Herbivore 40 5]
                      [mkAnimal Carnivore 20 3] [] [] 800) 0%nat)
    as [c' [k' Hrun]].
  destruct (animal_death_spec default_config zero_oracle _ c' 0%nat k' Hrun)
    as [Hh [_ [Hk _]]].
  exists c', k'. split; [exact Hrun|]. split; [exact Hk|].
  apply subseq_length in Hh. exact Hh.
Defined.

(** ** Growth of fodder *)

(** X11: [n] years of [food_growth] with nothing eaten.  Animals,
    landscape and place stay.  A Jungle is at its [fmax] after the first
    year; in a Savannah the distance of the fodder to [fmax] shrinks by the
    factor [1 - alpha] each year, so with [alpha] in [0, 1] fodder that
    starts at or below [fmax] never falls and never passes [fmax]; in the
    other landscapes the fodder stays what it is. *)
Theorem food_growth_years (cfg : Config) (c : Cell) (n : nat) :
  let c' := Nat.iter n (food_growth cfg) c in
  let fmax := savannah_fmax (land_params cfg) in
  let alpha := savannah_alpha (land_params cfg) in
  kind c' = kind c /\ loc c' = loc c /\ herb c' = herb c /\ carn c' = carn c /\
  herb_immigrants c' = herb_immigrants c /\
  carn_immigrants c' = carn_immigrants c /\
  available_food c'
  = match kind c with
    | Jungle => match n with
                | O => available_food c
                | S _ => jungle_fmax (land_params cfg)
                end
    | Savannah => fmax - (1 - alpha) ^ n * (fmax - available_food c)
    | _ => available_food c
    end /\
  (kind c = Savannah -> 0 <= alpha <= 1 -> available_food c <= fmax ->
   available_food c <= available_food c' <= fmax).
Proof.
  cbv zeta.
  assert (Hmain :
    kind (Nat.iter n (food_growth cfg) c) = kind c /\
    loc (Nat.iter n (food_growth cfg) c) = loc c /\
    herb (Nat.iter n (food_growth cfg) c) = herb c /\
    carn (Nat.iter n (food_growth cfg) c) = carn c /\
    herb_immigrants (Nat.iter n (food_growth cfg) c) = herb_immigrants c /\
    carn_immigrants (Nat.iter n (food_growth cfg) c) = carn_immigrants c /\
    available_food (Nat.iter n (food_growth cfg) c)
    = match kind c with
      | Jungle => match n with
                  | O => available_food c
                  | S _ => jungle_fmax (land_params cfg)
                  end
      | Savannah =>
        savannah_fmax (land_params cfg)
        - (1 - savannah_alpha (land_params cfg)) ^ n
          * (savannah_fmax (land_params cfg) - available_food c)
      | _ => available_food c
      end).
  { induction n as [|n IH].
    - simpl. repeat split; auto. destruct (kind c); auto. lra.
    - rewrite Nat.iter_succ. destruct IH as [Hk [Hl [Hh [Hc [Hhi [Hci Hf]]]]]].
      set (c1 := Nat.iter n (food_growth cfg) c) in *.
      unfold food_growth. rewrite Hk.
      destruct (kind c) eqn:Ek; cbn [kind loc herb carn herb_immigrants
        carn_immigrants available_food set_available_food];
        repeat split; auto.
      rewrite Hf. simpl. ring. }
  destruct Hmain as [Hk [Hl [Hh [Hc [Hhi [Hci Hf]]]]]].
  do 6 (split; [assumption|]). split; [exact Hf|].
  intros Hs [Ha0 Ha1] Hfood. rewrite Hf, Hs.
  assert (0 <= (1 - savannah_alpha (land_params cfg)) ^ n <= 1) as [P1 P2].
  { split; [apply pow_le; lra|].
    apply Rle_trans with (1 ^ n); [apply pow_incr; lra|rewrite pow1; lra]. }
  split; nra.
Qed.

(** ** Choice of the destination *)

(** X12: [animal_moves_to] on four probabilities.  If their sum, rounded
    to 15 decimals, is not 1 it raises [ValueError]; otherwise it takes one
    draw [rnd] and returns the first position whose cumulative probability
    exceeds [rnd], and 3 when none of the first three does. *)
Theorem animal_moves_to_spec (o : Oracle) (p0 p1 p2 p3 : R) (k : nat) :
  let rnd := uniform o k in
  (py_round (Rsum [p0; p1; p2; p3]) 15 <> 1 ->
   animal_moves_to o [p0; p1; p2; p3] k = Err ValueError) /\
  (py_round (Rsum [p0; p1; p2; p3]) 15 = 1 ->
   animal_moves_to o [p0; p1; p2; p3] k
   = Ok (if Rltb rnd p0 then 0%nat
         else if Rltb rnd (p0 + p1) then 1%nat
         else if Rltb rnd (p0 + p1 + p2) then 2%nat
         else 3%nat, S k)).
Proof.
  cbv zeta. unfold animal_moves_to. split; intros H.
  - now rewrite (proj2 (Reqb_false _ _) H).
  - rewrite (proj2 (Reqb_true _ _) H). cbn [negb].
    unfold bind, random, lift. cbn [nth_error moves_loop Nat.eqb].
    destruct (Rltb (uniform o k) p0) eqn:E0.
    { apply Rltb_true in E0. now rewrite (proj2 (Rleb_false _ _)) by lra. }
    apply Rltb_false in E0. rewrite (proj2 (Rleb_true _ _)) by lra.
    destruct (Rltb (uniform o k) (p0 + p1)) eqn:E1.
    { apply Rltb_true in E1. now rewrite (proj2 (Rleb_false _ _)) by lra. }
    apply Rltb_false in E1. rewrite (proj2 (Rleb_true _ _)) by lra.
    destruct (Rltb (uniform o k) (p0 + p1 + p2)) eqn:E2.
    { apply Rltb_true in E2. now rewrite (proj2 (Rleb_false _ _)) by lra. }
    apply Rltb_false in E2. now rewrite (proj2 (Rleb_true _ _)) by lra.
Qed.

(** ** The island *)



Lemma NoDup_map_inj {A B} (f : A -> B) (l : list A) :
  (forall x y, f x = f y -> x = y) -> NoDup l -> NoDup (map f l).
Proof.
  intros Hf. induction 1 as [|x l Hx Hl IH]; simpl; constructor; auto.
  intros Hin. apply in_map_iff in Hin as [y [E Hy]].
  apply Hf in E. now subst y.
Qed.

Lemma NoDup_zrange (a b : Z) : NoDup (zrange a b).
Proof.
  unfold zrange. apply NoDup_map_inj; [intros x y; lia|apply seq_NoDup].
Qed.

Lemma NoDup_interior_locations (isl : Island) : NoDup (interior_locations isl).
Proof.
  unfold interior_locations.
  generalize (zrange 1 (Z.of_nat (length (nth 0 (geogr isl) [])) - 1))
             (NoDup_zrange 1 (Z.of_nat (length (nth 0 (geogr isl) [])) - 1)).
  intros cs Hcs.
  generalize (zrange 1 (Z.of_nat (length (geogr isl)) - 1))
             (NoDup_zrange 1 (Z.of_nat (length (geogr isl)) - 1)).
  intros rs Hrs. induction Hrs as [|r rs Hr Hrs IH]; simpl; [constructor|].
  apply NoDup_app; [|exact IH|].
  - apply NoDup_map_inj; [|exact Hcs]. intros x y E. now injection E.
  - intros [r' c'] H1 H2. apply in_map_iff in H1 as [c [E _]].
    injection E as -> ->.
    apply in_flat_map in H2 as [r2 [Hr2 H2]].
    apply in_map_iff in H2 as [c2 [E _]]. injection E as -> ->.
    contradiction.
Qed.

(** X14: the visiting order of a migration is a shuffle of the locations
    off the border: every cell with a row index from 1 to the last but one
    and a column index likewise is visited exactly once, no other cell is,
    and one draw is spent. *)
Theorem randomize_cell_structure_spec (o : Oracle) (isl : Island)
    (locs : list (Z * Z)) (k k' : nat) :
  valid_oracle o ->
  randomize_cell_structure o isl k = Ok (locs, k') ->
  Permutation locs (interior_locations isl) /\ NoDup locs /\ k' = S k /\
  forall r c,
    In (r, c) locs <->
    (1 <= r < Z.of_nat (length (geogr isl)) - 1)%Z /\
    (1 <= c < Z.of_nat (length (nth 0 (geogr isl) [])) - 1)%Z.
Proof.
  intros [_ Hperm] H. unfold randomize_cell_structure in H.
  apply bind_inv in H as [l [k1 [H1 H]]]. injection H1 as <- <-.
  apply bind_inv in H as [cells [k2 [H2 H]]].
  apply lift_inv in H2 as [_ <-].
  apply ret_inv in H as [-> ->].
  pose proof (Hperm k (interior_locations isl)) as P.
  split; [exact P|]. split.
  - eapply Permutation_NoDup; [apply Permutation_sym; exact P|].
    apply NoDup_interior_locations.
  - split; [reflexivity|]. intros r c.
    rewrite <- In_interior_locations. split; apply Permutation_in;
      [exact P|apply Permutation_sym; exact P].
Qed.

Lemma randomize_cell_structure_spec_witness :
  exists isl0 locs,
    new_island default_config sample_rows = Ok isl0 /\
    randomize_cell_structure zero_oracle isl0 0%nat = Ok (locs, 1%nat) /\
    Permutation locs [(1, 1); (1, 2)]%Z /\ NoDup locs.
Proof.
  assert (Hnew : exists isl0,
             new_island default_config sample_rows = Ok isl0 /\
             randomize_cell_structure zero_oracle isl0 0%nat
             = Ok ([(1, 1); (1, 2)]%Z, 1%nat) /\
             interior_locations isl0 = [(1, 1); (1, 2)]%Z).
  { eexists. split; [rstep; reflexivity|]. split; reflexivity. }
  destruct Hnew as [isl0 [Hnew [Hrun Hint]]].
  exists isl0, [(1, 1); (1, 2)]%Z. split; [exact Hnew|]. split; [exact Hrun|].
  destruct (randomize_cell_structure_spec zero_oracle isl0 _ 0%nat 1%nat
              valid_zero_oracle Hrun) as [P [N _]].
  rewrite Hint in P. split; [exact P|exact N].
Defined.

Lemma tagged_herb_not_carn (a : PopAnimal) :
  tagged Herbivore a = true -> tagged Carnivore a = false.
Proof.
  simpl. intros H. apply orb_true_iff in H as [H|H];
    apply String.eqb_eq in H; rewrite H; reflexivity.
Qed.

Lemma add_population_loop_counts (pop : list PopAnimal) (c c' : Cell) :
  add_population_loop pop c = (c', None) ->
  forall sp,
    total_num_animals c' sp
    = (total_num_animals c sp + length (filter (tagged sp) pop))%nat.
Proof.
  revert c. induction pop as [|animal rest IH]; intros c; cbn [add_population_loop].
  - intros H sp. injection H as <-. simpl. lia.
  - destruct (String.eqb (p_species animal) "Herbivore"
              || String.eqb (p_species animal) "herbivore")%bool eqn:Eh.
    + destruct (new_animal Herbivore _ _) as [a|e]; [|discriminate].
      intros H sp. rewrite (IH _ H sp). cbn [filter].
      pose proof (tagged_herb_not_carn animal Eh) as Ec.
      destruct sp; cbn [tagged]; cbn [tagged] in Ec; rewrite ?Eh, ?Ec; simpl;
        rewrite ?length_app; simpl; lia.
    + destruct (String.eqb (p_species animal) "Carnivore"
                || String.eqb (p_species animal) "carnivore")%bool eqn:Ec;
        [|discriminate].
      destruct (new_animal Carnivore _ _) as [a|e]; [|discriminate].
      intros H sp. rewrite (IH _ H sp). cbn [filter].
      destruct sp; cbn [tagged]; rewrite ?Eh, ?Ec; simpl;
        rewrite ?length_app; simpl; lia.
Qed.

(** X15: a batch that [place_animals] places without an exception raises
    the number of herbivores on the island by the number of its entries
    tagged as herbivores and the number of carnivores by the number of its
    entries tagged as carnivores, and leaves the geography as it is. *)
Theorem place_animals_counts (population : list PopRecord) (isl isl' : Island) :
  place_animals population isl = (isl', None) ->
  geogr isl' = geogr isl /\
  number_of_animals isl'
  = ((fst (number_of_animals isl) + batch_count Herbivore population)%nat,
     (snd (number_of_animals isl) + batch_count Carnivore population)%nat).
Proof.
  intros H. split; [now apply place_animals_rel in H|].
  assert (Hsp : forall sp,
             count_cells sp (island_map isl')
             = (count_cells sp (island_map isl) + batch_count sp population)%nat).
  { intros sp. revert isl H.
    induction population as [|pop rest IH]; intros isl H;
      cbn [place_animals] in H.
    - injection H as <-. unfold batch_count. simpl. lia.
    - destruct (_ <? _)%Z; [discriminate|].
      destruct (nth_error (island_map isl) 0) as [row0|]; [|discriminate].
      destruct (_ <? _)%Z; [discriminate|].
      destruct (get_cell (island_map isl) _) as [cell|e] eqn:Ecell; [|discriminate].
      destruct (animals_can_live_here cell) eqn:Elive; [|discriminate].
      destruct (add_population (p_pop pop) cell) as [cell' [e|]] eqn:Eadd;
        [discriminate|].
      apply IH in H. rewrite H. cbn [island_map].
      pose proof (count_alter_cell sp (fun _ => cell') _ _ _ Ecell) as Hc.
      cbv beta in Hc.
      unfold add_population, animals_can_live_here in *.
      assert (Hl : exists l, p_pop pop = Some l /\
                             add_population_loop l cell = (cell', None)).
      { destruct (kind cell); try discriminate;
          destruct (p_pop pop) as [l|]; try discriminate; eauto. }
      destruct Hl as [l [El Hl]].
      pose proof (add_population_loop_counts l cell cell' Hl sp) as Hn.
      unfold batch_count. cbn [sumn fold_right]. rewrite El.
      fold (sumn (fun r => match p_pop r with
                           | Some l0 => length (filter (tagged sp) l0)
                           | None => 0%nat
                           end) rest).
      lia. }
  unfold number_of_animals. cbn [fst snd]. now rewrite !Hsp.
Qed.

Lemma place_animals_counts_witness :
  exists isl0 isl,
    new_island default_config sample_rows = Ok isl0 /\
    place_animals sample_pop isl0 = (isl, None) /\
    number_of_animals isl
    = ((fst (number_of_animals isl0) + 2)%nat,
       (snd (number_of_animals isl0) + 0)%nat).
Proof.
  destruct (sample_island default_config) as [isl0 [isl [Hnew [Hplace _]]]].
  exists isl0, isl. split; [exact Hnew|]. split; [exact Hplace|].
  exact (proj2 (place_animals_counts sample_pop isl0 isl Hplace)).
Defined.


(** ** Setting parameters *)

Lemma dict_get_In (d : Dict) (key : string) (v : R) :
  dict_get d key = Some v -> In (key, v) d.
Proof.
  induction d as [|[k x] d IH]; simpl; [discriminate|].
  destruct (String.eqb k key) eqn:E.
  - apply String.eqb_eq in E. intros H. injection H as ->. subst. now left.
  - auto.
Qed.

Lemma dict_get_None (d : Dict) (key : string) :
  ~ In key (map fst d) -> dict_get d key = None.
Proof.
  induction d as [|[k x] d IH]; simpl; [reflexivity|].
  intros H. destruct (String.eqb k key) eqn:E.
  - apply String.eqb_eq in E. tauto.
  - apply IH. tauto.
Qed.

Lemma dict_get_NoDup (d : Dict) (key : string) (v : R) :
  NoDup (map fst d) -> In (key, v) d -> dict_get d key = Some v.
Proof.
  induction d as [|[k x] d IH]; simpl; [contradiction|].
  intros Hnd [H|H].
  - injection H as -> ->. now rewrite String.eqb_refl.
  - inversion Hnd as [|? ? Hk Hd]; subst.
    destruct (String.eqb k key) eqn:E; [|auto].
    apply String.eqb_eq in E. subst k. exfalso. apply Hk.
    apply in_map_iff. now exists (key, v).
Qed.

Lemma dict_get_set (d : Dict) (k key : string) (v : R) :
  dict_get (dict_set d k v) key
  = if String.eqb k key then Some v else dict_get d key.
Proof.
  induction d as [|[k0 x] d IH]; simpl.
  - reflexivity.
  - destruct (String.eqb k0 k) eqn:E0; simpl.
    + apply String.eqb_eq in E0. subst k0.
      now destruct (String.eqb k key).
    + destruct (String.eqb k0 key) eqn:E1; [|exact IH].
      destruct (String.eqb k key) eqn:E2; [|reflexivity].
      apply String.eqb_eq in E1, E2. subst. now rewrite String.eqb_refl in E0.
Qed.

Lemma dict_set_keys (d : Dict) (k : string) (v : R) :
  dict_mem d k = true -> map fst (dict_set d k v) = map fst d.
Proof.
  unfold dict_mem. induction d as [|[k0 x] d IH]; simpl; [discriminate|].
  destruct (String.eqb k0 k) eqn:E; simpl; [reflexivity|].
  intros H. now rewrite IH.
Qed.

Lemma dict_mem_keys (d d' : Dict) (k : string) :
  map fst d' = map fst d -> dict_mem d' k = dict_mem d k.
Proof.
  unfold dict_mem. revert d'.
  induction d as [|[k0 x] d IH]; intros [|[k1 y] d'] H; simpl in *;
    try discriminate; [reflexivity|].
  injection H as -> H. destruct (String.eqb k0 k); [reflexivity|]. now apply IH.
Qed.

Lemma dict_update_spec (d new : Dict) :
  NoDup (map fst new) ->
  Forall (fun kv => dict_mem d (fst kv) = true) new ->
  updated_with d new (dict_update d new).
Proof.
  unfold updated_with, dict_update. revert d.
  induction new as [|[k v] new IH]; intros d Hnd Hin; simpl.
  - auto.
  - inversion Hnd as [|? ? Hk Hnd']; subst.
    inversion Hin as [|? ? Hk1 Hin']; subst. simpl in Hk1.
    pose proof (dict_set_keys d k v Hk1) as Hkeys.
    destruct (IH (dict_set d k v) Hnd') as [A B].
    { eapply Forall_impl; [|exact Hin']. intros kv Hkv.
      now rewrite (dict_mem_keys d (dict_set d k v)). }
    split; [congruence|].
    intros key. rewrite B, dict_get_set.
    destruct (String.eqb k key) eqn:E.
    + apply String.eqb_eq in E. subst key. now rewrite dict_get_None.
    + reflexivity.
Qed.

Lemma check_animal_params_ok (cls_params items : Dict) :
  check_animal_params cls_params items = Ok tt <->
  Forall (fun kv => dict_mem cls_params (fst kv) = true /\
                    (key_in (fst kv) lower = true -> 0 <= snd kv) /\
                    (key_in (fst kv) upper = true -> snd kv <= 1)) items.
Proof.
  induction items as [|[i v] rest IH]; cbn [check_animal_params].
  - split; auto.
  - destruct (dict_mem cls_params i) eqn:Em; cbn [negb].
    2:{ split; [discriminate|]. intros H. apply Forall_inv in H.
        cbn [fst snd] in H. destruct H as [H _]. congruence. }
    destruct (key_in i lower) eqn:E1; cbn [andb].
    + destruct (Rltb v 0) eqn:El.
      { apply Rltb_true in El. split; [discriminate|]. intros H.
        apply Forall_inv in H. cbn [fst snd] in H.
        destruct H as [_ [H _]]. rewrite E1 in H. specialize (H eq_refl). lra. }
      apply Rltb_false in El.
      destruct (key_in i upper) eqn:E2; cbn [andb].
      * destruct (Rltb 1 v) eqn:Eu.
        { apply Rltb_true in Eu. split; [discriminate|]. intros H.
          apply Forall_inv in H. cbn [fst snd] in H.
          destruct H as [_ [_ H]]. rewrite E2 in H. specialize (H eq_refl). lra. }
        apply Rltb_false in Eu. rewrite IH. split.
        -- intros H. constructor; [|exact H]. cbn [fst snd].
           rewrite Em, E1, E2. auto.
        -- apply Forall_inv_tail.
      * rewrite IH. split.
        -- intros H. constructor; [|exact H]. cbn [fst snd].
           rewrite Em, E1, E2. repeat split; auto. discriminate.
        -- apply Forall_inv_tail.
    + destruct (key_in i upper) eqn:E2; cbn [andb].
      * destruct (Rltb 1 v) eqn:Eu.
        { apply Rltb_true in Eu. split; [discriminate|]. intros H.
          apply Forall_inv in H. cbn [fst snd] in H.
          destruct H as [_ [_ H]]. rewrite E2 in H. specialize (H eq_refl). lra. }
        apply Rltb_false in Eu. rewrite IH. split.
        -- intros H. constructor; [|exact H]. cbn [fst snd].
           rewrite Em, E1, E2. repeat split; auto. discriminate.
        -- apply Forall_inv_tail.
      * rewrite IH. split.
        -- intros H. constructor; [|exact H]. cbn [fst snd].
           rewrite Em, E1, E2. repeat split; auto; discriminate.
        -- apply Forall_inv_tail.
Qed.

Lemma check_animal_params_error (cls_params items : Dict) (e : Error) :
  check_animal_params cls_params items = Err e -> e = ValueError.
Proof.
  induction items as [|[i v] rest IH]; cbn [check_animal_params];
    [discriminate|].
  destruct (negb _); [congruence|].
  destruct (_ && _)%bool; [congruence|].
  destruct (_ && _)%bool; [congruence|]. exact IH.
Qed.

(** X17: [Animal.set_parameters] on a class dictionary.  It accepts the
    new parameters exactly when every key is a key of the class, every
    value of a key of [lower] is at least 0, every value of a key of
    [upper] is at most 1 and [DeltaPhiMax], if given, is above 0; then the
    class dictionary keeps its keys, takes the new values and keeps the
    others.  Otherwise it raises [ValueError]. *)
Theorem Animal_set_parameters_spec (cls_params new_params : Dict) :
  NoDup (map fst new_params) ->
  (Forall (animal_param_ok cls_params) new_params <->
   exists cls', Animal_set_parameters cls_params new_params = Ok cls') /\
  (forall cls',
     Animal_set_parameters cls_params new_params = Ok cls' ->
     updated_with cls_params new_params cls') /\
  (forall e,
     Animal_set_parameters cls_params new_params = Err e -> e = ValueError).
Proof.
  intros Hnd.
  assert (Hok : forall cls',
             Animal_set_parameters cls_params new_params = Ok cls' ->
             Forall (animal_param_ok cls_params) new_params /\
             cls' = dict_update cls_params new_params).
  { unfold Animal_set_parameters. intros cls' H.
    assert (Hc : check_animal_params cls_params new_params = Ok tt /\
                 cls' = dict_update cls_params new_params /\
                 forall v, dict_get new_params "DeltaPhiMax" = Some v -> 0 < v).
    { destruct (dict_get new_params "DeltaPhiMax") as [v|].
      - destruct (Rleb v 0) eqn:E; [discriminate|]. apply Rleb_false in E.
        destruct (check_animal_params _ _) as [[]|]; [|discriminate].
        injection H as <-. repeat split; auto. intros v' Hv. now injection Hv as <-.
      - destruct (check_animal_params _ _) as [[]|]; [|discriminate].
        injection H as <-. repeat split; auto. discriminate. }
    destruct Hc as [Hc [-> Hd]]. split; [|reflexivity].
    apply check_animal_params_ok in Hc. rewrite Forall_forall in *.
    intros [key v] Hin. destruct (Hc _ Hin) as [A [B C]].
    repeat split; auto. simpl. intros ->. apply Hd.
    now apply dict_get_NoDup. }
  split; [split|split].
  - intros Hall.
    assert (Hc : check_animal_params cls_params new_params = Ok tt).
    { apply check_animal_params_ok. eapply Forall_impl; [|exact Hall].
      intros kv [A [B [C _]]]. auto. }
    unfold Animal_set_parameters. rewrite Hc.
    destruct (dict_get new_params "DeltaPhiMax") as [v|] eqn:Ed; [|eauto].
    apply dict_get_In in Ed. rewrite Forall_forall in Hall.
    destruct (Hall _ Ed) as [_ [_ [_ Hpos]]]. specialize (Hpos eq_refl).
    simpl in Hpos. rewrite (proj2 (Rleb_false v 0) Hpos). eauto.
  - intros [cls' H]. now apply Hok in H.
  - intros cls' H. apply Hok in H as [Hall ->].
    apply dict_update_spec; [exact Hnd|].
    eapply Forall_impl; [|exact Hall]. now intros kv [A _].
  - intros e. unfold Animal_set_parameters.
    destruct (dict_get new_params "DeltaPhiMax") as [v|].
    + destruct (Rleb v 0); [congruence|].
      destruct (check_animal_params _ _) eqn:E; [discriminate|].
      intros H. injection H as <-. eapply check_animal_params_error; eassumption.
    + destruct (check_animal_params _ _) eqn:E; [discriminate|].
      intros H. injection H as <-. eapply check_animal_params_error; eassumption.
Qed.

Lemma Animal_set_parameters_spec_witness :
  exists cls',
    Animal_set_parameters Herbivore_params [("F", 0); ("gamma", 0)]%string
    = Ok cls' /\
    dict_get cls' "F" = Some 0 /\ dict_get cls' "eta" = Some (5 / 100).
Proof.
  assert (Hnd : NoDup (map fst [("F", 0); ("gamma", 0)]%string)).
  { simpl. repeat constructor; simpl; intuition discriminate. }
  destruct (Animal_set_parameters_spec Herbivore_params
              [("F", 0); ("gamma", 0)]%string Hnd) as [[Hacc _] [Hupd _]].
  destruct Hacc as [cls' Hrun].
  { repeat constructor; simpl; try reflexivity; try lra; try discriminate;
      intros _; lra. }
  exists cls'. split; [exact Hrun|].
  destruct (Hupd cls' Hrun) as [_ Hget].
  split; [exact (Hget "F"%string)|exact (Hget "eta"%string)].
Defined.

Lemma check_known_ok (cls_params items : Dict) :
  check_known cls_params items = Ok tt <->
  Forall (fun kv => dict_mem cls_params (fst kv) = true) items.
Proof.
  induction items as [|[i v] rest IH]; simpl.
  - split; auto.
  - destruct (dict_mem cls_params i) eqn:Em; cbn [negb].
    + rewrite IH. split; [intros H; now constructor|apply Forall_inv_tail].
    + split; [discriminate|]. intros H. apply Forall_inv in H.
      cbn [fst] in H. congruence.
Qed.

Lemma check_nonneg_ok (items : Dict) :
  check_nonneg items = Ok tt <-> Forall (fun kv => 0 <= snd kv) items.
Proof.
  induction items as [|[i v] rest IH]; simpl.
  - split; auto.
  - destruct (Rltb v 0) eqn:E.
    + apply Rltb_true in E. split; [discriminate|].
      intros H. apply Forall_inv in H. simpl in H. lra.
    + apply Rltb_false in E. rewrite IH.
      split; [intros H; now constructor|apply Forall_inv_tail].
Qed.

(** X18: [Landscape.set_parameters] on a class dictionary.  It accepts
    the new parameters exactly when every key is a key of the class, no
    value is negative and [alpha], if given, is at most 1; then the class
    dictionary keeps its keys, takes the new values and keeps the others.
    Otherwise it raises [ValueError]. *)
Theorem Landscape_set_parameters_spec (cls_params new_params : Dict) :
  NoDup (map fst new_params) ->
  (Forall (land_param_ok cls_params) new_params <->
   exists cls', Landscape_set_parameters cls_params new_params = Ok cls') /\
  (forall cls',
     Landscape_set_parameters cls_params new_params = Ok cls' ->
     updated_with cls_params new_params cls') /\
  (forall e,
     Landscape_set_parameters cls_params new_params = Err e -> e = ValueError).
Proof.
  intros Hnd.
  assert (Hok : forall cls',
             Landscape_set_parameters cls_params new_params = Ok cls' ->
             Forall (land_param_ok cls_params) new_params /\
             cls' = dict_update cls_params new_params).
  { unfold Landscape_set_parameters. intros cls' H.
    destruct (check_known cls_params new_params) as [[]|] eqn:E1; [|discriminate].
    destruct (check_nonneg new_params) as [[]|] eqn:E2; [|discriminate].
    apply check_known_ok in E1. apply check_nonneg_ok in E2.
    assert (Hc : cls' = dict_update cls_params new_params /\
                 forall v, dict_get new_params "alpha" = Some v -> v <= 1).
    { destruct (dict_get new_params "alpha") as [v|].
      - destruct (Rltb 1 v) eqn:E; [discriminate|]. apply Rltb_false in E.
        injection H as <-. split; [reflexivity|].
        intros v' Hv. now injection Hv as <-.
      - injection H as <-. split; [reflexivity|discriminate]. }
    destruct Hc as [-> Ha]. split; [|reflexivity].
    rewrite Forall_forall in *. intros [key v] Hin.
    split; [exact (E1 _ Hin)|]. split; [exact (E2 _ Hin)|].
    simpl. intros ->. apply Ha. now apply dict_get_NoDup. }
  split; [split|split].
  - intros Hall. unfold Landscape_set_parameters.
    assert (E1 : check_known cls_params new_params = Ok tt).
    { apply check_known_ok. eapply Forall_impl; [|exact Hall]. now intros kv [A _]. }
    assert (E2 : check_nonneg new_params = Ok tt).
    { apply check_nonneg_ok. eapply Forall_impl; [|exact Hall].
      now intros kv [_ [A _]]. }
    rewrite E1, E2.
    destruct (dict_get new_params "alpha") as [v|] eqn:Ed; [|eauto].
    apply dict_get_In in Ed. rewrite Forall_forall in Hall.
    destruct (Hall _ Ed) as [_ [_ Hle]]. specialize (Hle eq_refl). simpl in Hle.
    rewrite (proj2 (Rltb_false 1 v) Hle). eauto.
  - intros [cls' H]. now apply Hok in H.
  - intros cls' H. apply Hok in H as [Hall ->].
    apply dict_update_spec; [exact Hnd|].
    eapply Forall_impl; [|exact Hall]. now intros kv [A _].
  - intros e. unfold Landscape_set_parameters.
    assert (H1 : forall items e', check_known cls_params items = Err e' ->
                                  e' = ValueError).
    { induction items as [|[i v] rest IH]; simpl; [discriminate|].
      destruct (negb _); [congruence|exact IH]. }
    assert (H2 : forall items e', check_nonneg items = Err e' -> e' = ValueError).
    { induction items as [|[i v] rest IH]; simpl; [discriminate|].
      destruct (Rltb v 0); [congruence|exact IH]. }
    destruct (check_known cls_params new_params) as [[]|e1] eqn:E1.
    2:{ intros H. injection H as <-. eapply H1; eassumption. }
    destruct (check_nonneg new_params) as [[]|e2] eqn:E2.
    2:{ intros H. injection H as <-. eapply H2; eassumption. }
    destruct (dict_get new_params "alpha") as [v|]; [|discriminate].
    destruct (Rltb 1 v); [congruence|discriminate].
Qed.

Lemma Landscape_set_parameters_spec_witness :
  exists cls',
    Landscape_set_parameters Savannah_params [("alpha", 1 / 2)]%string = Ok cls' /\
    dict_get cls' "alpha" = Some (1 / 2) /\ dict_get cls' "fmax" = Some 300.
Proof.
  assert (Hnd : NoDup (map fst [("alpha", 1 / 2)]%string)).
  { simpl. repeat constructor; simpl; intuition discriminate. }
  destruct (Landscape_set_parameters_spec Savannah_params
              [("alpha", 1 / 2)]%string Hnd) as [[Hacc _] [Hupd _]].
  destruct Hacc as [cls' Hrun].
  { repeat constructor; simpl; try reflexivity; try lra; intros _; lra. }
  exists cls'. split; [exact Hrun|].
  destruct (Hupd cls' Hrun) as [_ Hget].
  split; [exact (Hget "alpha"%string)|exact (Hget "fmax"%string)].
Defined.

(** ** Neighbours *)

Lemma adjacent_ok_rel2 (R : Cell -> Cell -> Prop) (m m' : Map) (l : Z * Z) :
  (forall c c', R c c' -> same_frame c c') ->
  rel2 R m m' -> adjacent_ok m l -> adjacent_ok m' l.
Proof.
  intros Hfr Hrel [c [n1 [n2 [n3 [n4 [Hc [Hl [Hn [L1 [L2 [L3 L4]]]]]]]]]]].
  destruct (rel2_get_cell_l R m m' l c Hrel Hc) as [c' [Hc' HR]].
  destruct (Hfr _ _ HR) as [_ Hloc].
  destruct (get_neighbours_rel2 R m m' _ _ Hrel Hn) as [cells' [Hn' HF]].
  inversion HF as [|? n1' ? r1 H1 HF1]; subst.
  inversion HF1 as [|? n2' ? r2 H2 HF2]; subst.
  inversion HF2 as [|? n3' ? r3 H3 HF3]; subst.
  inversion HF3 as [|? n4' ? r4 H4 HF4]; subst.
  inversion HF4; subst.
  exists c', n1', n2', n3', n4'.
  split; [exact Hc'|]. split; [congruence|].
  split; [unfold neighbour_locations in *; now rewrite Hloc|].
  pose proof (proj2 (Hfr _ _ H1)). pose proof (proj2 (Hfr _ _ H2)).
  pose proof (proj2 (Hfr _ _ H3)). pose proof (proj2 (Hfr _ _ H4)).
  repeat split; congruence.
Qed.

Lemma new_island_adjacent (cfg : Config) (rows : list (list ascii))
    (isl : Island) (l : Z * Z) :
  new_island cfg rows = Ok isl ->
  In l (interior_locations isl) -> adjacent_ok (island_map isl) l.
Proof.
  intros H Hl.
  destruct (new_island_inv cfg rows isl H)
    as [first [rest [Erows [Hg [Hm [Hw _]]]]]].
  destruct l as [r c]. apply In_interior_locations in Hl as [Hr Hc].
  rewrite Hg in Hr, Hc. rewrite Erows in Hc. simpl nth in Hc.
  assert (Hat : forall r' c',
             (0 <= r' < Z.of_nat (length rows))%Z ->
             (0 <= c' < Z.of_nat (length first))%Z ->
             exists cell, get_cell (island_map isl) (r', c') = Ok cell /\
                          loc cell = (r', c')).
  { intros r' c' Hr' Hc'.
    destruct (build_map_dims cfg rows _ (length first) (Z.to_nat r') (Z.to_nat c')
                Hm Hw ltac:(lia) ltac:(lia)) as [cell [Hcell Hloc]].
    exists cell. rewrite !Z2Nat.id in Hloc by lia. split; [|exact Hloc].
    apply get_cell_nonneg in Hcell. now rewrite !Z2Nat.id in Hcell by lia. }
  destruct (Hat r c ltac:(lia) ltac:(lia)) as [cell [Hcell Hloc]].
  destruct (Hat (r - 1)%Z c ltac:(lia) ltac:(lia)) as [c1 [H1 L1]].
  destruct (Hat r (c + 1)%Z ltac:(lia) ltac:(lia)) as [c2 [H2 L2]].
  destruct (Hat (r + 1)%Z c ltac:(lia) ltac:(lia)) as [c3 [H3 L3]].
  destruct (Hat r (c - 1)%Z ltac:(lia) ltac:(lia)) as [c4 [H4 L4]].
  exists cell, c1, c2, c3, c4.
  split; [exact Hcell|]. split; [exact Hloc|]. split; [|auto].
  unfold neighbour_locations. rewrite Hloc. cbn [fst snd get_neighbours].
  now rewrite H1, H2, H3, H4.
Qed.

(** X19: on an island built by [Island(geogr)], populated and aged by
    annual cycles, every location the migration visits refers to the cell
    at that location, and [get_neighbours] reads for it the four cells
    above, right of, below and left of it: no index leaves the map or
    wraps around it. *)
Theorem interior_neighbours_adjacent (cfg : Config) (isl : Island) (l : Z * Z) :
  reachable cfg isl ->
  In l (interior_locations isl) ->
  adjacent_ok (island_map isl) l.
Proof.
  intros Hreach. revert l.
  induction Hreach as [rows isl Hnew | population isl Hreach IH
                       | o isl isl' k k' Hreach IH Hv Hcycle]; intros l Hl.
  - eapply new_island_adjacent; eassumption.
  - destruct (place_animals population isl) as [isl' err] eqn:E.
    cbn [fst] in *.
    apply place_animals_rel in E as [Hg Hrel].
    apply (adjacent_ok_rel2 place_rel (island_map isl));
      [intros c c' H; apply H|exact Hrel|].
    apply IH. unfold interior_locations in *. now rewrite <- Hg.
  - destruct (annual_cycle_rel cfg o isl isl' k k' (proj1 Hv) Hcycle) as [Hg Hrel].
    apply (adjacent_ok_rel2 step_rel (island_map isl));
      [intros c c' H; apply H|exact Hrel|].
    apply IH. unfold interior_locations in *. now rewrite <- Hg.
Qed.

Lemma interior_neighbours_adjacent_witness :
  exists isl0 isl,
    new_island default_config sample_rows = Ok isl0 /\
    place_animals sample_pop isl0 = (isl, None) /\
    adjacent_ok (island_map isl) (1, 2)%Z.
Proof.
  destruct (sample_island default_config) as [isl0 [isl [Hnew [Hplace _]]]].
  exists isl0, isl. split; [exact Hnew|]. split; [exact Hplace|].
  apply (interior_neighbours_adjacent default_config isl (1, 2)%Z
           (sample_island_reachable _ _ _ Hnew Hplace)).
  apply In_interior_locations.
  pose proof (place_animals_rel _ _ _ _ Hplace) as [Hg _].
  destruct (new_island_inv _ _ _ Hnew) as [_ [_ [_ [Hg0 _]]]].
  rewrite Hg, Hg0. simpl. lia.
Defined.

(** ** Probabilities that fall short of 1 *)

Lemma round_half_even_above (n : Z) (y : R) :
  IZR n - 1 / 2 < y < IZR n -> round_half_even y = n.
Proof.
  intros [H1 H2]. unfold round_half_even.
  assert (Hup : up y = n).
  { symmetry. apply tech_up; [exact H2|lra]. }
  rewrite Hup. rewrite minus_IZR.
  rewrite (proj2 (Rltb_false _ _)) by lra.
  rewrite (proj2 (Rltb_true _ _)) by lra. lia.
Qed.

(** [animal_moves_to] accepts a list whose sum is 1 only after rounding to
    15 decimals; when the sum falls short of the draw, it returns 3, the
    place where the loop breaks, although the entry there is 0. *)
Lemma animal_moves_to_falls_through :
  valid_oracle edge_oracle /\
  nth_error [1 / 2; 1 / 2 - / 2 ^ 53; 0; 0] 3 = Some 0 /\
  animal_moves_to edge_oracle [1 / 2; 1 / 2 - / 2 ^ 53; 0; 0] 0%nat
  = Ok (3%nat, 1%nat).
Proof.
  assert (H2 : 2 ^ 53 = 9007199254740992) by (simpl; lra).
  assert (H10 : 10 ^ 15 = 1000000000000000) by (simpl; lra).
  split; [|split; [reflexivity|]].
  - split; [|reflexivity]. intros k. cbn [uniform edge_oracle]. rewrite H2. lra.
  - unfold animal_moves_to.
    assert (Hs : Rsum [1 / 2; 1 / 2 - / 2 ^ 53; 0; 0] = 1 - / 2 ^ 53).
    { rewrite !Rsum_cons, Rsum_nil. lra. }
    assert (Hr : py_round (1 - / 2 ^ 53) 15 = 1).
    { unfold py_round.
      rewrite (round_half_even_above 1000000000000000).
      - rewrite H10. lra.
      - rewrite H2, H10. lra. }
    rewrite Hs, Hr, (proj2 (Reqb_true 1 1)) by reflexivity. cbn [negb].
    unfold bind, random, lift. cbn [uniform edge_oracle nth_error moves_loop Nat.eqb].
    rewrite H2.
    rewrite !(proj2 (Rleb_true _ _)) by lra. reflexivity.
Qed.
